(** * Graph_ADT: a shallow embedding of [first_challenge/Graph_ADT.py]

    The Python class [Graph] keeps an adjacency list in a dict (insertion
    ordered) from vertices to lists of [(neighbor, weight)] pairs, and two
    flags [directed] and [weighted].  The embedding keeps the dict as an
    association list in insertion order, threads the graph state explicitly
    through the mutators, and returns a [result] where Python may raise. *)

From Stdlib Require Import String Ascii DecimalString ZArith Lia Bool Arith List
  Permutation.
Import ListNotations.


(** ** Python values used as vertices

    Vertices are dict keys (hashable, compared with [==]); [dijkstra] also
    orders them (heap entries [[distance, vertex]] are compared as lists) and
    tests them for truth ([while previous[current]]).  The docstrings name
    [int] and [str]; a graph holds vertices of one of these types. *)

Class PyKey (V : Type) := {
  key_eqb : V -> V -> bool;
  key_eqb_spec : forall x y, reflect (x = y) (key_eqb x y);
  key_ltb : V -> V -> bool;
  truthy : V -> bool
}.

#[export] Instance PyKey_int : PyKey Z := {
  key_eqb := Z.eqb;
  key_eqb_spec := Z.eqb_spec;
  key_ltb := Z.ltb;
  truthy := fun n => negb (Z.eqb n 0)
}.

#[export] Instance PyKey_str : PyKey string := {
  key_eqb := String.eqb;
  key_eqb_spec := String.eqb_spec;
  key_ltb := String.ltb;
  truthy := fun s => negb (String.eqb s EmptyString)
}.

(** ** Exceptions and results *)

Inductive exn : Type :=
| KeyError
| ValueError
| TypeError
| IndexError
| OverflowError.

(** [OutOfFuel] is not a Python outcome: it marks a loop of the model that
    was cut before the Python loop would have ended. *)
Inductive result (A : Type) : Type :=
| Return (a : A)
| Raise (e : exn)
| OutOfFuel.

Arguments Return {A} a.
Arguments Raise {A} e.
Arguments OutOfFuel {A}.

Definition bind {A B} (m : result A) (k : A -> result B) : result B :=
  match m with
  | Return a => k a
  | Raise e => Raise e
  | OutOfFuel => OutOfFuel
  end.

Notation "x <- m ;; k" := (bind m (fun x => k))
  (at level 61, m at next level, right associativity).

Abbreviation Weight := (option Z) (only parsing).

Section Graph_ADT.

Context {V : Type} `{PyKey V}.

(** ** Python containers *)

(** A dict with keys in [V], in insertion order. *)
Definition dict (A : Type) : Type := list (V * A).

Fixpoint dict_get {A} (k : V) (d : dict A) : option A :=
  match d with
  | [] => None
  | (k', a) :: d' => if key_eqb k' k then Some a else dict_get k d'
  end.

(** [k in d] *)
Definition dict_mem {A} (k : V) (d : dict A) : bool :=
  match dict_get k d with Some _ => true | None => false end.

(** [d[k] = a]: rebinds [k] in place, or appends a new key at the end. *)
Fixpoint dict_set {A} (k : V) (a : A) (d : dict A) : dict A :=
  match d with
  | [] => [(k, a)]
  | (k', a') :: d' =>
      if key_eqb k' k then (k', a) :: d' else (k', a') :: dict_set k a d'
  end.

Definition dict_keys {A} (d : dict A) : list V := map fst d.

(** [d[k]], raising [KeyError] on a missing key. *)
Definition dict_index {A} (k : V) (d : dict A) : result A :=
  match dict_get k d with
  | Some a => Return a
  | None => Raise KeyError
  end.

(** [v in l] for a list *)
Definition list_mem (v : V) (l : list V) : bool := existsb (key_eqb v) l.

(** [l.pop()]: the last element and the list without it. *)
Fixpoint list_pop {A} (l : list A) : option (list A * A) :=
  match l with
  | [] => None
  | x :: l' =>
      match list_pop l' with
      | None => Some ([], x)
      | Some (r, y) => Some (x :: r, y)
      end
  end.

(** [l[-1]] *)
Definition list_last {A} (l : list A) : result A :=
  match list_pop l with
  | Some (_, y) => Return y
  | None => Raise IndexError
  end.

(** ** The class [Graph] *)

(** A stored weight is a number or [None]; a neighbor list holds
    [(neighbor, weight)] pairs. *)
Local Abbreviation Neighbors := (list (V * Weight)) (only parsing).

Record Graph : Type := mkGraph {
  adjacentList : dict Neighbors;
  directed : bool;
  weighted : bool
}.

(** [Graph.__init__] *)
Definition Graph_init (directed weighted : bool) : Graph :=
  mkGraph [] directed weighted.

Definition set_adjacentList (g : Graph) (adj : dict Neighbors) : Graph :=
  mkGraph adj (directed g) (weighted g).

Definition addVertex (g : Graph) (vertex : V) : Graph :=
  if negb (dict_mem vertex (adjacentList g))
  then set_adjacentList g (dict_set vertex [] (adjacentList g))
  else g.

(** [self.adjacentList[k].append(e)] *)
Definition adj_append (g : Graph) (k : V) (e : V * Weight)
  : Graph * result unit :=
  match dict_get k (adjacentList g) with
  | None => (g, Raise KeyError)
  | Some l => (set_adjacentList g (dict_set k (l ++ [e]) (adjacentList g)),
               Return tt)
  end.

(** [addEdge] returns the graph as the call leaves it, also when it raises. *)
Definition addEdge (g : Graph) (src dest : V) (weight : Weight)
  : Graph * result unit :=
  let g1 := if negb (dict_mem src (adjacentList g))
            then addVertex g src else g in
  let g2 := if negb (dict_mem dest (adjacentList g1))
            then addVertex g1 dest else g1 in
  if weighted g2 && match weight with None => true | Some _ => false end
  then (g2, Raise ValueError)
  else
    let weight := if negb (weighted g2) then None else weight in
    match adj_append g2 src (dest, weight) with
    | (g3, Return _) =>
        if negb (directed g3)
        then adj_append g3 dest (src, weight)
        else (g3, Return tt)
    | (g3, r) => (g3, r)
    end.

Definition getVertices (g : Graph) : list V := dict_keys (adjacentList g).

Definition getNeighbors (g : Graph) (vertex : V) : result Neighbors :=
  dict_index vertex (adjacentList g).

(** The [for] loop of [getWeight]; falling off its end returns [None]. *)
Fixpoint getWeight_scan (dest : V) (l : Neighbors) : Weight :=
  match l with
  | [] => None
  | (neighbor, weight) :: l' =>
      if key_eqb neighbor dest then weight else getWeight_scan dest l'
  end.

Definition getWeight (g : Graph) (src dest : V) : result Weight :=
  l <- dict_index src (adjacentList g) ;;
  Return (getWeight_scan dest l).

(** Graphs a client can hold: made by [Graph(directed, weighted)] and then
    changed by [addVertex] and [addEdge] only (a raising [addEdge] included,
    since the object survives the exception). *)
Inductive built : Graph -> Prop :=
| built_init d w : built (Graph_init d w)
| built_addVertex g v : built g -> built (addVertex g v)
| built_addEdge g src dest weight :
    built g -> built (fst (addEdge g src dest weight)).


(** Number of stored adjacency entries; the loops below are cut after a
    number of rounds computed from it. *)
Definition edge_count (g : Graph) : nat :=
  length (concat (map snd (adjacentList g))).

(** ** BFS *)

(** [for neighbor, weight in ...: queue.append(neighbor)] *)
Fixpoint bfs_enqueue (queue : list V) (l : Neighbors) : list V :=
  match l with
  | [] => queue
  | (neighbor, _) :: l' => bfs_enqueue (queue ++ [neighbor]) l'
  end.

Fixpoint bfs_loop (fuel : nat) (g : Graph) (visited queue : list V)
  : result (list V) :=
  match fuel with
  | O => OutOfFuel
  | S fuel' =>
      match queue with
      | [] => Return visited
      | vertex :: queue =>
          if negb (list_mem vertex visited) then
            let visited := visited ++ [vertex] in
            l <- dict_index vertex (adjacentList g) ;;
            bfs_loop fuel' g visited (bfs_enqueue queue l)
          else bfs_loop fuel' g visited queue
      end
  end.

Definition bfs (g : Graph) (start : V) : result (list V) :=
  bfs_loop (S (S (edge_count g))) g [] [start].

(** The [for] loop shared by [bfs_shortest_path] and [dfs_shortest_path]:
    every neighbor yields a new path appended to the frontier; the loop is
    left with [inr new_path] at the first neighbor equal to [end_]. *)
Fixpoint extend_paths (path : list V) (end_ : V) (frontier : list (list V))
  (l : Neighbors) : list (list V) + list V :=
  match l with
  | [] => inl frontier
  | (neighbor, _) :: l' =>
      let new_path := path ++ [neighbor] in
      let frontier := frontier ++ [new_path] in
      if key_eqb neighbor end_ then inr new_path
      else extend_paths path end_ frontier l'
  end.

(** Python's implicit [return None] is [Return None]. *)
Fixpoint bfs_shortest_path_loop (fuel : nat) (g : Graph) (end_ : V)
  (visited : list V) (queue : list (list V)) : result (option (list V)) :=
  match fuel with
  | O => OutOfFuel
  | S fuel' =>
      match queue with
      | [] => Return None
      | path :: queue =>
          vertex <- list_last path ;;
          if negb (list_mem vertex visited) then
            let visited := visited ++ [vertex] in
            l <- dict_index vertex (adjacentList g) ;;
            match extend_paths path end_ queue l with
            | inr new_path => Return (Some new_path)
            | inl queue => bfs_shortest_path_loop fuel' g end_ visited queue
            end
          else bfs_shortest_path_loop fuel' g end_ visited queue
      end
  end.

Definition bfs_shortest_path (g : Graph) (start end_ : V)
  : result (option (list V)) :=
  bfs_shortest_path_loop (S (S (edge_count g))) g end_ [] [[start]].

(** ** DFS *)

(** The [for] loop of [dfs]; [path] is the predecessor dict, whose value
    [None] is the sentinel stored for [start]. *)
Fixpoint dfs_push (avoid vertex : V) (path : dict (option V))
  (stack : list V) (l : Neighbors) : dict (option V) * list V :=
  match l with
  | [] => (path, stack)
  | (neighbor, _) :: l' =>
      if key_eqb neighbor avoid then dfs_push avoid vertex path stack l'
      else if negb (dict_mem neighbor path) then
        dfs_push avoid vertex (dict_set neighbor (Some vertex) path)
          (stack ++ [neighbor]) l'
      else dfs_push avoid vertex path stack l'
  end.

Fixpoint dfs_loop (fuel : nat) (g : Graph) (end_ avoid : V)
  (path : dict (option V)) (stack : list V) : result (dict (option V)) :=
  match fuel with
  | O => OutOfFuel
  | S fuel' =>
      match list_pop stack with
      | None => Return path
      | Some (stack, vertex) =>
          if key_eqb vertex end_ then Return path
          else
            l <- dict_index vertex (adjacentList g) ;;
            let '(path, stack) := dfs_push avoid vertex path stack l in
            dfs_loop fuel' g end_ avoid path stack
      end
  end.

(** [while current != start: current = path[current]; route.append(current)].
    Were the sentinel [None] read, the next round would index the dict with
    it and raise. *)
Fixpoint dfs_route (fuel : nat) (start : V) (path : dict (option V))
  (current : V) (route : list V) : result (list V) :=
  match fuel with
  | O => OutOfFuel
  | S fuel' =>
      if negb (key_eqb current start) then
        p <- dict_index current path ;;
        match p with
        | Some current => dfs_route fuel' start path current (route ++ [current])
        | None => Raise KeyError
        end
      else Return route
  end.

Definition dfs (g : Graph) (start end_ avoid : V) : result (list V) :=
  path <- dfs_loop (S (S (length (adjacentList g) + edge_count g))) g end_ avoid
            [(start, None)] [start] ;;
  if negb (dict_mem end_ path) then Return []
  else
    route <- dfs_route (S (length path)) start path end_ [end_] ;;
    Return (rev route).

Fixpoint dfs_shortest_path_loop (fuel : nat) (g : Graph) (end_ : V)
  (visited : list V) (stack : list (list V)) : result (option (list V)) :=
  match fuel with
  | O => OutOfFuel
  | S fuel' =>
      match list_pop stack with
      | None => Return None
      | Some (stack, path) =>
          vertex <- list_last path ;;
          if negb (list_mem vertex visited) then
            let visited := visited ++ [vertex] in
            l <- dict_index vertex (adjacentList g) ;;
            match extend_paths path end_ stack l with
            | inr new_path => Return (Some new_path)
            | inl stack => dfs_shortest_path_loop fuel' g end_ visited stack
            end
          else dfs_shortest_path_loop fuel' g end_ visited stack
      end
  end.

Definition dfs_shortest_path (g : Graph) (start end_ : V)
  : result (option (list V)) :=
  dfs_shortest_path_loop (S (S (edge_count g))) g end_ [] [[start]].

(** ** Dijkstra *)

(** Distances are Python ints or [float("inf")]. *)
Inductive Dist : Type :=
| Fin (d : Z)
| Inf.

(** An int converts to a float when it rounds to a double: its magnitude is
    below [2**1024 - 2**970], half way between the largest double and
    [2**1024]. *)
Definition fits_float (w : Z) : bool := Z.ltb (Z.abs w) (2 ^ 1024 - 2 ^ 970).

(** The number [d + w]. *)
Definition dist_plus (d : Dist) (w : Z) : Dist :=
  match d with
  | Fin a => Fin (a + w)
  | Inf => Inf
  end.

(** [distances[current] + weight] for an int [weight].  The sum of two ints
    is exact.  Adding an int to [float("inf")] converts the int to a float
    first, which raises [OverflowError] when the int does not fit. *)
Definition dist_add (d : Dist) (w : Z) : result Dist :=
  match d with
  | Fin a => Return (Fin (a + w))
  | Inf => if fits_float w then Return Inf else Raise OverflowError
  end.

Definition dist_ltb (a b : Dist) : bool :=
  match a, b with
  | Fin x, Fin y => Z.ltb x y
  | Fin _, Inf => true
  | Inf, _ => false
  end.

Definition dist_eqb (a b : Dist) : bool :=
  match a, b with
  | Fin x, Fin y => Z.eqb x y
  | Inf, Inf => true
  | _, _ => false
  end.

(** A heap entry is the Python list [[distance, vertex]]; [<] on such lists
    is decided by the first position where they differ. *)
Definition entry : Type := Dist * V.

Definition entry_ltb (a b : entry) : bool :=
  if negb (dist_eqb (fst a) (fst b)) then dist_ltb (fst a) (fst b)
  else if negb (key_eqb (snd a) (snd b)) then key_ltb (snd a) (snd b)
  else false.

(** [heapq] is Python's library, taken by its contract: the heap is kept as
    the list of its entries, [heappop] removes and returns a least entry
    (the entries of [dijkstra] hold distinct vertices, so there is one),
    [heappush] adds an entry and [heapify] keeps the entries. *)
Definition heappush (queue : list entry) (e : entry) : list entry :=
  queue ++ [e].

Fixpoint heappop (queue : list entry) : option (entry * list entry) :=
  match queue with
  | [] => None
  | e :: l =>
      match heappop l with
      | None => Some (e, [])
      | Some (m, rest) =>
          if entry_ltb m e then Some (m, e :: rest) else Some (e, l)
      end
  end.

Definition heapify (queue : list entry) : list entry := queue.

(** The first [for] loop of [dijkstra]. *)
Fixpoint dijkstra_init (start : V) (keys : list V)
  (distances : dict Dist) (previous : dict (option V)) (queue : list entry)
  : dict Dist * dict (option V) * list entry :=
  match keys with
  | [] => (distances, previous, queue)
  | vertex :: keys' =>
      if key_eqb vertex start then
        dijkstra_init start keys' (dict_set vertex (Fin 0) distances)
          (dict_set vertex None previous) (heappush queue (Fin 0, vertex))
      else
        dijkstra_init start keys' (dict_set vertex Inf distances)
          (dict_set vertex None previous) (heappush queue (Inf, vertex))
  end.

(** [for i in range(len(queue)): if queue[i][1] == neighbor: ...; break] *)
Fixpoint queue_update (neighbor : V) (alternative : Dist)
  (queue : list entry) : list entry :=
  match queue with
  | [] => []
  | (d, v) :: queue' =>
      if key_eqb v neighbor then (alternative, v) :: queue'
      else (d, v) :: queue_update neighbor alternative queue'
  end.

(** The relaxation loop over the neighbors of [current]; adding the weight
    [None] of an unweighted edge to a number raises [TypeError], and adding
    an int that fits no float to [float("inf")] raises [OverflowError]. *)
Fixpoint dijkstra_relax (current : V) (l : Neighbors)
  (distances : dict Dist) (previous : dict (option V)) (queue : list entry)
  : result (dict Dist * dict (option V) * list entry) :=
  match l with
  | [] => Return (distances, previous, queue)
  | (neighbor, weight) :: l' =>
      dcur <- dict_index current distances ;;
      alternative <- match weight with
                     | Some w => dist_add dcur w
                     | None => Raise TypeError
                     end ;;
      dn <- dict_index neighbor distances ;;
      if dist_ltb alternative dn then
        dijkstra_relax current l' (dict_set neighbor alternative distances)
          (dict_set neighbor (Some current) previous)
          (heapify (queue_update neighbor alternative queue))
      else dijkstra_relax current l' distances previous queue
  end.

(** [while previous[current]: path.append(current); current = previous[current]]:
    the loop goes on while the predecessor is a true value. *)
Fixpoint dijkstra_walk (fuel : nat) (previous : dict (option V))
  (current : V) (path : list V) : result (list V) :=
  match fuel with
  | O => OutOfFuel
  | S fuel' =>
      p <- dict_index current previous ;;
      match p with
      | Some p' =>
          if truthy p' then dijkstra_walk fuel' previous p' (path ++ [current])
          else Return path
      | None => Return path
      end
  end.

Fixpoint dijkstra_loop (fuel : nat) (g : Graph) (end_ : V)
  (distances : dict Dist) (previous : dict (option V)) (queue : list entry)
  (path : list V) : result (list V) :=
  match fuel with
  | O => OutOfFuel
  | S fuel' =>
      match heappop queue with
      | None => Return path
      | Some ((_, current), queue) =>
          if key_eqb current end_ then
            dijkstra_walk (S (length previous)) previous current path
          else if dict_mem current (adjacentList g) then
            l <- dict_index current (adjacentList g) ;;
            st <- dijkstra_relax current l distances previous queue ;;
            let '(distances, previous, queue) := st in
            dijkstra_loop fuel' g end_ distances previous queue path
          else dijkstra_loop fuel' g end_ distances previous queue path
      end
  end.

Definition dijkstra (g : Graph) (start end_ : V) : result (list V) :=
  let '(distances, previous, queue) :=
    dijkstra_init start (dict_keys (adjacentList g)) [] [] [] in
  path <- dijkstra_loop (S (length queue)) g end_ distances previous queue [] ;;
  Return (start :: rev path).

(** ** Paths of a graph *)

(** [edgeb g u v]: some stored entry of [u] names [v]. *)
Definition edgeb (g : Graph) (u v : V) : bool :=
  match dict_get u (adjacentList g) with
  | Some l => existsb (fun e => key_eqb (fst e) v) l
  | None => false
  end.

(** Consecutive vertices of [p] are joined by stored edges. *)
Fixpoint walkb (g : Graph) (p : list V) : bool :=
  match p with
  | [] => false
  | u :: p' =>
      match p' with
      | [] => true
      | v :: _ => edgeb g u v && walkb g p'
      end
  end.

(** [p] is a path of [g] from [start] to [end_] (vertices may repeat). *)
Definition is_path (g : Graph) (start end_ : V) (p : list V) : Prop :=
  hd_error p = Some start /\ list_last p = Return end_ /\ walkb g p = true.

(** Number of edges along a path given by its vertices. *)
Definition edges_of (p : list V) : nat := length p - 1.

(** The stored neighbor list of [v]; empty when [v] is not a vertex. *)
Definition stored_neighbors (g : Graph) (v : V) : Neighbors :=
  match dict_get v (adjacentList g) with
  | Some l => l
  | None => []
  end.

(** The weight [addEdge] stores for a supplied [weight]. *)
Definition stored_weight (g : Graph) (weight : Weight) : Weight :=
  if weighted g then weight else None.

(** The class invariant of built graphs. *)
Definition wf (g : Graph) : Prop :=
  NoDup (dict_keys (adjacentList g)) /\
  (forall u l v w, In (u, l) (adjacentList g) -> In (v, w) l ->
                   In v (dict_keys (adjacentList g))) /\
  (forall u l v w, In (u, l) (adjacentList g) -> In (v, w) l ->
                   (w = None <-> weighted g = false)).

(** ** Invariants of the loops *)

(** Some path from [start] to [v], and one with at least one edge. *)
Definition reachable (g : Graph) (start v : V) : Prop :=
  exists p, is_path g start v p.

Definition reachable1 (g : Graph) (start v : V) : Prop :=
  exists p, is_path g start v p /\ 2 <= length p.

(** What the main loop of [dijkstra] keeps: every vertex has a distance and
    a predecessor entry, queued vertices are vertices of the graph, a finite
    distance or a predecessor is only held by a vertex reached from
    [start]. *)
Definition dijkstra_inv (g : Graph) (start : V) (distances : dict Dist)
  (previous : dict (option V)) (queue : list entry) : Prop :=
  (forall v, In v (getVertices g) -> dict_mem v distances = true) /\
  (forall v, In v (getVertices g) -> dict_mem v previous = true) /\
  (forall e, In e queue -> In (snd e) (getVertices g)) /\
  (forall v d, dict_get v distances = Some (Fin d) -> reachable g start v) /\
  (forall v u, dict_get v previous = Some (Some u) -> reachable1 g start v).

(** Some path from [start] to [v] that does not pass through [avoid]. *)
Definition reachable_avoiding (g : Graph) (start avoid v : V) : Prop :=
  exists p, is_path g start v p /\ ~ In avoid p.

(** What the main loop of [dfs] keeps: a discovered vertex is reached by a
    path that avoids [avoid]; stacked vertices are discovered vertices of the
    graph. *)
Definition dfs_inv (g : Graph) (start avoid : V) (path : dict (option V))
  (stack : list V) : Prop :=
  (forall k, dict_mem k path = true -> reachable_avoiding g start avoid k) /\
  (forall v, In v stack -> In v (getVertices g) /\ dict_mem v path = true).

(** Stacked vertices plus vertices not discovered yet: it decreases at every
    round of the main loop of [dfs]. *)
Definition dfs_measure (g : Graph) (path : dict (option V)) (stack : list V)
  : nat :=
  length stack
  + length (filter (fun v => negb (dict_mem v path)) (getVertices g)).

(** What the main loop of [bfs_shortest_path] keeps while the paths at the
    front of the queue have [k] edges: the queue holds paths from [start]
    with [k] edges followed by paths with [k + 1] edges; every vertex
    reached with fewer than [k] edges is visited, every vertex reached with
    [k] edges is visited or ends a queued path with [k] edges; the neighbors
    of visited vertices are visited or queued; no visited vertex has an edge
    to [end_]. *)
Record bfs_inv (g : Graph) (start end_ : V) (k : nat) (visited : list V)
  (queue : list (list V)) : Prop := {
  bfs_levels :
    exists qa qb, queue = qa ++ qb /\
      (forall p, In p qa -> length p = S k) /\
      (forall p, In p qb -> length p = S (S k));
  bfs_paths :
    forall p, In p queue ->
      exists v, is_path g start v p /\ In v (getVertices g);
  bfs_start :
    In start visited \/ exists p, In p queue /\ list_last p = Return start;
  bfs_below :
    forall w q, is_path g start w q -> length q <= k -> In w visited;
  bfs_level :
    forall w q, is_path g start w q -> length q = S k ->
      In w visited \/
      exists p, In p queue /\ list_last p = Return w /\ length p = S k;
  bfs_closed :
    forall v n, In v visited -> edgeb g v n = true ->
      In n visited \/ exists p, In p queue /\ list_last p = Return n;
  bfs_not_found :
    forall v, In v visited -> edgeb g v end_ = false
}.

(** Stored entries of the vertices not visited yet; with the length of the
    queue it decreases at every round of [bfs_shortest_path]. *)
Definition unvisited_edges (adj : dict (list (V * Weight))) (visited : list V)
  : nat :=
  length (concat (map snd
    (filter (fun e => negb (list_mem (fst e) visited)) adj))).

(** What [bfs_shortest_path] hands back: a path from [start] to [end_] with
    at least one edge and no more edges than any other such path, or [None]
    when there is no such path. *)
Definition shortest_or_none (g : Graph) (start end_ : V)
  (r : result (option (list V))) : Prop :=
  match r with
  | Return (Some p) =>
      is_path g start end_ p /\ 2 <= length p /\
      (forall q, is_path g start end_ q -> 2 <= length q -> length p <= length q)
  | Return None => ~ reachable1 g start end_
  | _ => False
  end.

(** ** Cost of a path *)

(** The least weight among the stored entries of [l] that name [v]; [None]
    when there is none (or an entry without a weight). *)
Fixpoint least_weight (v : V) (l : list (V * Weight)) : option Z :=
  match l with
  | [] => None
  | (n, w) :: l' =>
      if key_eqb n v then
        match w, least_weight v l' with
        | Some a, Some b => Some (Z.min a b)
        | Some a, None => Some a
        | None, _ => None
        end
      else least_weight v l'
  end.

Definition edge_weight (g : Graph) (u v : V) : option Z :=
  match dict_get u (adjacentList g) with
  | Some l => least_weight v l
  | None => None
  end.

(** Sum of the edge weights along the vertices of [p]. *)
Fixpoint path_cost (g : Graph) (p : list V) : option Z :=
  match p with
  | [] => None
  | u :: p' =>
      match p' with
      | [] => Some 0%Z
      | v :: _ =>
          match edge_weight g u v, path_cost g p' with
          | Some w, Some c => Some (w + c)%Z
          | _, _ => None
          end
      end
  end.

(** ** Shortest distances: what [dijkstra] computes on a weighted graph *)

Definition dist_le (a b : Dist) : bool := negb (dist_ltb b a).

(** Every stored weight is non-negative. *)
Definition nonneg_weights (g : Graph) : Prop :=
  forall u v w, In (v, Some w) (stored_neighbors g u) -> (0 <= w)%Z.

Definition nonneg_weightsb (g : Graph) : bool :=
  forallb (fun e : V * list (V * Weight) =>
             forallb (fun nw : V * Weight =>
                        match snd nw with
                        | Some w => Z.leb 0 w
                        | None => true
                        end) (snd e))
    (adjacentList g).

(** Every stored weight converts to a float. *)
Definition float_weights (g : Graph) : Prop :=
  forall u v w, In (v, Some w) (stored_neighbors g u) -> fits_float w = true.

Definition float_weightsb (g : Graph) : bool :=
  forallb (fun e : V * list (V * Weight) =>
             forallb (fun nw : V * Weight =>
                        match snd nw with
                        | Some w => fits_float w
                        | None => true
                        end) (snd e))
    (adjacentList g).

(** [wpath g start v c]: stored edges lead from [start] to [v], and their
    weights add up to [c]. *)
Inductive wpath (g : Graph) (start : V) : V -> Z -> Prop :=
| wpath_start : wpath g start start 0%Z
| wpath_step u v c w :
    wpath g start u c -> In (v, Some w) (stored_neighbors g u) ->
    wpath g start v (c + w)%Z.

(** [ptree start previous v r]: [r] lists the vertices from [start] to [v]
    along the predecessor dict. *)
Inductive ptree (start : V) (previous : dict (option V))
  : V -> list V -> Prop :=
| ptree_start :
    dict_get start previous = Some None -> ptree start previous start [start]
| ptree_step u v r :
    ptree start previous u r -> dict_get v previous = Some (Some u) ->
    ptree start previous v (r ++ [v]).

(** Edges out of popped vertices. *)
Definition relaxed_all (g : Graph) (done : list V) (v n : V) (w : Z) : Prop :=
  In v done /\ In (n, Some w) (stored_neighbors g v).

(** What the main loop of [dijkstra] keeps on a weighted graph with
    non-negative weights.  [done] lists the popped vertices in the order of
    their pops and [R] holds the edges relaxed so far. *)
Record dijkstra_full (g : Graph) (start : V) (done : list V)
  (R : V -> V -> Z -> Prop) (distances : dict Dist)
  (previous : dict (option V)) (queue : list entry) : Prop := {
  dj_dist_keys :
    forall v, In v (getVertices g) -> exists d, dict_get v distances = Some d;
  dj_prev_keys :
    forall v, In v (getVertices g) -> exists p, dict_get v previous = Some p;
  dj_prev_length : length (getVertices g) <= length previous;
  dj_queue :
    forall d v, In (d, v) queue ->
      In v (getVertices g) /\ dict_get v distances = Some d;
  dj_queue_nodup : NoDup (map snd queue);
  dj_done :
    forall v, In v (getVertices g) -> In v done \/ In v (map snd queue);
  dj_done_known :
    forall v, In v done -> In v (getVertices g) /\ ~ In v (map snd queue);
  dj_sound :
    forall v d, dict_get v distances = Some (Fin d) -> wpath g start v d;
  dj_done_le :
    forall v d e, In v done -> dict_get v distances = Some d -> In e queue ->
      dist_le d (fst e) = true;
  dj_relaxed :
    forall v n w dv, R v n w -> dict_get v distances = Some dv ->
      exists dn, dict_get n distances = Some dn /\
                 dist_le dn (dist_plus dv w) = true;
  dj_relaxed_done : forall v n w, R v n w -> In v done;
  dj_start :
    dict_get start distances = Some (Fin 0) /\
    dict_get start previous = Some None;
  dj_pred :
    forall v u, dict_get v previous = Some (Some u) ->
      In u done /\
      exists du w, dict_get u distances = Some (Fin du) /\
                   In (v, Some w) (stored_neighbors g u) /\
                   dict_get v distances = Some (Fin (du + w));
  dj_root :
    forall v d, dict_get v distances = Some (Fin d) ->
      dict_get v previous = Some None -> v = start;
  dj_tree :
    forall v d, In v done -> dict_get v distances = Some (Fin d) ->
      exists r, ptree start previous v r /\ incl r done /\ NoDup r
}.

(** The predecessor dict of [dfs] is a tree rooted at [start]: every entry
    follows a stored edge, and every discovered vertex, none of them
    [avoid], is joined to [start] along the dict without repetition. *)
Definition dfs_tree (g : Graph) (start avoid : V) (path : dict (option V))
  : Prop :=
  dict_get start path = Some None /\
  (forall v u, dict_get v path = Some (Some u) -> edgeb g u v = true) /\
  (forall k, dict_mem k path = true ->
     k <> avoid /\
     exists r, ptree start path k r /\ NoDup r /\
               forall y, In y r -> dict_mem y path = true).

(** ** Invariants of the traversals beyond the claims *)

(** What the loop of [bfs] keeps: no vertex is visited twice; visited and
    queued vertices are vertices reached from [start]; [start] comes first;
    the neighbors of visited vertices are visited or queued. *)
Record bfs_visit_inv (g : Graph) (start : V) (visited queue : list V)
  : Prop := {
  bv_nodup : NoDup visited;
  bv_reach :
    forall v, In v (visited ++ queue) ->
      reachable g start v /\ In v (getVertices g);
  bv_head : hd_error (visited ++ queue) = Some start;
  bv_closed :
    forall v n, In v visited -> edgeb g v n = true ->
      In n visited \/ In n queue
}.

(** What the loop of [dfs_shortest_path] keeps: stacked paths start at
    [start] and end at vertices of the graph; [start] is visited or ends a
    stacked path; the neighbors of visited vertices are visited or end a
    stacked path; no visited vertex has an edge to [end_]. *)
Record search_inv (g : Graph) (start end_ : V) (visited : list V)
  (frontier : list (list V)) : Prop := {
  si_paths :
    forall p, In p frontier ->
      exists v, is_path g start v p /\ In v (getVertices g);
  si_start :
    In start visited \/ exists p, In p frontier /\ list_last p = Return start;
  si_closed :
    forall v n, In v visited -> edgeb g v n = true ->
      In n visited \/ exists p, In p frontier /\ list_last p = Return n;
  si_not_found :
    forall v, In v visited -> edgeb g v end_ = false
}.

(** What the loop of [dfs] keeps besides [dfs_inv]: a discovered vertex is
    still stacked, or all its neighbors other than [avoid] are discovered. *)
Definition dfs_closed (g : Graph) (avoid : V) (path : dict (option V))
  (stack : list V) : Prop :=
  forall k, dict_mem k path = true ->
    In k stack \/
    forall n, edgeb g k n = true -> n <> avoid -> dict_mem n path = true.

End Graph_ADT.

Arguments bfs_levels {V H g start end_ k visited queue}.
Arguments bfs_paths {V H g start end_ k visited queue}.
Arguments bfs_start {V H g start end_ k visited queue}.
Arguments bfs_below {V H g start end_ k visited queue}.
Arguments bfs_level {V H g start end_ k visited queue}.
Arguments bfs_closed {V H g start end_ k visited queue}.
Arguments bfs_not_found {V H g start end_ k visited queue}.

Arguments bv_nodup {V H g start visited queue}.
Arguments bv_reach {V H g start visited queue}.
Arguments bv_head {V H g start visited queue}.
Arguments bv_closed {V H g start visited queue}.
Arguments si_paths {V H g start end_ visited frontier}.
Arguments si_start {V H g start end_ visited frontier}.
Arguments si_closed {V H g start end_ visited frontier}.
Arguments si_not_found {V H g start end_ visited frontier}.

Arguments dj_dist_keys {V H g start done R distances previous queue}.
Arguments dj_prev_keys {V H g start done R distances previous queue}.
Arguments dj_prev_length {V H g start done R distances previous queue}.
Arguments dj_queue {V H g start done R distances previous queue}.
Arguments dj_queue_nodup {V H g start done R distances previous queue}.
Arguments dj_done {V H g start done R distances previous queue}.
Arguments dj_done_known {V H g start done R distances previous queue}.
Arguments dj_sound {V H g start done R distances previous queue}.
Arguments dj_done_le {V H g start done R distances previous queue}.
Arguments dj_relaxed {V H g start done R distances previous queue}.
Arguments dj_relaxed_done {V H g start done R distances previous queue}.
Arguments dj_start {V H g start done R distances previous queue}.
Arguments dj_pred {V H g start done R distances previous queue}.
Arguments dj_root {V H g start done R distances previous queue}.
Arguments dj_tree {V H g start done R distances previous queue}.

(** * [Graph.__str__] *)

(** [f"{v}"], as the f-strings of [__str__] format a vertex or a weight.
    Formatting can raise: CPython refuses to render an int of more decimal
    digits than [sys.get_int_max_str_digits()] and raises [ValueError].  The
    limit is the first argument: it is 4300 unless the interpreter is set up
    otherwise, the interpreter accepts 0 (no limit) and values from 640, and
    an interpreter older than the limit behaves as with 0. *)
Class PyStr (V : Type) := { py_str : nat -> V -> result string }.

(** The decimal digits of a Python int, with a minus sign if negative. *)
Definition int_repr (n : Z) : string :=
  DecimalString.NilZero.string_of_int (Z.to_int n).

(** [str] of a Python int, under the limit on its number of digits. *)
Definition int_str (max_str_digits : nat) (n : Z) : result string :=
  if Nat.ltb 0 max_str_digits
     && Nat.ltb max_str_digits (String.length (int_repr (Z.abs n)))
  then Raise ValueError
  else Return (int_repr n).

#[export] Instance PyStr_int : PyStr Z := { py_str := int_str }.

#[export] Instance PyStr_str : PyStr string :=
  { py_str := fun _ s => Return s }.

Section Graph_str.

Context {V : Type} `{PyKey V} `{PyStr V}.

(** [sys.get_int_max_str_digits()] of the interpreter that runs the code. *)
Variable max_str_digits : nat.

Local Open Scope string_scope.

Definition newline : string := String (Ascii.ascii_of_nat 10) EmptyString.

(** One element of [neighbors]: [f"[{neighbor}] [{weight}]"] when the weight
    is not [None], else [f"[{neighbor}]"]. *)
Definition neighbor_str (e : V * Weight) : result string :=
  match snd e with
  | Some weight =>
      neighbor <- py_str max_str_digits (fst e) ;;
      weight <- int_str max_str_digits weight ;;
      Return ("[" ++ neighbor ++ "] [" ++ weight ++ "]")
  | None =>
      neighbor <- py_str max_str_digits (fst e) ;;
      Return ("[" ++ neighbor ++ "]")
  end.

(** The inner loop, which appends one element to [neighbors] per entry. *)
Fixpoint neighbors_loop (l : list (V * Weight)) (neighbors : list string)
  : result (list string) :=
  match l with
  | nil => Return neighbors
  | cons e l' =>
      s <- neighbor_str e ;;
      neighbors_loop l' (neighbors ++ cons s nil)%list
  end.

Fixpoint Graph_str_loop (g : Graph) (keys : list V) (result_ : string)
  : result string :=
  match keys with
  | nil => Return result_
  | cons vertex keys' =>
      v <- py_str max_str_digits vertex ;;
      let result_ := result_ ++ "[" ++ v ++ "] -----> " in
      l <- dict_index vertex (adjacentList g) ;;
      neighbors <- neighbors_loop l nil ;;
      let result_ := result_ ++ String.concat ", " neighbors in
      let result_ := result_ ++ newline in
      Graph_str_loop g keys' result_
  end.

(** [Graph.__str__] *)
Definition Graph_str (g : Graph) : result string :=
  Graph_str_loop g (dict_keys (adjacentList g)) "".

(** What one round of the outer loop adds to [result] for a vertex whose
    stored entries are [l]. *)
Definition vertex_line (vertex : V) (l : list (V * Weight)) : result string :=
  v <- py_str max_str_digits vertex ;;
  neighbors <- neighbors_loop l nil ;;
  Return ("[" ++ v ++ "] -----> " ++ String.concat ", " neighbors ++ newline).

(** The lines of the vertices [keys], one after the other. *)
Fixpoint lines_of (g : Graph) (keys : list V) : result string :=
  match keys with
  | nil => Return ""
  | cons v keys' =>
      line <- vertex_line v (stored_neighbors g v) ;;
      rest <- lines_of g keys' ;;
      Return (line ++ rest)
  end.

End Graph_str.

(** * Example graphs *)

Module Examples.

Open Scope string_scope.
Open Scope Z_scope.

Definition run_edges {V} `{PyKey V} (g : Graph) (es : list (V * V * Weight))
  : Graph :=
  fold_left (fun g e => fst (addEdge g (fst (fst e)) (snd (fst e)) (snd e)))
    es g.

(** Directed, weighted: A->B(1), B->C(2), A->C(10). *)
Definition g_abc : Graph :=
  run_edges (Graph_init true true)
    [("A", "B", Some 1); ("B", "C", Some 2); ("A", "C", Some 10)].

(** Directed, weighted, over ints: 1->0(1), 0->2(1), 2->3(1), 1->3(100). *)
Definition g_zero : Graph :=
  run_edges (Graph_init true true)
    [(1, 0, Some 1); (0, 2, Some 1); (2, 3, Some 1); (1, 3, Some 100)].

(** Directed, unweighted: 1->2, 2->3. *)
Definition g_chain : Graph :=
  run_edges (Graph_init true false) [(1, 2, None); (2, 3, None)].

(** Directed, weighted: 1->2(5), and a vertex 3 on its own. *)
Definition g_apart : Graph :=
  addVertex (run_edges (Graph_init true true) [(1, 2, Some 5)]) 3.

(** Directed, unweighted, a single vertex. *)
Definition g_one : Graph := addVertex (Graph_init true false) 1.

(** Directed, unweighted two-cycle: 1->2, 2->1. *)
Definition g_cycle : Graph :=
  run_edges (Graph_init true false) [(1, 2, None); (2, 1, None)].

(** Directed, weighted: 0->1(5). *)
Definition g_from_zero : Graph :=
  run_edges (Graph_init true true) [(0, 1, Some 5)].

(** Undirected, unweighted triangle: (1,2), (2,3), (1,3). *)
Definition g_triangle : Graph :=
  run_edges (Graph_init false false) [(1, 2, None); (2, 3, None); (1, 3, None)].

(** Directed, weighted, no vertex yet. *)
Definition g_empty : Graph (V := Z) := Graph_init true true.

(** Directed, weighted: the vertex 1 on its own, and 2->3(2**1024). *)
Definition g_huge : Graph :=
  run_edges (addVertex (Graph_init true true) 1) [(2, 3, Some (2 ^ 1024))].

(** Directed, unweighted: the single vertex 10**640, of 641 digits. *)
Definition g_digits : Graph := addVertex (Graph_init true false) (10 ^ 640).

End Examples.

(** * Proofs *)

Section Graph_ADT_facts.

Context {V : Type} `{PyKey V}.

Local Abbreviation Neighbors := (list (V * Weight)) (only parsing).

Lemma key_eqb_eq (x y : V) : key_eqb x y = true <-> x = y.
Proof. destruct (key_eqb_spec x y); split; congruence. Qed.

Lemma key_eqb_neq (x y : V) : key_eqb x y = false <-> x <> y.
Proof. destruct (key_eqb_spec x y); split; congruence. Qed.

Lemma key_eqb_refl (x : V) : key_eqb x x = true.
Proof. apply key_eqb_eq; reflexivity. Qed.

Lemma key_eq_dec (x y : V) : {x = y} + {x <> y}.
Proof. destruct (key_eqb_spec x y); [left | right]; assumption. Qed.


(** ** Dicts *)

Lemma dict_get_set_same {A} (k : V) (a : A) (d : dict A) :
  dict_get k (dict_set k a d) = Some a.
Proof.
  induction d as [|[k' a'] d IH]; simpl.
  - now rewrite key_eqb_refl.
  - destruct (key_eqb k' k) eqn:E; simpl; rewrite E; auto.
Qed.

Lemma dict_get_set_other {A} (k k' : V) (a : A) (d : dict A) :
  k <> k' -> dict_get k' (dict_set k a d) = dict_get k' d.
Proof.
  intros Hne. induction d as [|[k0 a0] d IH]; simpl.
  - apply key_eqb_neq in Hne. now rewrite Hne.
  - destruct (key_eqb k0 k) eqn:E; simpl.
    + apply key_eqb_eq in E; subst k0.
      apply key_eqb_neq in Hne. now rewrite Hne.
    + now rewrite IH.
Qed.

Lemma dict_get_In {A} (k : V) (a : A) (d : dict A) :
  dict_get k d = Some a -> In (k, a) d.
Proof.
  induction d as [|[k' a'] d IH]; simpl; [discriminate|].
  destruct (key_eqb_spec k' k) as [->|Hne].
  - intros [= ->]. now left.
  - intros Hg. right. auto.
Qed.

Lemma dict_get_None {A} (k : V) (d : dict A) :
  dict_get k d = None <-> ~ In k (dict_keys d).
Proof.
  induction d as [|[k' a'] d IH]; simpl.
  - tauto.
  - destruct (key_eqb_spec k' k) as [->|Hne]; split.
    + discriminate.
    + intros Hn. exfalso. apply Hn. now left.
    + intros Hg [Heq|Hin]; [congruence|]. now apply IH in Hg.
    + intros Hn. apply IH. tauto.
Qed.

Lemma dict_mem_In {A} (k : V) (d : dict A) :
  dict_mem k d = true <-> In k (dict_keys d).
Proof.
  unfold dict_mem. destruct (dict_get k d) eqn:E.
  - split; auto. intros _. apply dict_get_In in E.
    apply (in_map fst) in E. exact E.
  - apply dict_get_None in E. split; [discriminate | tauto].
Qed.

Lemma dict_mem_false {A} (k : V) (d : dict A) :
  dict_mem k d = false <-> ~ In k (dict_keys d).
Proof.
  rewrite <- dict_mem_In. destruct (dict_mem k d); split; congruence.
Qed.

Lemma dict_get_NoDup {A} (k : V) (a : A) (d : dict A) :
  NoDup (dict_keys d) -> In (k, a) d -> dict_get k d = Some a.
Proof.
  induction d as [|[k' a'] d IH]; simpl; [tauto|].
  intros Hnd [Heq|Hin]; inversion Hnd as [|? ? Hni Hnd']; subst.
  - injection Heq as -> ->. now rewrite key_eqb_refl.
  - destruct (key_eqb_spec k' k) as [->|Hne]; auto.
    exfalso. apply Hni. apply (in_map fst) in Hin. exact Hin.
Qed.

Lemma dict_keys_set {A} (k : V) (a : A) (d : dict A) :
  dict_keys (dict_set k a d) =
  if dict_mem k d then dict_keys d else dict_keys d ++ [k].
Proof.
  unfold dict_mem. induction d as [|[k' a'] d IH]; simpl; auto.
  destruct (key_eqb k' k) eqn:E; simpl; auto.
  rewrite IH. now destruct (dict_get k d).
Qed.

Lemma dict_set_In {A} (k : V) (a : A) (d : dict A) (u : V) (b : A) :
  In (u, b) (dict_set k a d) -> (u = k /\ b = a) \/ In (u, b) d.
Proof.
  induction d as [|[k' a'] d IH]; simpl.
  - intros [[= <- <-]|[]]. now left.
  - destruct (key_eqb_spec k' k) as [->|Hne]; simpl.
    + intros [[= <- <-]|Hin]; [now left | auto].
    + intros [[= <- <-]|Hin]; [auto|].
      destruct (IH Hin) as [?|?]; auto.
Qed.

Lemma dict_set_In_other {A} (k : V) (a : A) (d : dict A) (u : V) (b : A) :
  u <> k -> In (u, b) d -> In (u, b) (dict_set k a d).
Proof.
  intros Hne. induction d as [|[k' a'] d IH]; simpl; [tauto|].
  destruct (key_eqb_spec k' k) as [->|Hne']; simpl.
  - intros [[= <- <-]|Hin]; [congruence | auto].
  - intros [Heq|Hin]; auto.
Qed.

Lemma dict_index_Return {A} (k : V) (d : dict A) (a : A) :
  dict_index k d = Return a <-> dict_get k d = Some a.
Proof.
  unfold dict_index. destruct (dict_get k d); split; congruence.
Qed.

Lemma dict_index_unknown {A} (k : V) (d : dict A) :
  ~ In k (dict_keys d) -> dict_index k d = Raise KeyError.
Proof.
  intros Hn. apply dict_get_None in Hn. unfold dict_index. now rewrite Hn.
Qed.

Lemma list_mem_In (v : V) (l : list V) : list_mem v l = true <-> In v l.
Proof.
  unfold list_mem. rewrite existsb_exists. split.
  - intros (x & Hin & Heq). apply key_eqb_eq in Heq. now subst.
  - intros Hin. exists v. split; auto. apply key_eqb_refl.
Qed.

Lemma list_mem_false (v : V) (l : list V) : list_mem v l = false <-> ~ In v l.
Proof.
  rewrite <- list_mem_In. destruct (list_mem v l); split; congruence.
Qed.

Lemma list_pop_snoc {A} (l : list A) (x : A) : list_pop (l ++ [x]) = Some (l, x).
Proof.
  induction l as [|y l IH]; simpl; auto. now rewrite IH.
Qed.

Lemma list_pop_Some {A} (l r : list A) (x : A) :
  list_pop l = Some (r, x) <-> l = r ++ [x].
Proof.
  split.
  - revert r. induction l as [|y l IH]; simpl; [discriminate|].
    intros r. destruct (list_pop l) as [[r' z]|] eqn:E.
    + intros [= <- <-]. simpl. f_equal. now apply IH.
    + intros [= <- <-]. destruct l as [|z l]; auto.
      simpl in E. destruct (list_pop l) as [[? ?]|]; discriminate.
  - intros ->. apply list_pop_snoc.
Qed.

Lemma list_pop_None {A} (l : list A) : list_pop l = None <-> l = [].
Proof.
  destruct l as [|y l]; simpl; [tauto|].
  destruct (list_pop l) as [[? ?]|]; split; discriminate.
Qed.

Lemma list_last_snoc {A} (l : list A) (x : A) : list_last (l ++ [x]) = Return x.
Proof. unfold list_last. now rewrite list_pop_snoc. Qed.

Lemma list_last_Return {A} (l : list A) (x : A) :
  list_last l = Return x <-> exists r, l = r ++ [x].
Proof.
  unfold list_last. destruct (list_pop l) as [[r y]|] eqn:E.
  - apply list_pop_Some in E. subst. split.
    + intros [= ->]. now exists r.
    + intros (r' & Heq). apply app_inj_tail in Heq. now destruct Heq as [_ ->].
  - apply list_pop_None in E. subst. split; [discriminate|].
    intros (r & Heq). now destruct r.
Qed.

(** ** Mutators *)

Lemma dict_set_absent {A} (k : V) (a : A) (d : dict A) :
  dict_mem k d = false -> dict_set k a d = d ++ [(k, a)].
Proof.
  unfold dict_mem. induction d as [|[k' a'] d IH]; simpl; auto.
  destruct (key_eqb k' k); [discriminate|].
  intros Hm. now rewrite IH.
Qed.

Lemma addVertex_flags (g : Graph) (v : V) :
  directed (addVertex g v) = directed g /\ weighted (addVertex g v) = weighted g.
Proof. unfold addVertex. now destruct (dict_mem v (adjacentList g)). Qed.

Lemma addVertex_guard (g : Graph) (v : V) :
  (if negb (dict_mem v (adjacentList g)) then addVertex g v else g)
  = addVertex g v.
Proof. unfold addVertex. now destruct (dict_mem v (adjacentList g)). Qed.

Lemma addVertex_adj (g : Graph) (v : V) :
  adjacentList (addVertex g v) =
  if dict_mem v (adjacentList g) then adjacentList g
  else adjacentList g ++ [(v, [])].
Proof.
  unfold addVertex. destruct (dict_mem v (adjacentList g)) eqn:E; simpl; auto.
  now apply dict_set_absent.
Qed.

Lemma addVertex_keys (g : Graph) (v : V) :
  getVertices (addVertex g v) =
  if dict_mem v (adjacentList g) then getVertices g else getVertices g ++ [v].
Proof.
  unfold getVertices, dict_keys. rewrite addVertex_adj.
  destruct (dict_mem v (adjacentList g)); auto.
  now rewrite map_app.
Qed.

Lemma addVertex_known (g : Graph) (v : V) : In v (getVertices (addVertex g v)).
Proof.
  rewrite addVertex_keys. destruct (dict_mem v (adjacentList g)) eqn:E.
  - now apply dict_mem_In.
  - apply in_or_app. right. now left.
Qed.

Lemma addVertex_keeps (g : Graph) (v u : V) :
  In u (getVertices g) -> In u (getVertices (addVertex g v)).
Proof.
  rewrite addVertex_keys. destruct (dict_mem v (adjacentList g)); auto.
  intros Hin. apply in_or_app. now left.
Qed.

Lemma addVertex_In_keys (g : Graph) (v x : V) :
  In x (getVertices (addVertex g v)) <-> In x (getVertices g) \/ x = v.
Proof.
  rewrite addVertex_keys. destruct (dict_mem v (adjacentList g)) eqn:E.
  - apply dict_mem_In in E. split; [auto | intros [?| ->]; auto].
  - rewrite in_app_iff; simpl.
    split; [intros [?|[->|[]]]; auto | intros [?| ->]; auto].
Qed.

Lemma addVertex_get (g : Graph) (v u : V) :
  dict_get u (adjacentList (addVertex g v)) =
  if key_eqb v u then Some (stored_neighbors g u)
  else dict_get u (adjacentList g).
Proof.
  unfold addVertex, stored_neighbors, dict_mem.
  destruct (key_eqb_spec v u) as [->|Hne].
  - destruct (dict_get u (adjacentList g)) eqn:E; simpl; auto.
    apply dict_get_set_same.
  - destruct (dict_get v (adjacentList g)) eqn:E; simpl; auto.
    now apply dict_get_set_other.
Qed.

Lemma addVertex_stored_neighbors (g : Graph) (v u : V) :
  stored_neighbors (addVertex g v) u = stored_neighbors g u.
Proof.
  unfold stored_neighbors at 1. rewrite addVertex_get.
  destruct (key_eqb v u); auto.
Qed.

Lemma addVertex_In (g : Graph) (v u : V) (l : Neighbors) :
  In (u, l) (adjacentList (addVertex g v)) ->
  In (u, l) (adjacentList g) \/ l = [].
Proof.
  rewrite addVertex_adj. destruct (dict_mem v (adjacentList g)); auto.
  intros Hin. apply in_app_or in Hin. destruct Hin as [?|[[= <- <-]|[]]]; auto.
Qed.

(** [addEdge] spelled out: on a weighted graph without a weight the call
    stops after creating the end points; otherwise it appends to the list of
    [src], and on an undirected graph to the list of [dest] as well. *)
Lemma addEdge_unfold (g : Graph) (src dest : V) (weight : Weight) :
  let g2 := addVertex (addVertex g src) dest in
  let e1 := (dest, stored_weight g weight) in
  let e2 := (src, stored_weight g weight) in
  let g3 := set_adjacentList g2
              (dict_set src (stored_neighbors g2 src ++ [e1]) (adjacentList g2)) in
  let g4 := set_adjacentList g3
              (dict_set dest (stored_neighbors g3 dest ++ [e2]) (adjacentList g3)) in
  addEdge g src dest weight =
  if weighted g && match weight with None => true | Some _ => false end
  then (g2, Raise ValueError)
  else if directed g then (g3, Return tt) else (g4, Return tt).
Proof.
  intros g2 e1 e2 g3 g4. unfold addEdge.
  rewrite addVertex_guard. rewrite addVertex_guard. fold g2.
  assert (Hw : weighted g2 = weighted g).
  { unfold g2. destruct (addVertex_flags (addVertex g src) dest) as [_ ->].
    now destruct (addVertex_flags g src) as [_ ->]. }
  assert (Hd : directed g2 = directed g).
  { unfold g2. destruct (addVertex_flags (addVertex g src) dest) as [-> _].
    now destruct (addVertex_flags g src) as [-> _]. }
  rewrite Hw.
  destruct (weighted g && _) eqn:Hraise; auto.
  assert (Hsw : (if negb (weighted g) then None else weight)
                = stored_weight g weight).
  { unfold stored_weight. now destruct (weighted g). }
  rewrite Hsw.
  assert (Hsrc : dict_get src (adjacentList g2) = Some (stored_neighbors g2 src)).
  { unfold stored_neighbors.
    assert (Hin : In src (getVertices g2)).
    { unfold g2. apply addVertex_keeps, addVertex_known. }
    apply dict_mem_In in Hin. unfold dict_mem in Hin.
    now destruct (dict_get src (adjacentList g2)). }
  assert (H3 : adj_append g2 src (dest, stored_weight g weight)
               = (g3, Return tt)).
  { unfold adj_append. now rewrite Hsrc. }
  rewrite H3.
  change (directed g3) with (directed g2). rewrite Hd.
  destruct (directed g); simpl; auto.
  assert (Hdest : dict_get dest (adjacentList g3)
                  = Some (stored_neighbors g3 dest)).
  { unfold stored_neighbors.
    assert (Hin : In dest (dict_keys (adjacentList g3))).
    { unfold g3; simpl. rewrite dict_keys_set.
      assert (Hin2 : In dest (getVertices g2)) by (unfold g2; apply addVertex_known).
      destruct (dict_mem src (adjacentList g2)); auto.
      apply in_or_app. now left. }
    apply dict_mem_In in Hin. unfold dict_mem in Hin.
    now destruct (dict_get dest (adjacentList g3)). }
  unfold adj_append. rewrite Hdest. reflexivity.
Qed.

Lemma known_get (g : Graph) (v : V) :
  In v (getVertices g) ->
  dict_get v (adjacentList g) = Some (stored_neighbors g v).
Proof.
  intros Hin. apply dict_mem_In in Hin. unfold dict_mem in Hin.
  unfold stored_neighbors. now destruct (dict_get v (adjacentList g)).
Qed.

Lemma set_neighbors_get (g : Graph) (k u : V) (l : list (V * Weight)) :
  dict_get u (adjacentList (set_adjacentList g (dict_set k l (adjacentList g))))
  = if key_eqb k u then Some l else dict_get u (adjacentList g).
Proof.
  simpl. destruct (key_eqb_spec k u) as [->|Hne].
  - apply dict_get_set_same.
  - now apply dict_get_set_other.
Qed.

(** ** The class invariant *)

Lemma wf_init (d w : bool) : wf (V:=V) (Graph_init d w).
Proof.
  split; [constructor | split]; intros u l v w0 [].
Qed.

Lemma wf_addVertex (g : Graph) (v : V) : wf g -> wf (addVertex g v).
Proof.
  intros (Hnd & Htgt & Hwt).
  destruct (addVertex_flags g v) as [_ Hw].
  pose proof (addVertex_keys g v) as Hk. unfold getVertices in Hk.
  split; [|split].
  - rewrite Hk. destruct (dict_mem v (adjacentList g)) eqn:E; auto.
    apply dict_mem_false in E.
    apply NoDup_rev in Hnd. apply (NoDup_cons v) in Hnd.
    + apply NoDup_rev in Hnd. simpl in Hnd. now rewrite rev_involutive in Hnd.
    + now rewrite <- in_rev.
  - intros u l x w Hin Hx. apply addVertex_In in Hin.
    destruct Hin as [Hin| ->]; [|destruct Hx].
    apply (addVertex_keeps g v). unfold getVertices. eauto.
  - intros u l x w Hin Hx. rewrite Hw. apply addVertex_In in Hin.
    destruct Hin as [Hin| ->]; [|destruct Hx]. exact (Hwt u l x w Hin Hx).
Qed.

Lemma wf_set_neighbors (g : Graph) (k : V) (l : list (V * Weight)) :
  wf g -> In k (getVertices g) ->
  (forall v w, In (v, w) l ->
     In v (getVertices g) /\ (w = None <-> weighted g = false)) ->
  wf (set_adjacentList g (dict_set k l (adjacentList g))).
Proof.
  intros (Hnd & Htgt & Hwt) Hk Hl.
  assert (Hkeys : dict_keys (dict_set k l (adjacentList g))
                  = dict_keys (adjacentList g)).
  { rewrite dict_keys_set. apply dict_mem_In in Hk. now rewrite Hk. }
  unfold wf; simpl. rewrite Hkeys. split; [exact Hnd | split].
  - intros u l' v w Hin Hv. apply dict_set_In in Hin.
    destruct Hin as [[-> ->]|Hin]; [now apply (Hl v w) | eauto].
  - intros u l' v w Hin Hv. apply dict_set_In in Hin.
    destruct Hin as [[-> ->]|Hin];
      [now apply (Hl v w) | exact (Hwt u l' v w Hin Hv)].
Qed.

Lemma wf_stored_neighbors (g : Graph) (u v : V) (w : Weight) :
  wf g -> In (v, w) (stored_neighbors g u) ->
  In v (getVertices g) /\ (w = None <-> weighted g = false).
Proof.
  intros (Hnd & Htgt & Hwt). unfold stored_neighbors.
  destruct (dict_get u (adjacentList g)) as [l|] eqn:E; [|intros []].
  apply dict_get_In in E. intros Hin. split; eauto.
Qed.

Lemma wf_addEdge (g : Graph) (src dest : V) (weight : Weight) :
  wf g -> wf (fst (addEdge g src dest weight)).
Proof.
  intros Hwf. rewrite addEdge_unfold.
  set (g2 := addVertex (addVertex g src) dest).
  assert (Hwf2 : wf g2) by (unfold g2; auto using wf_addVertex).
  assert (Hw2 : weighted g2 = weighted g).
  { unfold g2. destruct (addVertex_flags (addVertex g src) dest) as [_ ->].
    now destruct (addVertex_flags g src) as [_ ->]. }
  assert (Hsrc : In src (getVertices g2))
    by (unfold g2; apply addVertex_keeps, addVertex_known).
  assert (Hdest : In dest (getVertices g2))
    by (unfold g2; apply addVertex_known).
  destruct (weighted g && _) eqn:Hraise; simpl; auto.
  assert (Hsw : stored_weight g weight = None <-> weighted g2 = false).
  { rewrite Hw2. unfold stored_weight.
    destruct (weighted g), weight; simpl in *; split; congruence. }
  set (g3 := set_adjacentList g2 _).
  assert (Hwf3 : wf g3).
  { apply wf_set_neighbors; auto.
    intros v w Hin. apply in_app_or in Hin.
    destruct Hin as [Hin|[[= <- <-]|[]]]; auto.
    now apply wf_stored_neighbors with (u := src). }
  assert (Hk3 : getVertices g3 = getVertices g2).
  { unfold g3, getVertices; simpl. rewrite dict_keys_set.
    apply dict_mem_In in Hsrc. now rewrite Hsrc. }
  destruct (directed g); simpl; auto.
  apply wf_set_neighbors; auto.
  - now rewrite Hk3.
  - intros v w Hin. apply in_app_or in Hin. rewrite Hk3.
    destruct Hin as [Hin|[[= <- <-]|[]]]; auto.
    rewrite <- Hk3. now apply wf_stored_neighbors with (u := dest).
Qed.

Lemma built_wf (g : Graph) : built g -> wf g.
Proof.
  induction 1; auto using wf_init, wf_addVertex, wf_addEdge.
Qed.

(** ** Claims on mutation and query *)

Lemma getWeight_scan_first (dest : V) (l1 l2 : list (V * Weight)) (w : Weight) :
  (forall e, In e l1 -> fst e <> dest) ->
  getWeight_scan dest (l1 ++ (dest, w) :: l2) = w.
Proof.
  induction l1 as [|[n w1] l1 IH]; simpl; intros Hno.
  - now rewrite key_eqb_refl.
  - assert (Hn : n <> dest) by (apply (Hno (n, w1)); now left).
    apply key_eqb_neq in Hn. rewrite Hn. apply IH. intros e He. apply Hno. now right.
Qed.

Lemma getWeight_scan_miss (dest : V) (l : list (V * Weight)) :
  (forall e, In e l -> fst e <> dest) -> getWeight_scan dest l = None.
Proof.
  induction l as [|[n w1] l IH]; simpl; intros Hno; auto.
  assert (Hn : n <> dest) by (apply (Hno (n, w1)); now left).
  apply key_eqb_neq in Hn. rewrite Hn. apply IH. intros e He. apply Hno. now right.
Qed.

Lemma getWeight_scan_unweighted (dest : V) (l : list (V * Weight)) :
  (forall v w, In (v, w) l -> w = None) -> getWeight_scan dest l = None.
Proof.
  induction l as [|[n w1] l IH]; simpl; intros Hno; auto.
  destruct (key_eqb n dest).
  - apply (Hno n). now left.
  - apply IH. intros v w Hin. apply (Hno v). now right.
Qed.

(** C4, as the code has it: [getWeight(src, dest)] returns the weight of the
    first entry of [src]'s neighbor list that names [dest], and [None] when
    no entry does; when [src] is not a vertex the lookup of its list raises
    [KeyError]. *)
Theorem getWeight_first_match (g : Graph) (src dest : V) :
  (forall l1 l2 w,
      getNeighbors g src = Return (l1 ++ (dest, w) :: l2) ->
      (forall e, In e l1 -> fst e <> dest) ->
      getWeight g src dest = Return w) /\
  (forall l,
      getNeighbors g src = Return l ->
      (forall e, In e l -> fst e <> dest) ->
      getWeight g src dest = Return None) /\
  (~ In src (getVertices g) -> getWeight g src dest = Raise KeyError).
Proof.
  unfold getWeight, getNeighbors. repeat split.
  - intros l1 l2 w -> Hno. simpl. now rewrite getWeight_scan_first.
  - intros l -> Hno. simpl. now rewrite getWeight_scan_miss.
  - intros Hn. now rewrite dict_index_unknown.
Qed.

(** C7: [addEdge] raises [ValueError] exactly when the graph is weighted and
    the weight is [None], and raises nothing else; in a built unweighted
    graph every stored weight is [None] and [getWeight] returns [None] for
    every vertex pair whose source is a vertex. *)
Theorem addEdge_weight_policy (g : Graph) (src dest : V) (weight : Weight) :
  (snd (addEdge g src dest weight) = Raise ValueError <->
   weighted g = true /\ weight = None) /\
  (snd (addEdge g src dest weight) <> Raise ValueError ->
   snd (addEdge g src dest weight) = Return tt) /\
  (built g -> weighted g = false ->
   (forall u l v w, In (u, l) (adjacentList g) -> In (v, w) l -> w = None) /\
   (In src (getVertices g) -> getWeight g src dest = Return None)).
Proof.
  rewrite addEdge_unfold. split; [|split].
  - destruct (weighted g), weight; simpl; split; try tauto;
      try (intros [? ?]; discriminate);
      try (destruct (directed g); simpl; discriminate).
  - destruct (weighted g), weight; simpl; try tauto;
      destruct (directed g); reflexivity.
  - intros Hb Hw. apply built_wf in Hb. destruct Hb as (Hnd & Htgt & Hwt).
    assert (Hnone : forall u l v w,
               In (u, l) (adjacentList g) -> In (v, w) l -> w = None).
    { intros u l v w Hu Hv. now apply (Hwt u l v w). }
    split; auto.
    intros Hin. unfold getWeight. apply known_get in Hin as Hg.
    unfold dict_index. rewrite Hg. simpl. f_equal.
    apply getWeight_scan_unweighted. intros v w Hv.
    apply dict_get_In in Hg. exact (Hnone src _ v w Hg Hv).
Qed.

Lemma addEdge_stored_neighbors (g : Graph) (u v : V) (weight : Weight) (x : V) :
  snd (addEdge g u v weight) = Return tt ->
  stored_neighbors (fst (addEdge g u v weight)) x =
  stored_neighbors g x
  ++ (if key_eqb u x then [(v, stored_weight g weight)] else [])
  ++ (if negb (directed g) && key_eqb v x
      then [(u, stored_weight g weight)] else []).
Proof.
  rewrite addEdge_unfold.
  set (g2 := addVertex (addVertex g u) v).
  set (g3 := set_adjacentList g2 _).
  set (g4 := set_adjacentList g3 _).
  assert (H2 : forall y, stored_neighbors g2 y = stored_neighbors g y).
  { intros y. unfold g2. now rewrite !addVertex_stored_neighbors. }
  assert (H3 : forall y, stored_neighbors g3 y =
             stored_neighbors g y
             ++ (if key_eqb u y then [(v, stored_weight g weight)] else [])).
  { intros y. unfold stored_neighbors at 1. unfold g3.
    rewrite set_neighbors_get. destruct (key_eqb_spec u y) as [->|Hne].
    - now rewrite H2.
    - fold (stored_neighbors g2 y). now rewrite H2, app_nil_r. }
  destruct (weighted g && _); simpl; [discriminate|].
  destruct (directed g); simpl; intros _.
  - now rewrite H3, app_nil_r.
  - unfold stored_neighbors at 1. unfold g4.
    rewrite set_neighbors_get. destruct (key_eqb_spec v x) as [->|Hne].
    + now rewrite H3, app_assoc.
    + fold (stored_neighbors g3 x). now rewrite H3, app_nil_r.
Qed.

Lemma addEdge_known (g : Graph) (u v : V) (weight : Weight) (x : V) :
  In x (getVertices (fst (addEdge g u v weight))) <->
  In x (getVertices g) \/ x = u \/ x = v.
Proof.
  assert (H2 : In x (getVertices (addVertex (addVertex g u) v)) <->
               In x (getVertices g) \/ x = u \/ x = v).
  { rewrite !addVertex_In_keys. tauto. }
  rewrite addEdge_unfold.
  destruct (weighted g && _); simpl; auto.
  assert (H3 : forall k l g0, In k (getVertices g0) ->
             getVertices (set_adjacentList g0 (dict_set k l (adjacentList g0)))
             = getVertices g0).
  { intros k l g0 Hk. unfold getVertices; simpl. rewrite dict_keys_set.
    apply dict_mem_In in Hk. now rewrite Hk. }
  assert (Hu : In u (getVertices (addVertex (addVertex g u) v)))
    by apply addVertex_keeps, addVertex_known.
  assert (Hv : In v (getVertices (addVertex (addVertex g u) v)))
    by apply addVertex_known.
  destruct (directed g); simpl.
  - now rewrite H3.
  - rewrite H3; rewrite H3; auto.
Qed.

(** C8, as the code has it: after a successful [addEdge(u, v, w)] the list
    of [u] holds [(v, w')], where [w'] is [w] on a weighted graph and [None]
    on an unweighted one; on an undirected graph the list of [v] holds
    [(u, w')]; on a directed graph with [u <> v] the list of [v] is what it
    was before the call (empty if [v] was created by it). *)
Theorem addEdge_neighbor_entries (g : Graph) (u v : V) (w : Weight) :
  snd (addEdge g u v w) = Return tt ->
  exists lu lv,
    getNeighbors (fst (addEdge g u v w)) u = Return lu /\
    getNeighbors (fst (addEdge g u v w)) v = Return lv /\
    In (v, stored_weight g w) lu /\
    (directed g = false -> In (u, stored_weight g w) lv) /\
    (directed g = true -> u <> v -> lv = stored_neighbors g v).
Proof.
  intros Hok.
  exists (stored_neighbors (fst (addEdge g u v w)) u),
         (stored_neighbors (fst (addEdge g u v w)) v).
  assert (Hk : forall x, x = u \/ x = v ->
             getNeighbors (fst (addEdge g u v w)) x
             = Return (stored_neighbors (fst (addEdge g u v w)) x)).
  { intros x Hx. unfold getNeighbors, dict_index. rewrite known_get; auto.
    apply addEdge_known. tauto. }
  split; [apply Hk; auto|]. split; [apply Hk; auto|].
  rewrite !addEdge_stored_neighbors by assumption.
  rewrite !key_eqb_refl. repeat split.
  - rewrite !in_app_iff. right. left. now left.
  - intros ->. rewrite !in_app_iff. right. right. now left.
  - intros -> Hne. apply key_eqb_neq in Hne. rewrite Hne. simpl.
    now rewrite app_nil_r.
Qed.

(** C9: in a built graph the source and the target of every stored edge are
    among [getVertices()]. *)
Theorem edge_endpoints_are_vertices (g : Graph) (u v : V)
  (l : list (V * Weight)) (w : Weight) :
  built g -> In (u, l) (adjacentList g) -> In (v, w) l ->
  In u (getVertices g) /\ In v (getVertices g).
Proof.
  intros Hb Hu Hv. apply built_wf in Hb. destruct Hb as (_ & Htgt & _). split.
  - apply (in_map fst) in Hu. exact Hu.
  - exact (Htgt u l v w Hu Hv).
Qed.

Lemma addVertex_edge_count (g : Graph) (v : V) :
  edge_count (addVertex g v) = edge_count g.
Proof.
  unfold edge_count. rewrite addVertex_adj.
  destruct (dict_mem v (adjacentList g)); auto.
  rewrite map_app, concat_app, length_app. simpl. lia.
Qed.

(** C10: on a weighted graph [addEdge(src, dest)] without a weight raises
    [ValueError] after both end points were created: the call leaves the
    graph [addVertex(src); addVertex(dest)] would leave, every neighbor list
    and the edge count as before, and [src] and [dest] among the vertices. *)
Theorem addEdge_missing_weight_not_atomic (g : Graph) (src dest : V) :
  weighted g = true ->
  addEdge g src dest None = (addVertex (addVertex g src) dest, Raise ValueError) /\
  (forall v, stored_neighbors (fst (addEdge g src dest None)) v
             = stored_neighbors g v) /\
  edge_count (fst (addEdge g src dest None)) = edge_count g /\
  (forall v, In v (getVertices (fst (addEdge g src dest None))) <->
             In v (getVertices g) \/ v = src \/ v = dest).
Proof.
  intros Hw. rewrite addEdge_unfold, Hw. simpl. repeat split.
  - intros v. now rewrite !addVertex_stored_neighbors.
  - now rewrite !addVertex_edge_count.
  - intros Hin. pose proof (addEdge_known g src dest None v) as Hk.
    rewrite addEdge_unfold, Hw in Hk. simpl in Hk. now apply Hk.
  - intros Hin. pose proof (addEdge_known g src dest None v) as Hk.
    rewrite addEdge_unfold, Hw in Hk. simpl in Hk. now apply Hk.
Qed.

(** ** Paths *)

Lemma walkb_snoc (g : Graph) (p : list V) (u v : V) :
  walkb g (p ++ [u; v]) = walkb g (p ++ [u]) && edgeb g u v.
Proof.
  induction p as [|a p IH].
  - simpl. now rewrite andb_true_r.
  - destruct p as [|b p].
    + simpl. now rewrite !andb_true_r.
    + change (walkb g ((a :: b :: p) ++ [u; v]))
        with (edgeb g a b && walkb g ((b :: p) ++ [u; v])).
      change (walkb g ((a :: b :: p) ++ [u]))
        with (edgeb g a b && walkb g ((b :: p) ++ [u])).
      rewrite IH. now rewrite andb_assoc.
Qed.

Lemma is_path_one (g : Graph) (s : V) : is_path g s s [s].
Proof. repeat split. Qed.

Lemma is_path_snoc (g : Graph) (s u v : V) (p : list V) :
  is_path g s u p -> edgeb g u v = true -> is_path g s v (p ++ [v]).
Proof.
  intros (Hhd & Hlast & Hw) He.
  apply list_last_Return in Hlast. destruct Hlast as (r & ->).
  repeat split.
  - destruct r; simpl in *; auto.
  - apply list_last_snoc.
  - rewrite <- app_assoc. simpl. rewrite walkb_snoc, Hw, He. reflexivity.
Qed.

Lemma is_path_inv (g : Graph) (s e : V) (q : list V) :
  is_path g s e q ->
  (q = [s] /\ s = e) \/
  (exists q' u, q = q' ++ [e] /\ is_path g s u q' /\ edgeb g u e = true).
Proof.
  intros (Hhd & Hlast & Hw).
  apply list_last_Return in Hlast. destruct Hlast as (r & ->).
  destruct (list_pop r) as [[r' u]|] eqn:E.
  - right. apply list_pop_Some in E. subst r.
    rewrite <- app_assoc in Hw. simpl in Hw. rewrite walkb_snoc in Hw.
    apply andb_prop in Hw. destruct Hw as [Hw He].
    exists (r' ++ [u]), u. repeat split; auto.
    + destruct r'; simpl in *; auto.
    + apply list_last_snoc.
  - left. apply list_pop_None in E. subst r. simpl in Hhd.
    injection Hhd as ->. auto.
Qed.

Lemma is_path_length (g : Graph) (s e : V) (q : list V) :
  is_path g s e q -> 1 <= length q.
Proof.
  intros (Hhd & _). destruct q; simpl in *; [discriminate | lia].
Qed.

Lemma edgeb_true (g : Graph) (u v : V) :
  edgeb g u v = true <->
  exists l w, dict_get u (adjacentList g) = Some l /\ In (v, w) l.
Proof.
  unfold edgeb. destruct (dict_get u (adjacentList g)) as [l|]; split.
  - intros Hex. apply existsb_exists in Hex. destruct Hex as ([n w] & Hin & Heq).
    apply key_eqb_eq in Heq. simpl in Heq. subst. eauto.
  - intros (l' & w & [= <-] & Hin). apply existsb_exists.
    exists (v, w). split; auto. apply key_eqb_refl.
  - discriminate.
  - intros (l' & w & Hg & _). discriminate.
Qed.

Lemma reachable_refl (g : Graph) (s : V) : reachable g s s.
Proof. exists [s]. apply is_path_one. Qed.

Lemma reachable_step (g : Graph) (s u v : V) :
  reachable g s u -> edgeb g u v = true -> reachable1 g s v.
Proof.
  intros (p & Hp) He. exists (p ++ [v]). split.
  - now apply is_path_snoc with (u := u).
  - apply is_path_length in Hp. rewrite length_app. simpl. lia.
Qed.

Lemma reachable1_reachable (g : Graph) (s v : V) :
  reachable1 g s v -> reachable g s v.
Proof. intros (p & Hp & _). now exists p. Qed.

(** ** Dijkstra: the heap, the initialisation and the relaxation loop *)

Lemma dict_get_set_cases {A} (k v : V) (a x : A) (d : dict A) :
  dict_get v (dict_set k a d) = Some x ->
  (v = k /\ x = a) \/ (v <> k /\ dict_get v d = Some x).
Proof.
  destruct (key_eq_dec k v) as [->|Hne].
  - rewrite dict_get_set_same. intros [= ->]. now left.
  - rewrite dict_get_set_other by assumption. right. split; congruence.
Qed.

Lemma dict_mem_set {A} (k v : V) (a : A) (d : dict A) :
  dict_mem v (dict_set k a d) = true <-> v = k \/ dict_mem v d = true.
Proof.
  unfold dict_mem. destruct (key_eq_dec k v) as [->|Hne].
  - rewrite dict_get_set_same. tauto.
  - rewrite dict_get_set_other by assumption.
    split; [tauto | intros [->|?]; [congruence | assumption]].
Qed.

Lemma heappop_None (queue : list entry) : heappop queue = None <-> queue = [].
Proof.
  destruct queue as [|e l]; simpl; [tauto|].
  destruct (heappop l) as [[m rest]|]; [destruct (entry_ltb m e)|];
    split; discriminate.
Qed.

Lemma heappop_Some (queue rest : list entry) (m : entry) :
  heappop queue = Some (m, rest) ->
  In m queue /\ length queue = S (length rest) /\
  (forall e, In e rest -> In e queue) /\
  (forall e, In e queue -> e = m \/ In e rest).
Proof.
  revert m rest. induction queue as [|e l IH]; simpl; [discriminate|].
  intros m rest. destruct (heappop l) as [[m' rest']|] eqn:E.
  - destruct (IH m' rest' eq_refl) as (Hin & Hlen & Hsub & Hcov).
    destruct (entry_ltb m' e); intros [= <- <-]; simpl.
    + repeat split; auto.
      * intros x [->|Hx]; auto.
      * intros x [->|Hx]; auto. destruct (Hcov x Hx); auto.
    + repeat split; auto. intros x [->|Hx]; auto.
  - apply heappop_None in E. subst l. intros [= <- <-].
    repeat split; auto. intros x [->|[]]. now left.
Qed.

Lemma queue_update_length (n : V) (a : Dist) (queue : list entry) :
  length (queue_update n a queue) = length queue.
Proof.
  induction queue as [|[d v] q IH]; simpl; auto.
  destruct (key_eqb v n); simpl; auto.
Qed.

Lemma queue_update_vertices (n : V) (a : Dist) (queue : list entry) :
  map snd (queue_update n a queue) = map snd queue.
Proof.
  induction queue as [|[d v] q IH]; simpl; auto.
  destruct (key_eqb v n); simpl; auto. now rewrite IH.
Qed.

Lemma dijkstra_init_spec (start : V) (universe keys : list V) :
  forall distances previous queue distances' previous' queue',
    dijkstra_init start keys distances previous queue
    = (distances', previous', queue') ->
    (forall v, In v keys -> In v universe) ->
    (forall v d, dict_get v distances = Some (Fin d) -> v = start) ->
    (forall v u, dict_get v previous <> Some (Some u)) ->
    (forall e, In e queue -> In (snd e) universe) ->
    (forall v d, dict_get v distances' = Some (Fin d) -> v = start) /\
    (forall v u, dict_get v previous' <> Some (Some u)) /\
    (forall e, In e queue' -> In (snd e) universe) /\
    (forall v, In v keys \/ dict_mem v distances = true ->
               dict_mem v distances' = true) /\
    (forall v, In v keys \/ dict_mem v previous = true ->
               dict_mem v previous' = true).
Proof.
  induction keys as [|k keys IH]; simpl;
    intros distances previous queue distances' previous' queue' Hrun Hsub Hd Hp Hq.
  - injection Hrun as <- <- <-. repeat split; auto; intros v [[]|Hv]; auto.
  - assert (Hp' : forall v u,
               dict_get v (dict_set k None previous) <> Some (Some u)).
    { intros v u Hg. apply dict_get_set_cases in Hg.
      destruct Hg as [[_ Hg]|[_ Hg]]; [discriminate | now apply Hp in Hg]. }
    assert (Hq' : forall d e, In e (heappush queue (d, k)) -> In (snd e) universe).
    { intros d e Hin. apply in_app_or in Hin.
      destruct Hin as [Hin|[<-|[]]]; auto. }
    assert (Hsub' : forall v, In v keys -> In v universe)
      by (intros v Hv; apply Hsub; now right).
    destruct (key_eqb_spec k start) as [->|Hne].
    + apply IH in Hrun; auto.
      * destruct Hrun as (H1 & H2 & H3 & H4 & H5). repeat split; auto.
        -- intros v [[->|Hv]|Hv]; apply H4; auto;
             right; apply dict_mem_set; auto.
        -- intros v [[->|Hv]|Hv]; apply H5; auto;
             right; apply dict_mem_set; auto.
      * intros v d Hg. apply dict_get_set_cases in Hg.
        destruct Hg as [[-> _]|[_ Hg]]; eauto.
      * apply Hq'.
    + apply IH in Hrun; auto.
      * destruct Hrun as (H1 & H2 & H3 & H4 & H5). repeat split; auto.
        -- intros v [[->|Hv]|Hv]; apply H4; auto;
             right; apply dict_mem_set; auto.
        -- intros v [[->|Hv]|Hv]; apply H5; auto;
             right; apply dict_mem_set; auto.
      * intros v d Hg. apply dict_get_set_cases in Hg.
        destruct Hg as [[_ Hg]|[_ Hg]]; [discriminate | eauto].
      * apply Hq'.
Qed.

Lemma dijkstra_init_inv (g : Graph) (start : V)
  (distances : dict Dist) (previous : dict (option V)) (queue : list entry) :
  dijkstra_init start (dict_keys (adjacentList g)) [] [] []
  = (distances, previous, queue) ->
  dijkstra_inv g start distances previous queue.
Proof.
  intros Hrun.
  apply (dijkstra_init_spec start (getVertices g)) in Hrun; simpl; auto.
  - destruct Hrun as (H1 & H2 & H3 & H4 & H5).
    repeat split; auto.
    + intros v d Hg. apply H1 in Hg. subst v. apply reachable_refl.
    + intros v u Hg. now apply H2 in Hg.
  - discriminate.
  - discriminate.
  - intros e [].
Qed.

Lemma dist_add_Fin (a w : Z) : dist_add (Fin a) w = Return (dist_plus (Fin a) w).
Proof. reflexivity. Qed.

Lemma dist_add_fits (d : Dist) (w : Z) :
  fits_float w = true -> dist_add d w = Return (dist_plus d w).
Proof. intros Hf. destruct d; simpl; [reflexivity | now rewrite Hf]. Qed.

Lemma float_weightsb_sound (g : Graph) :
  float_weightsb g = true -> float_weights g.
Proof.
  intros Hb u v w Hin. unfold stored_neighbors in Hin.
  destruct (dict_get u (adjacentList g)) as [l|] eqn:Hg; [|destruct Hin].
  apply dict_get_In in Hg. unfold float_weightsb in Hb.
  rewrite forallb_forall in Hb. specialize (Hb (u, l) Hg). cbn [snd] in Hb.
  rewrite forallb_forall in Hb. exact (Hb (v, Some w) Hin).
Qed.

(** One round of relaxations keeps [dijkstra_inv], unless the weight of
    one of the edges fits no float and the round raises [OverflowError]. *)
Lemma dijkstra_relax_inv (g : Graph) (start current : V)
  (l : list (V * Weight)) :
  (forall n w, In (n, w) l ->
     edgeb g current n = true /\ In n (getVertices g) /\ w <> None) ->
  In current (getVertices g) ->
  forall distances previous queue,
    dijkstra_inv g start distances previous queue ->
    (exists distances' previous' queue',
       dijkstra_relax current l distances previous queue
       = Return (distances', previous', queue') /\
       dijkstra_inv g start distances' previous' queue' /\
       length queue' = length queue) \/
    (dijkstra_relax current l distances previous queue = Raise OverflowError /\
     exists n w, In (n, Some w) l /\ fits_float w = false).
Proof.
  intros Hl Hcur. induction l as [|[n w] l IH];
    intros distances previous queue Hinv.
  - left. exists distances, previous, queue. auto.
  - destruct (Hl n w (or_introl eq_refl)) as (He & Hn & Hw).
    assert (Hl' : forall n w, In (n, w) l ->
               edgeb g current n = true /\ In n (getVertices g) /\ w <> None)
      by (intros n' w' Hin; apply Hl; now right).
    specialize (IH Hl').
    assert (Hstep : forall distances1 previous1 queue1,
               dijkstra_inv g start distances1 previous1 queue1 ->
               length queue1 = length queue ->
               dijkstra_relax current ((n, w) :: l) distances previous queue
               = dijkstra_relax current l distances1 previous1 queue1 ->
               (exists distances' previous' queue',
                  dijkstra_relax current ((n, w) :: l) distances previous queue
                  = Return (distances', previous', queue') /\
                  dijkstra_inv g start distances' previous' queue' /\
                  length queue' = length queue) \/
               (dijkstra_relax current ((n, w) :: l) distances previous queue
                = Raise OverflowError /\
                exists n0 w0, In (n0, Some w0) ((n, w) :: l) /\
                              fits_float w0 = false)).
    { intros d1 p1 q1 Hinv1 Hlen1 ->.
      destruct (IH d1 p1 q1 Hinv1)
        as [(d' & p' & q' & Hrun & Hinv' & Hlen)|(Hrun & n0 & w0 & Hin0 & Hf0)].
      - left. exists d', p', q'. split; [exact Hrun | split; [exact Hinv'|]].
        congruence.
      - right. split; [exact Hrun|]. exists n0, w0. split; [now right | exact Hf0]. }
    destruct Hinv as (I1 & I2 & I3 & I4 & I5).
    pose proof (I1 current Hcur) as Hdc. pose proof (I1 n Hn) as Hdn.
    unfold dict_mem in Hdc, Hdn.
    destruct (dict_get current distances) as [dcur|] eqn:Ec; [|discriminate].
    destruct w as [w|]; [|congruence].
    destruct (dict_get n distances) as [dn|] eqn:En; [|discriminate].
    destruct dcur as [dc|].
    + destruct (dist_ltb (Fin (dc + w)) dn) eqn:Hlt.
      * assert (Hr : reachable1 g start n).
        { apply reachable_step with (u := current); eauto. }
        apply (Hstep (dict_set n (Fin (dc + w)) distances)
                     (dict_set n (Some current) previous)
                     (heapify (queue_update n (Fin (dc + w)) queue))).
        -- repeat split.
           ++ intros v Hv. apply dict_mem_set. auto.
           ++ intros v Hv. apply dict_mem_set. auto.
           ++ intros e Hin. unfold heapify in Hin.
              apply (in_map snd) in Hin. rewrite queue_update_vertices in Hin.
              apply in_map_iff in Hin. destruct Hin as (e' & Heq & Hin).
              rewrite <- Heq. auto.
           ++ intros v d Hg. apply dict_get_set_cases in Hg.
              destruct Hg as [[-> _]|[_ Hg]]; eauto using reachable1_reachable.
           ++ intros v u Hg. apply dict_get_set_cases in Hg.
              destruct Hg as [[-> _]|[_ Hg]]; eauto.
        -- unfold heapify. apply queue_update_length.
        -- cbn [dijkstra_relax]. unfold dict_index. rewrite Ec, En.
           cbn [bind dist_add]. now rewrite Hlt.
      * apply (Hstep distances previous queue); [repeat split; auto | reflexivity |].
        cbn [dijkstra_relax]. unfold dict_index. rewrite Ec, En.
        cbn [bind dist_add]. now rewrite Hlt.
    + destruct (fits_float w) eqn:Hfit.
      * apply (Hstep distances previous queue); [repeat split; auto | reflexivity |].
        cbn [dijkstra_relax]. unfold dict_index. rewrite Ec, En.
        cbn [bind dist_add]. rewrite Hfit. reflexivity.
      * right. split.
        -- cbn [dijkstra_relax]. unfold dict_index. rewrite Ec.
           cbn [bind dist_add]. rewrite Hfit. reflexivity.
        -- exists n, w. split; [now left | exact Hfit].
Qed.

Lemma wf_neighbors (g : Graph) (u : V) (l : list (V * Weight)) :
  wf g -> dict_get u (adjacentList g) = Some l ->
  forall n w, In (n, w) l ->
    edgeb g u n = true /\ In n (getVertices g) /\
    (weighted g = true -> w <> None).
Proof.
  intros (Hnd & Htgt & Hwt) Hg n w Hin. repeat split.
  - apply edgeb_true. eauto.
  - apply dict_get_In in Hg. exact (Htgt u l n w Hg Hin).
  - apply dict_get_In in Hg. intros Hw Hnone.
    apply (Hwt u l n w Hg Hin) in Hnone. congruence.
Qed.

Lemma dijkstra_loop_unreached (g : Graph) (start end_ : V) :
  wf g -> weighted g = true -> ~ reachable1 g start end_ ->
  forall fuel distances previous queue,
    dijkstra_inv g start distances previous queue ->
    length queue < fuel ->
    dijkstra_loop fuel g end_ distances previous queue [] = Return [] \/
    (dijkstra_loop fuel g end_ distances previous queue [] = Raise OverflowError /\
     ~ float_weights g).
Proof.
  intros Hwf Hw Hnr. induction fuel as [|fuel IH];
    intros distances previous queue Hinv Hlen; [lia|].
  cbn [dijkstra_loop].
  destruct (heappop queue) as [[[d current] rest]|] eqn:Hpop; auto.
  apply heappop_Some in Hpop. destruct Hpop as (Hin & Hl & Hsub & _).
  destruct Hinv as (I1 & I2 & I3 & I4 & I5).
  assert (Hcur : In current (getVertices g)) by apply (I3 _ Hin).
  destruct (key_eqb_spec current end_) as [->|Hne].
  - left. pose proof (I2 end_ Hcur) as Hp. unfold dict_mem in Hp.
    cbn [dijkstra_walk]. unfold dict_index.
    destruct (dict_get end_ previous) as [[u|]|] eqn:E; try discriminate; auto.
    exfalso. apply Hnr. eauto.
  - apply dict_mem_In in Hcur as Hm. rewrite Hm.
    apply known_get in Hcur as Hg. unfold dict_index. rewrite Hg.
    cbn [bind].
    destruct (dijkstra_relax_inv g start current (stored_neighbors g current))
      with (distances := distances) (previous := previous) (queue := rest)
      as [(d' & p' & q' & Hrun & Hinv' & Hlen')|(Hrun & n & w & Hnw & Hfit)];
      auto.
    + intros n w Hnw. destruct (wf_neighbors g current _ Hwf Hg n w Hnw)
        as (? & ? & ?). auto.
    + repeat split; auto.
    + rewrite Hrun. cbn [bind]. apply IH; auto. lia.
    + right. rewrite Hrun. split; [reflexivity|].
      intros Hfw. rewrite (Hfw current n w Hnw) in Hfit. discriminate.
Qed.

(** When no path with an edge leads from [start] to [end_], [dijkstra] on a
    weighted graph returns the list [[start]], unless it raises
    [OverflowError] on a weight that fits no float. *)
Lemma dijkstra_no_path (g : Graph) (start end_ : V) :
  wf g -> weighted g = true -> ~ reachable1 g start end_ ->
  (float_weights g -> dijkstra g start end_ = Return [start]) /\
  (dijkstra g start end_ = Return [start] \/
   dijkstra g start end_ = Raise OverflowError).
Proof.
  intros Hwf Hw Hnr. unfold dijkstra.
  destruct (dijkstra_init start (dict_keys (adjacentList g)) [] [] [])
    as [[distances previous] queue] eqn:Hinit.
  apply dijkstra_init_inv in Hinit.
  destruct (dijkstra_loop_unreached g start end_ Hwf Hw Hnr
              (S (length queue)) distances previous queue Hinit)
    as [Hrun|[Hrun Hfw]]; [lia | |]; rewrite Hrun; cbn [bind rev].
  - auto.
  - split; [intros Hf; now destruct Hfw | now right].
Qed.

Lemma is_path_first_edge (g : Graph) (s e : V) (p : list V) :
  is_path g s e p -> 2 <= length p -> exists v, edgeb g s v = true.
Proof.
  intros (Hhd & _ & Hw) Hlen.
  destruct p as [|a [|b p]]; simpl in Hlen; try lia.
  simpl in Hhd. injection Hhd as ->. simpl in Hw.
  apply andb_prop in Hw. destruct Hw as [He _]. eauto.
Qed.

Lemma unknown_no_edge (g : Graph) (s : V) :
  ~ In s (getVertices g) -> ~ exists e, reachable1 g s e.
Proof.
  intros Hn (e & p & Hp & Hlen).
  destruct (is_path_first_edge g s e p Hp Hlen) as (v & He).
  apply edgeb_true in He. destruct He as (l & w & Hg & _).
  apply dict_get_None in Hn. unfold getVertices in Hn. congruence.
Qed.

(** C5, as the code has it: on a built weighted graph, when [end_] cannot be
    reached from [start], [dijkstra(start, end_)] returns the one-element
    list [[start]] if every stored weight fits a float; in any case it
    returns [[start]] or raises [OverflowError], which comes from adding a
    weight that fits no float to [float("inf")]. *)
Theorem dijkstra_unreachable (g : Graph) (start end_ : V) :
  built g -> weighted g = true ->
  In start (getVertices g) -> In end_ (getVertices g) ->
  ~ reachable g start end_ ->
  (float_weights g -> dijkstra g start end_ = Return [start]) /\
  (dijkstra g start end_ = Return [start] \/
   dijkstra g start end_ = Raise OverflowError).
Proof.
  intros Hb Hw _ _ Hnr. apply dijkstra_no_path; auto using built_wf.
  intros Hr. apply Hnr. now apply reachable1_reachable.
Qed.

Lemma dfs_same_end (g : Graph) (start avoid : V) :
  dfs g start start avoid = Return [start].
Proof.
  unfold dfs. simpl. rewrite key_eqb_refl. simpl.
  unfold dict_mem. simpl. rewrite !key_eqb_refl. reflexivity.
Qed.

(** C6, as the code has it: for a [start] that is not a vertex,
    [getNeighbors], [bfs], [bfs_shortest_path] and [dfs_shortest_path] raise
    [KeyError]; [dfs] raises [KeyError] when [end_] differs from [start] and
    returns [[start]] when it equals [start]; [dijkstra] on a built weighted
    graph returns [[start]] if every stored weight fits a float, and in any
    case returns [[start]] or raises [OverflowError], never [KeyError]. *)
Theorem unknown_start (g : Graph) (start end_ avoid : V) :
  ~ In start (getVertices g) ->
  getNeighbors g start = Raise KeyError /\
  bfs g start = Raise KeyError /\
  bfs_shortest_path g start end_ = Raise KeyError /\
  dfs_shortest_path g start end_ = Raise KeyError /\
  (start <> end_ -> dfs g start end_ avoid = Raise KeyError) /\
  (start = end_ -> dfs g start end_ avoid = Return [start]) /\
  (built g -> weighted g = true ->
   (float_weights g -> dijkstra g start end_ = Return [start]) /\
   (dijkstra g start end_ = Return [start] \/
    dijkstra g start end_ = Raise OverflowError)).
Proof.
  intros Hn. pose proof (dict_index_unknown start (adjacentList g) Hn) as Hidx.
  split; [|split; [|split; [|split; [|split; [|split]]]]].
  - exact Hidx.
  - unfold bfs. simpl. now rewrite Hidx.
  - unfold bfs_shortest_path. simpl. now rewrite Hidx.
  - unfold dfs_shortest_path. simpl. now rewrite Hidx.
  - intros Hne. apply key_eqb_neq in Hne. unfold dfs. simpl.
    now rewrite Hne, Hidx.
  - intros <-. apply dfs_same_end.
  - intros Hb Hw. apply dijkstra_no_path; auto using built_wf.
    intros Hr. apply (unknown_no_edge g start Hn). eauto.
Qed.

(** ** DFS with an avoided vertex *)

Lemma dfs_push_avoid (avoid vertex : V) (l : list (V * Weight)) :
  vertex <> avoid ->
  forall path stack path' stack',
    dfs_push avoid vertex path stack l = (path', stack') ->
    (forall k u, dict_get k path = Some (Some u) -> u <> avoid) ->
    (forall v, In v stack -> v <> avoid) ->
    (forall k u, dict_get k path' = Some (Some u) -> u <> avoid) /\
    (forall v, In v stack' -> v <> avoid).
Proof.
  intros Hv. induction l as [|[n w] l IH]; simpl;
    intros path stack path' stack' Hrun Hp Hs.
  - injection Hrun as <- <-. auto.
  - destruct (key_eqb_spec n avoid) as [->|Hne]; [eauto|].
    destruct (dict_mem n path); simpl in Hrun; [eauto|].
    apply IH in Hrun; auto.
    + intros k u Hg. apply dict_get_set_cases in Hg.
      destruct Hg as [[_ [= <-]]|[_ Hg]]; eauto.
    + intros v Hin. apply in_app_or in Hin.
      destruct Hin as [Hin|[<-|[]]]; auto.
Qed.

Lemma dfs_loop_avoid (g : Graph) (end_ avoid : V) :
  forall fuel path stack path',
    dfs_loop fuel g end_ avoid path stack = Return path' ->
    (forall k u, dict_get k path = Some (Some u) -> u <> avoid) ->
    (forall v, In v stack -> v <> avoid) ->
    (forall k u, dict_get k path' = Some (Some u) -> u <> avoid).
Proof.
  induction fuel as [|fuel IH]; simpl; intros path stack path' Hrun Hp Hs;
    [discriminate|].
  destruct (list_pop stack) as [[rest vertex]|] eqn:Hpop.
  - apply list_pop_Some in Hpop. subst stack.
    destruct (key_eqb vertex end_); [now injection Hrun as <-|].
    destruct (dict_index vertex (adjacentList g)) as [l| |]; try discriminate.
    simpl in Hrun.
    destruct (dfs_push avoid vertex path rest l) as [path1 stack1] eqn:Hpush.
    apply dfs_push_avoid in Hpush; auto.
    + destruct Hpush as [Hp1 Hs1]. eapply IH; eauto.
    + apply Hs. apply in_or_app. right. now left.
    + intros v Hin. apply Hs. apply in_or_app. now left.
  - now injection Hrun as <-.
Qed.

Lemma dfs_route_avoid (start avoid : V) (path : dict (option V)) :
  (forall k u, dict_get k path = Some (Some u) -> u <> avoid) ->
  forall fuel current route r,
    dfs_route fuel start path current route = Return r ->
    (forall v, In v route -> v <> avoid) ->
    (forall v, In v r -> v <> avoid).
Proof.
  intros Hp. induction fuel as [|fuel IH]; simpl; intros current route r Hrun Hr;
    [discriminate|].
  destruct (key_eqb current start); simpl in Hrun; [now injection Hrun as <-|].
  unfold dict_index in Hrun.
  destruct (dict_get current path) as [[u|]|] eqn:Hg; try discriminate.
  cbn in Hrun. apply (IH u (route ++ [u]) r Hrun).
  intros v Hin. apply in_app_or in Hin.
  destruct Hin as [Hin|[<-|[]]]; eauto.
Qed.

Lemma dfs_never_through_avoid (g : Graph) (start end_ avoid : V) (r : list V) :
  avoid <> start -> avoid <> end_ ->
  dfs g start end_ avoid = Return r -> ~ In avoid r.
Proof.
  intros Hs He. unfold dfs.
  destruct (dfs_loop _ g end_ avoid [(start, None)] [start])
    as [path| |] eqn:Hloop; try discriminate.
  cbn [bind].
  assert (Hp : forall k u, dict_get k path = Some (Some u) -> u <> avoid).
  { apply (dfs_loop_avoid g end_ avoid _ _ _ _ Hloop).
    - simpl. intros k u. destruct (key_eqb start k); discriminate.
    - intros v [<-|[]]. auto. }
  destruct (dict_mem end_ path); cbn [negb]; [|intros [= <-]; auto].
  destruct (dfs_route (S (length path)) start path end_ [end_])
    as [route| |] eqn:Hroute; try discriminate.
  cbn [bind]. intros [= <-] Hin. apply in_rev in Hin.
  apply (dfs_route_avoid start avoid path Hp _ _ _ _ Hroute) in Hin; auto.
  intros v [<-|[]]. auto.
Qed.

Lemma filter_length_le {A} (f f' : A -> bool) (l : list A) :
  (forall x, In x l -> f' x = true -> f x = true) ->
  length (filter f' l) <= length (filter f l).
Proof.
  induction l as [|a l IH]; simpl; intros Himp; auto.
  assert (IH' : length (filter f' l) <= length (filter f l))
    by (apply IH; intros x Hx; apply Himp; now right).
  destruct (f' a) eqn:E'.
  - rewrite (Himp a (or_introl eq_refl) E'). simpl. lia.
  - destruct (f a); simpl; lia.
Qed.

Lemma filter_length_lt {A} (f f' : A -> bool) (l : list A) (a : A) :
  (forall x, In x l -> f' x = true -> f x = true) ->
  In a l -> f a = true -> f' a = false ->
  length (filter f' l) < length (filter f l).
Proof.
  induction l as [|b l IH]; simpl; intros Himp Hin Hfa Hf'a; [tauto|].
  assert (Himp' : forall x, In x l -> f' x = true -> f x = true)
    by (intros x Hx; apply Himp; now right).
  destruct Hin as [->|Hin].
  - rewrite Hfa, Hf'a. simpl.
    pose proof (filter_length_le f f' l Himp'). lia.
  - specialize (IH Himp' Hin Hfa Hf'a).
    destruct (f' b) eqn:E'.
    + rewrite (Himp b (or_introl eq_refl) E'). simpl. lia.
    + destruct (f b); simpl; lia.
Qed.

Lemma dfs_push_inv (g : Graph) (start avoid vertex : V) (l : list (V * Weight)) :
  (forall n w, In (n, w) l -> edgeb g vertex n = true /\ In n (getVertices g)) ->
  reachable_avoiding g start avoid vertex ->
  forall path stack path' stack',
    dfs_push avoid vertex path stack l = (path', stack') ->
    dfs_inv g start avoid path stack ->
    dfs_inv g start avoid path' stack' /\
    dfs_measure g path' stack' <= dfs_measure g path stack.
Proof.
  intros Hl (p & Hp & Hnp). induction l as [|[n w] l IH]; simpl;
    intros path stack path' stack' Hrun Hinv.
  - injection Hrun as <- <-. auto.
  - destruct (Hl n w (or_introl eq_refl)) as (He & Hn).
    assert (Hl' : forall n w, In (n, w) l ->
               edgeb g vertex n = true /\ In n (getVertices g))
      by (intros n' w' Hin; apply (Hl n' w'); now right).
    specialize (IH Hl').
    destruct (key_eqb_spec n avoid) as [->|Hne]; [eauto|].
    destruct (dict_mem n path) eqn:Hm; simpl in Hrun; [eauto|].
    apply IH in Hrun.
    + destruct Hrun as [Hinv' Hle]. split; [exact Hinv'|].
      etransitivity; [exact Hle|]. unfold dfs_measure.
      rewrite length_app. simpl.
      assert (Hlt : length (filter (fun v => negb (dict_mem v
                              (dict_set n (Some vertex) path))) (getVertices g))
                    < length (filter (fun v => negb (dict_mem v path))
                                (getVertices g))).
      { apply filter_length_lt with (a := n); auto.
        - intros x _ Hx. apply negb_true_iff in Hx. apply negb_true_iff.
          destruct (dict_mem x path) eqn:Ex; auto.
          assert (Hc : dict_mem x (dict_set n (Some vertex) path) = true)
            by (apply dict_mem_set; auto).
          congruence.
        - now rewrite Hm.
        - apply negb_false_iff. apply dict_mem_set. auto. }
      lia.
    + destruct Hinv as [Hr Hs]. split.
      * intros k Hk. apply dict_mem_set in Hk. destruct Hk as [->|Hk]; auto.
        exists (p ++ [n]). split.
        -- now apply is_path_snoc with (u := vertex).
        -- intros Hin. apply in_app_or in Hin.
           destruct Hin as [Hin|[Heq|[]]]; auto.
      * intros v Hin. apply in_app_or in Hin.
        destruct Hin as [Hin|[<-|[]]].
        -- destruct (Hs v Hin). split; auto. apply dict_mem_set. auto.
        -- split; auto. apply dict_mem_set. auto.
Qed.

Lemma dfs_loop_total (g : Graph) (start end_ avoid : V) :
  wf g ->
  forall fuel path stack,
    dfs_inv g start avoid path stack ->
    dfs_measure g path stack < fuel ->
    exists path',
      dfs_loop fuel g end_ avoid path stack = Return path' /\
      (forall k, dict_mem k path' = true -> reachable_avoiding g start avoid k).
Proof.
  intros Hwf. induction fuel as [|fuel IH]; intros path stack Hinv Hlt; [lia|].
  simpl. destruct (list_pop stack) as [[rest vertex]|] eqn:Hpop.
  - apply list_pop_Some in Hpop. subst stack.
    destruct Hinv as [Hr Hs].
    destruct (key_eqb vertex end_); [eauto|].
    destruct (Hs vertex) as [Hk Hm]; [apply in_or_app; right; now left|].
    apply known_get in Hk as Hg. unfold dict_index. rewrite Hg. cbn [bind].
    destruct (dfs_push avoid vertex path rest (stored_neighbors g vertex))
      as [path1 stack1] eqn:Hpush.
    apply (dfs_push_inv g start avoid vertex) in Hpush; auto.
    + destruct Hpush as [Hinv1 Hle]. apply IH; auto.
      unfold dfs_measure in *. rewrite length_app in Hlt. simpl in Hlt. lia.
    + intros n w Hin.
      destruct (wf_neighbors g vertex _ Hwf Hg n w Hin) as (? & ? & _). auto.
    + split; [exact Hr|]. intros v Hin. apply Hs. apply in_or_app. now left.
  - destruct Hinv as [Hr Hs]. eauto.
Qed.

Lemma dfs_measure_init (g : Graph) (start : V) :
  dfs_measure g [(start, None)] [start]
  < S (S (length (adjacentList g) + edge_count g)).
Proof.
  unfold dfs_measure. simpl.
  pose proof (filter_length_le (fun _ => true)
                (fun v => negb (dict_mem v [(start, @None V)])) (getVertices g)
                (fun _ _ _ => eq_refl)) as Hle.
  assert (Hall : forall l : list V, filter (fun _ => true) l = l).
  { induction l as [|a l IHl]; simpl; congruence. }
  rewrite Hall in Hle. unfold getVertices, dict_keys in *.
  rewrite length_map in Hle. lia.
Qed.

Lemma dfs_blocked (g : Graph) (start end_ avoid : V) :
  wf g -> In start (getVertices g) -> avoid <> start ->
  ~ reachable_avoiding g start avoid end_ ->
  dfs g start end_ avoid = Return [].
Proof.
  intros Hwf Hs Hne Hblocked. unfold dfs.
  destruct (dfs_loop_total g start end_ avoid Hwf
              (S (S (length (adjacentList g) + edge_count g)))
              [(start, None)] [start]) as (path & Hrun & Hr).
  - split.
    + intros k Hk. unfold dict_mem in Hk. simpl in Hk.
      destruct (key_eqb_spec start k) as [Heq|Hneq]; [subst k|discriminate].
      exists [start]. split; [apply is_path_one|].
      intros [Heq|[]]. congruence.
    + intros v [<-|[]]. split; auto.
      unfold dict_mem. simpl. now rewrite key_eqb_refl.
  - apply dfs_measure_init.
  - rewrite Hrun. cbn [bind].
    destruct (dict_mem end_ path) eqn:Hm; auto.
    exfalso. apply Hblocked. auto.
Qed.

(** C3: with [avoid] different from [start] and [end_], no list returned by
    [dfs(start, end_, avoid)] contains [avoid]; and on a built graph with
    [start] a vertex, when every path from [start] to [end_] passes through
    [avoid], the call returns the empty list. *)
Theorem dfs_avoids (g : Graph) (start end_ avoid : V) :
  avoid <> start -> avoid <> end_ ->
  (forall r, dfs g start end_ avoid = Return r -> ~ In avoid r) /\
  (built g -> In start (getVertices g) ->
   (forall p, is_path g start end_ p -> In avoid p) ->
   dfs g start end_ avoid = Return []).
Proof.
  intros Hs He. split.
  - intros r. now apply dfs_never_through_avoid.
  - intros Hb Hk Hall. apply dfs_blocked; auto using built_wf.
    intros (p & Hp & Hnp). auto.
Qed.

(** ** Path search by extension: [bfs_shortest_path], [dfs_shortest_path] *)

Lemma extend_paths_spec (path : list V) (end_ : V) (l : list (V * Weight)) :
  forall frontier,
    extend_paths path end_ frontier l =
    if existsb (fun e => key_eqb (fst e) end_) l
    then inr (path ++ [end_])
    else inl (frontier ++ map (fun e => path ++ [fst e]) l).
Proof.
  induction l as [|[n w] l IH]; simpl; intros frontier.
  - now rewrite app_nil_r.
  - destruct (key_eqb_spec n end_) as [->|Hne]; simpl; auto.
    rewrite IH. destruct (existsb _ l); auto.
    now rewrite <- app_assoc.
Qed.

Lemma edgeb_neighbors (g : Graph) (u v : V) (l : list (V * Weight)) :
  dict_get u (adjacentList g) = Some l ->
  edgeb g u v = existsb (fun e => key_eqb (fst e) v) l.
Proof. intros Hg. unfold edgeb. now rewrite Hg. Qed.

Lemma is_path_last (g : Graph) (s v w : V) (p : list V) :
  is_path g s v p -> list_last p = Return w -> v = w.
Proof. intros (_ & Hl & _) Hw. congruence. Qed.

Arguments is_path_last {g s v w p}.

Lemma unvisited_edges_mono (adj : dict (list (V * Weight))) (visited : list V)
  (u : V) :
  unvisited_edges adj (visited ++ [u]) <= unvisited_edges adj visited.
Proof.
  unfold unvisited_edges. induction adj as [|[k lk] adj IH]; simpl; auto.
  destruct (list_mem k visited) eqn:Ek.
  - assert (Hk : list_mem k (visited ++ [u]) = true).
    { apply list_mem_In. apply list_mem_In in Ek. apply in_or_app. now left. }
    rewrite Hk. simpl. exact IH.
  - destruct (list_mem k (visited ++ [u])); simpl; rewrite ?length_app; lia.
Qed.

Lemma unvisited_edges_visit (adj : dict (list (V * Weight))) (visited : list V)
  (u : V) (l : list (V * Weight)) :
  dict_get u adj = Some l -> list_mem u visited = false ->
  unvisited_edges adj (visited ++ [u]) + length l <= unvisited_edges adj visited.
Proof.
  intros Hg Hu. induction adj as [|[k lk] adj IH]; simpl in *; [discriminate|].
  unfold unvisited_edges in *. simpl.
  destruct (key_eqb_spec k u) as [->|Hne].
  - injection Hg as ->. rewrite Hu.
    assert (Hk : list_mem u (visited ++ [u]) = true).
    { apply list_mem_In. apply in_or_app. right. now left. }
    rewrite Hk. simpl. rewrite length_app.
    pose proof (unvisited_edges_mono adj visited u) as Hm.
    unfold unvisited_edges in Hm. lia.
  - specialize (IH Hg).
    destruct (list_mem k visited) eqn:Ek.
    + assert (Hk : list_mem k (visited ++ [u]) = true).
      { apply list_mem_In. apply list_mem_In in Ek. apply in_or_app. now left. }
      rewrite Hk. simpl. exact IH.
    + assert (Hk : list_mem k (visited ++ [u]) = false).
      { apply list_mem_false. apply list_mem_false in Ek.
        intros Hin. apply in_app_or in Hin. destruct Hin as [?|[?|[]]]; auto. }
      rewrite Hk. simpl. rewrite !length_app. lia.
Qed.

Lemma unvisited_edges_nil (g : Graph) :
  unvisited_edges (adjacentList g) [] = edge_count g.
Proof.
  unfold unvisited_edges, edge_count. f_equal. f_equal. f_equal.
  induction (adjacentList g) as [|e adj IH]; simpl in *; auto.
  now rewrite IH.
Qed.

Lemma bfs_inv_init (g : Graph) (start end_ : V) :
  In start (getVertices g) -> bfs_inv g start end_ 0 [] [[start]].
Proof.
  intros Hk. constructor.
  - exists [[start]], []. repeat split; auto.
    + intros p [<-|[]]. reflexivity.
    + intros p [].
  - intros p [<-|[]]. exists start. split; auto. apply is_path_one.
  - right. exists [start]. split; [now left | reflexivity].
  - intros w q Hq Hlen. apply is_path_length in Hq. lia.
  - intros w q Hq Hlen. right. exists [start]. split; [now left|].
    split; auto.
    destruct Hq as (Hhd & Hlast & _).
    destruct q as [|a [|b q]]; simpl in Hlen; try discriminate.
    simpl in Hhd. injection Hhd as ->. exact Hlast.
  - intros v n [].
  - intros v [].
Qed.

Lemma bfs_inv_head (g : Graph) (start end_ : V) (k : nat) (visited : list V)
  (p0 : list V) (rest : list (list V)) :
  bfs_inv g start end_ k visited (p0 :: rest) ->
  (length p0 = S k /\
   exists qa qb, rest = qa ++ qb /\
     (forall p, In p qa -> length p = S k) /\
     (forall p, In p qb -> length p = S (S k))) \/
  (forall p, In p (p0 :: rest) -> length p = S (S k)).
Proof.
  intros Hinv. destruct (bfs_levels Hinv) as (qa & qb & Heq & Ha & Hb).
  destruct qa as [|a qa]; simpl in Heq.
  - right. subst qb. exact Hb.
  - left. injection Heq as <- ->. split.
    + apply Ha. now left.
    + exists qa, qb. repeat split; auto. intros p Hp. apply Ha. now right.
Qed.

Arguments bfs_inv_head {g start end_ k visited p0 rest}.

Lemma bfs_inv_shift (g : Graph) (start end_ : V) (k : nat) (visited : list V)
  (queue : list (list V)) :
  bfs_inv g start end_ k visited queue ->
  (forall p, In p queue -> length p = S (S k)) ->
  bfs_inv g start end_ (S k) visited queue.
Proof.
  intros Hinv Hall.
  assert (Hbelow : forall w q, is_path g start w q -> length q <= S k ->
                               In w visited).
  { intros w q Hq Hlen.
    destruct (Nat.eq_dec (length q) (S k)) as [Heq|Hne].
    - destruct (bfs_level Hinv w q Hq Heq) as [?|(p & Hp & _ & Hl)]; auto.
      apply Hall in Hp. lia.
    - apply (bfs_below Hinv w q Hq). lia. }
  constructor.
  - exists queue, []. rewrite app_nil_r. repeat split; auto. intros p [].
  - exact (bfs_paths Hinv).
  - exact (bfs_start Hinv).
  - exact Hbelow.
  - intros w q Hq Hlen. apply is_path_inv in Hq as Hcase.
    destruct Hcase as [[-> _]|(q' & u & -> & Hq' & He)];
      [simpl in Hlen; lia|].
    rewrite length_app in Hlen. simpl in Hlen.
    assert (Hu : In u visited) by (apply (Hbelow u q' Hq'); lia).
    destruct (bfs_closed Hinv u w Hu He) as [?|(p & Hp & Hl)]; auto.
    right. exists p. repeat split; auto.
  - exact (bfs_closed Hinv).
  - exact (bfs_not_found Hinv).
Qed.

Lemma bfs_inv_normal (g : Graph) (start end_ : V) (k : nat) (visited : list V)
  (p0 : list V) (rest : list (list V)) :
  bfs_inv g start end_ k visited (p0 :: rest) ->
  exists k', bfs_inv g start end_ k' visited (p0 :: rest) /\ length p0 = S k'.
Proof.
  intros Hinv. destruct (bfs_inv_head Hinv) as [[Hlen _]|Hall].
  - exists k. auto.
  - exists (S k). split.
    + now apply bfs_inv_shift.
    + apply Hall. now left.
Qed.

Arguments bfs_inv_normal {g start end_ k visited p0 rest}.

Lemma bfs_inv_skip (g : Graph) (start end_ : V) (k : nat) (visited : list V)
  (p0 : list V) (rest : list (list V)) (u : V) :
  bfs_inv g start end_ k visited (p0 :: rest) ->
  length p0 = S k -> list_last p0 = Return u -> In u visited ->
  bfs_inv g start end_ k visited rest.
Proof.
  intros Hinv Hlen Hlast Hu.
  assert (Hdrop : forall n, (exists p, In p (p0 :: rest) /\ list_last p = Return n) ->
             In n visited \/ exists p, In p rest /\ list_last p = Return n).
  { intros n (p & [<-|Hp] & Hl); [left; congruence | right; eauto]. }
  constructor.
  - destruct (bfs_inv_head Hinv) as [[_ Hq]|Hall]; auto.
    specialize (Hall p0 (or_introl eq_refl)). lia.
  - intros p Hp. apply (bfs_paths Hinv). now right.
  - destruct (bfs_start Hinv) as [?|Hw]; auto.
  - exact (bfs_below Hinv).
  - intros w q Hq Hl.
    destruct (bfs_level Hinv w q Hq Hl) as [?|(p & [<-|Hp] & Hlp & Hlen')]; auto.
    + left. congruence.
    + right. eauto.
  - intros v n Hv He. destruct (bfs_closed Hinv v n Hv He) as [?|Hw]; auto.
  - exact (bfs_not_found Hinv).
Qed.

Lemma bfs_inv_expand (g : Graph) (start end_ : V) (k : nat) (visited : list V)
  (p0 : list V) (rest : list (list V)) (u : V) (l : list (V * Weight)) :
  wf g ->
  bfs_inv g start end_ k visited (p0 :: rest) ->
  length p0 = S k -> list_last p0 = Return u ->
  dict_get u (adjacentList g) = Some l ->
  existsb (fun e => key_eqb (fst e) end_) l = false ->
  bfs_inv g start end_ k (visited ++ [u])
    (rest ++ map (fun e => p0 ++ [fst e]) l).
Proof.
  intros Hwf Hinv Hlen Hlast Hg Hnone.
  assert (Hp0 : is_path g start u p0).
  { destruct (bfs_paths Hinv p0 (or_introl eq_refl)) as (v & Hv & _).
    now rewrite <- (is_path_last Hv Hlast). }
  assert (Hdrop : forall n, (exists p, In p (p0 :: rest) /\ list_last p = Return n) ->
             In n (visited ++ [u]) \/
             exists p, In p (rest ++ map (fun e => p0 ++ [fst e]) l) /\
                       list_last p = Return n).
  { intros n (p & [<-|Hp] & Hl).
    - left. apply in_or_app. right. left. congruence.
    - right. exists p. split; auto. apply in_or_app. now left. }
  constructor.
  - destruct (bfs_inv_head Hinv) as [[_ (qa & qb & -> & Ha & Hb)]|Hall].
    + exists qa, (qb ++ map (fun e => p0 ++ [fst e]) l).
      rewrite app_assoc. repeat split; auto.
      intros p Hp. apply in_app_or in Hp. destruct Hp as [Hp|Hp]; auto.
      apply in_map_iff in Hp. destruct Hp as (e & <- & _).
      rewrite length_app. simpl. lia.
    + specialize (Hall p0 (or_introl eq_refl)). lia.
  - intros p Hp. apply in_app_or in Hp. destruct Hp as [Hp|Hp].
    + apply (bfs_paths Hinv). now right.
    + apply in_map_iff in Hp. destruct Hp as ([n w] & <- & Hin). simpl.
      destruct (wf_neighbors g u l Hwf Hg n w Hin) as (He & Hk & _).
      exists n. split; auto. now apply is_path_snoc with (u := u).
  - destruct (bfs_start Hinv) as [?|Hw]; auto.
    left. apply in_or_app. now left.
  - intros w q Hq Hl. apply in_or_app. left. exact (bfs_below Hinv w q Hq Hl).
  - intros w q Hq Hl.
    destruct (bfs_level Hinv w q Hq Hl) as [?|(p & [<-|Hp] & Hlp & Hlen')].
    + left. apply in_or_app. now left.
    + left. apply in_or_app. right. left. congruence.
    + right. exists p. repeat split; auto. apply in_or_app. now left.
  - intros v n Hv He. apply in_app_or in Hv. destruct Hv as [Hv|[<-|[]]].
    + destruct (bfs_closed Hinv v n Hv He) as [?|Hw]; auto.
      left. apply in_or_app. now left.
    + right. rewrite (edgeb_neighbors g u n l Hg) in He.
      apply existsb_exists in He. destruct He as (e & Hin & Heq).
      apply key_eqb_eq in Heq. exists (p0 ++ [n]). split.
      * apply in_or_app. right. apply in_map_iff. exists e.
        split; auto. now rewrite Heq.
      * apply list_last_snoc.
  - intros v Hv. apply in_app_or in Hv. destruct Hv as [Hv|[<-|[]]].
    + exact (bfs_not_found Hinv v Hv).
    + now rewrite (edgeb_neighbors g u end_ l Hg).
Qed.

Lemma bfs_found_minimal (g : Graph) (start end_ : V) (k : nat)
  (visited : list V) (p0 : list V) (rest : list (list V)) (u : V)
  (l : list (V * Weight)) :
  bfs_inv g start end_ k visited (p0 :: rest) ->
  length p0 = S k -> list_last p0 = Return u ->
  dict_get u (adjacentList g) = Some l ->
  existsb (fun e => key_eqb (fst e) end_) l = true ->
  shortest_or_none g start end_ (Return (Some (p0 ++ [end_]))).
Proof.
  intros Hinv Hlen Hlast Hg Hex. simpl.
  assert (Hp0 : is_path g start u p0).
  { destruct (bfs_paths Hinv p0 (or_introl eq_refl)) as (v & Hv & _).
    now rewrite <- (is_path_last Hv Hlast). }
  rewrite length_app. simpl. split; [|split].
  - apply is_path_snoc with (u := u); auto.
    now rewrite (edgeb_neighbors g u end_ l Hg).
  - lia.
  - intros q Hq Hq2. apply is_path_inv in Hq as Hcase.
    destruct Hcase as [[-> _]|(q' & u' & -> & Hq' & He)]; [simpl in Hq2; lia|].
    rewrite length_app. simpl.
    destruct (Nat.le_gt_cases (length q') k) as [Hle|Hgt]; [|lia].
    pose proof (bfs_below Hinv u' q' Hq' Hle) as Hu'.
    rewrite (bfs_not_found Hinv u' Hu') in He. discriminate.
Qed.

Lemma bfs_exhausted (g : Graph) (start end_ : V) (k : nat) (visited : list V) :
  bfs_inv g start end_ k visited [] -> ~ reachable1 g start end_.
Proof.
  intros Hinv.
  assert (Hs : In start visited).
  { destruct (bfs_start Hinv) as [?|(p & [] & _)]; auto. }
  assert (Hall : forall n q w, length q = n -> is_path g start w q ->
                               In w visited).
  { induction n as [|n IH]; intros q w Hlen Hq.
    - apply is_path_length in Hq. lia.
    - apply is_path_inv in Hq as Hcase.
      destruct Hcase as [[-> <-]|(q' & u & -> & Hq' & He)]; auto.
      rewrite length_app in Hlen. simpl in Hlen.
      assert (Hu : In u visited) by (apply (IH q' u); auto; lia).
      destruct (bfs_closed Hinv u w Hu He) as [?|(p & [] & _)]; auto. }
  intros (q & Hq & Hlen). apply is_path_inv in Hq as Hcase.
  destruct Hcase as [[-> _]|(q' & u & -> & Hq' & He)]; [simpl in Hlen; lia|].
  pose proof (Hall _ q' u eq_refl Hq') as Hu.
  rewrite (bfs_not_found Hinv u Hu) in He. discriminate.
Qed.

Lemma bfs_shortest_path_loop_correct (g : Graph) (start end_ : V) :
  wf g ->
  forall fuel k visited queue,
    bfs_inv g start end_ k visited queue ->
    length queue + unvisited_edges (adjacentList g) visited < fuel ->
    shortest_or_none g start end_
      (bfs_shortest_path_loop fuel g end_ visited queue).
Proof.
  intros Hwf. induction fuel as [|fuel IH]; intros k visited queue Hinv Hlt;
    [lia|].
  destruct queue as [|p0 rest]; simpl.
  - now apply bfs_exhausted with (k := k) (visited := visited).
  - destruct (bfs_inv_normal Hinv) as (k' & Hinv' & Hlen).
    destruct (bfs_paths Hinv' p0 (or_introl eq_refl)) as (u & Hp0 & Hk).
    destruct Hp0 as (Hhd & Hlast & Hwalk). rewrite Hlast. cbn [bind].
    simpl in Hlt.
    destruct (list_mem u visited) eqn:Hm; cbn [negb].
    + apply list_mem_In in Hm. apply (IH k').
      * now apply bfs_inv_skip with (p0 := p0) (u := u).
      * lia.
    + apply known_get in Hk as Hg. unfold dict_index. rewrite Hg. cbn [bind].
      rewrite extend_paths_spec.
      destruct (existsb (fun e => key_eqb (fst e) end_) (stored_neighbors g u))
        eqn:Hex.
      * now apply bfs_found_minimal with (k := k') (visited := visited)
          (rest := rest) (u := u) (l := stored_neighbors g u).
      * apply (IH k').
        -- now apply bfs_inv_expand.
        -- rewrite length_app, length_map.
           pose proof (unvisited_edges_visit (adjacentList g) visited u _ Hg Hm).
           lia.
Qed.

Lemma bfs_shortest_path_correct (g : Graph) (start end_ : V) :
  wf g -> In start (getVertices g) ->
  shortest_or_none g start end_ (bfs_shortest_path g start end_).
Proof.
  intros Hwf Hk. unfold bfs_shortest_path.
  apply bfs_shortest_path_loop_correct with (k := 0); auto.
  - now apply bfs_inv_init.
  - rewrite unvisited_edges_nil. simpl. lia.
Qed.

Lemma dfs_shortest_path_loop_sound (g : Graph) (start end_ : V) :
  forall fuel visited stack q,
    (forall p, In p stack -> exists v, is_path g start v p) ->
    dfs_shortest_path_loop fuel g end_ visited stack = Return (Some q) ->
    is_path g start end_ q /\ 2 <= length q.
Proof.
  induction fuel as [|fuel IH]; simpl; intros visited stack q Hst Hrun;
    [discriminate|].
  destruct (list_pop stack) as [[rest path]|] eqn:Hpop; [|discriminate].
  apply list_pop_Some in Hpop. subst stack.
  assert (Hrest : forall p, In p rest -> exists v, is_path g start v p)
    by (intros p Hp; apply Hst; apply in_or_app; now left).
  destruct (Hst path) as (u & Hpath); [apply in_or_app; right; now left|].
  destruct Hpath as (Hhd & Hlast & Hwalk). rewrite Hlast in Hrun.
  cbn [bind] in Hrun.
  destruct (list_mem u visited); cbn [negb] in Hrun; [eauto|].
  unfold dict_index in Hrun.
  destruct (dict_get u (adjacentList g)) as [l|] eqn:Hg; [|discriminate].
  cbn [bind] in Hrun. rewrite extend_paths_spec in Hrun.
  assert (Hu : is_path g start u path) by (repeat split; auto).
  destruct (existsb (fun e => key_eqb (fst e) end_) l) eqn:Hex.
  - injection Hrun as <-. split.
    + apply is_path_snoc with (u := u); auto.
      now rewrite (edgeb_neighbors g u end_ l Hg).
    + apply is_path_length in Hu. rewrite length_app. simpl. lia.
  - apply IH in Hrun; auto.
    intros p Hp. apply in_app_or in Hp. destruct Hp as [Hp|Hp]; auto.
    apply in_map_iff in Hp. destruct Hp as ([n w] & <- & Hin). simpl.
    exists n. apply is_path_snoc with (u := u); auto.
    apply edgeb_true. eauto.
Qed.

Lemma dfs_shortest_path_sound (g : Graph) (start end_ : V) (q : list V) :
  dfs_shortest_path g start end_ = Return (Some q) ->
  is_path g start end_ q /\ 2 <= length q.
Proof.
  unfold dfs_shortest_path. apply dfs_shortest_path_loop_sound.
  intros p [<-|[]]. exists start. apply is_path_one.
Qed.

Lemma edges_of_ge1 (p : list V) : 1 <= edges_of p <-> 2 <= length p.
Proof. unfold edges_of. lia. Qed.

(** C2, as the code has it: on a built graph with [start] a vertex, when
    some path from [start] to [end_] has at least one edge,
    [bfs_shortest_path] returns such a path with the fewest edges among them,
    so with no more edges than a path returned by [dfs_shortest_path]; when
    no path from [start] to [end_] has an edge, it returns [None]. *)
Theorem bfs_shortest_path_fewest_edges (g : Graph) (start end_ : V) :
  built g -> In start (getVertices g) ->
  ((exists q, is_path g start end_ q /\ 1 <= edges_of q) ->
   exists p,
     bfs_shortest_path g start end_ = Return (Some p) /\
     is_path g start end_ p /\ 1 <= edges_of p /\
     (forall q, is_path g start end_ q -> 1 <= edges_of q ->
                edges_of p <= edges_of q) /\
     (forall q, dfs_shortest_path g start end_ = Return (Some q) ->
                edges_of p <= edges_of q)) /\
  ((forall q, is_path g start end_ q -> edges_of q = 0) ->
   bfs_shortest_path g start end_ = Return None).
Proof.
  intros Hb Hk. apply built_wf in Hb.
  pose proof (bfs_shortest_path_correct g start end_ Hb Hk) as Hpost.
  unfold shortest_or_none in Hpost.
  destruct (bfs_shortest_path g start end_) as [[p|]| |]; try contradiction.
  - destruct Hpost as (Hp & Hlen & Hmin). split.
    + intros _. exists p. split; auto. split; auto.
      split; [now apply edges_of_ge1|].
      assert (Hmin' : forall q, is_path g start end_ q -> 1 <= edges_of q ->
                                edges_of p <= edges_of q).
      { intros q Hq Hq1. apply edges_of_ge1 in Hq1.
        specialize (Hmin q Hq Hq1). unfold edges_of. lia. }
      split; auto.
      intros q Hdfs. apply dfs_shortest_path_sound in Hdfs.
      destruct Hdfs as [Hq Hq2]. apply Hmin'; auto. now apply edges_of_ge1.
    + intros Hnone. specialize (Hnone p Hp). unfold edges_of in Hnone. lia.
  - split; auto.
    intros (q & Hq & Hq1). exfalso. apply Hpost.
    exists q. split; auto. now apply edges_of_ge1.
Qed.

(** ** Dijkstra: shortest paths on graphs whose vertices are true values *)

Ltac dist_solve :=
  repeat match goal with
         | d : Dist |- _ => destruct d
         end;
  unfold dist_le, dist_ltb, dist_eqb, dist_plus in *; simpl in *;
  rewrite ?negb_true_iff, ?negb_false_iff, ?Z.ltb_lt, ?Z.ltb_ge,
    ?Z.eqb_eq, ?Z.eqb_neq in *;
  try discriminate; try congruence; try lia.

Lemma dist_le_refl (d : Dist) : dist_le d d = true.
Proof. dist_solve. Qed.

Lemma dist_le_trans (a b c : Dist) :
  dist_le a b = true -> dist_le b c = true -> dist_le a c = true.
Proof. intros Hab Hbc. dist_solve. Qed.

Lemma entry_ltb_le (a b : entry) :
  entry_ltb a b = true -> dist_le (fst a) (fst b) = true.
Proof.
  unfold entry_ltb. destruct a as [da va], b as [db vb]. simpl.
  destruct (dist_eqb da db) eqn:E; simpl; intros Hlt; dist_solve.
Qed.

Lemma entry_ltb_ge (a b : entry) :
  entry_ltb a b = false -> dist_le (fst b) (fst a) = true.
Proof.
  unfold entry_ltb. destruct a as [da va], b as [db vb]. simpl.
  destruct (dist_eqb da db) eqn:E; simpl; intros Hlt; dist_solve.
Qed.

Lemma heappop_min (queue rest : list entry) (m : entry) :
  heappop queue = Some (m, rest) ->
  forall e, In e queue -> dist_le (fst m) (fst e) = true.
Proof.
  revert m rest. induction queue as [|a l IH]; simpl; [discriminate|].
  intros m rest. destruct (heappop l) as [[m' rest']|] eqn:E.
  - specialize (IH m' rest' eq_refl).
    destruct (entry_ltb m' a) eqn:Hlt; intros [= <- <-] e [<-|He]; auto.
    + now apply entry_ltb_le.
    + apply dist_le_refl.
    + apply dist_le_trans with (b := fst m'); auto. now apply entry_ltb_ge.
  - apply heappop_None in E. subst l.
    intros [= <- <-] e [<-|[]]. apply dist_le_refl.
Qed.

Lemma heappop_Permutation (queue rest : list entry) (m : entry) :
  heappop queue = Some (m, rest) -> Permutation queue (m :: rest).
Proof.
  revert m rest. induction queue as [|a l IH]; simpl; [discriminate|].
  intros m rest. destruct (heappop l) as [[m' rest']|] eqn:E.
  - specialize (IH m' rest' eq_refl).
    destruct (entry_ltb m' a); intros [= <- <-]; auto.
    apply perm_trans with (l' := a :: m' :: rest'); auto using perm_swap.
  - apply heappop_None in E. subst l. intros [= <- <-]. auto.
Qed.

Lemma nonneg_weightsb_sound (g : Graph) :
  nonneg_weightsb g = true -> nonneg_weights g.
Proof.
  intros Hb u v w Hin. unfold stored_neighbors in Hin.
  destruct (dict_get u (adjacentList g)) as [l|] eqn:Hg; [|destruct Hin].
  apply dict_get_In in Hg. unfold nonneg_weightsb in Hb.
  rewrite forallb_forall in Hb. specialize (Hb (u, l) Hg). simpl in Hb.
  rewrite forallb_forall in Hb. specialize (Hb (v, Some w) Hin). simpl in Hb.
  now apply Z.leb_le.
Qed.

Lemma wpath_nonneg (g : Graph) (start v : V) (c : Z) :
  nonneg_weights g -> wpath g start v c -> (0 <= c)%Z.
Proof.
  intros Hnn Hw. induction Hw as [|u v c w Hw IH Hin]; [lia|].
  apply Hnn in Hin. lia.
Qed.

Lemma stored_neighbors_wf (g : Graph) (u n : V) (w : Weight) :
  wf g -> In (n, w) (stored_neighbors g u) ->
  edgeb g u n = true /\ In n (getVertices g) /\ In u (getVertices g) /\
  (weighted g = true -> w <> None).
Proof.
  intros Hwf Hin. unfold stored_neighbors in Hin.
  destruct (dict_get u (adjacentList g)) as [l|] eqn:Hg; [|destruct Hin].
  destruct (wf_neighbors g u l Hwf Hg n w Hin) as (He & Hn & Hw).
  repeat split; auto.
  apply dict_get_In in Hg. apply (in_map fst) in Hg. exact Hg.
Qed.

Lemma edgeb_stored (g : Graph) (u v : V) :
  edgeb g u v = true <-> exists w, In (v, w) (stored_neighbors g u).
Proof.
  rewrite edgeb_true. unfold stored_neighbors. split.
  - intros (l & w & Hg & Hin). rewrite Hg. eauto.
  - intros (w & Hin).
    destruct (dict_get u (adjacentList g)) as [l|]; [eauto | destruct Hin].
Qed.

Lemma least_weight_In (v : V) (l : list (V * Weight)) (w : Z) :
  least_weight v l = Some w -> In (v, Some w) l.
Proof.
  revert w. induction l as [|[n wn] l IH]; simpl; intros w; [discriminate|].
  destruct (key_eqb_spec n v) as [->|Hne]; [|intros Hl; right; auto].
  destruct wn as [a|]; [|discriminate].
  destruct (least_weight v l) as [b|].
  - intros [= <-]. destruct (Z.min_spec a b) as [[_ ->]|[_ ->]]; auto.
  - intros [= <-]. now left.
Qed.

Lemma least_weight_le (v : V) (l : list (V * Weight)) (w : Z) :
  (forall n x, In (n, x) l -> x <> None) -> In (v, Some w) l ->
  exists w', least_weight v l = Some w' /\ (w' <= w)%Z.
Proof.
  intros Hsome. induction l as [|[n wn] l IH]; simpl; [tauto|].
  assert (Hsome' : forall n x, In (n, x) l -> x <> None)
    by (intros n' x Hin; apply (Hsome n' x); now right).
  intros [[= -> ->]|Hin].
  - rewrite key_eqb_refl. destruct (least_weight v l) as [b|].
    + exists (Z.min w b). split; auto. lia.
    + exists w. split; auto. lia.
  - destruct (IH Hsome' Hin) as (w' & Hl & Hle). rewrite Hl.
    destruct (key_eqb n v); [|eauto].
    destruct wn as [a|].
    + exists (Z.min a w'). split; auto. lia.
    + exfalso. apply (Hsome n None); auto. now left.
Qed.

Lemma path_cost_snoc (g : Graph) (p : list V) (u v : V) :
  path_cost g (p ++ [u; v]) =
  match path_cost g (p ++ [u]), edge_weight g u v with
  | Some c, Some w => Some (c + w)%Z
  | _, _ => None
  end.
Proof.
  induction p as [|a p IH].
  - simpl. destruct (edge_weight g u v); auto. f_equal. lia.
  - destruct p as [|b p].
    + simpl. destruct (edge_weight g a u), (edge_weight g u v); auto.
      f_equal. lia.
    + change (path_cost g ((a :: b :: p) ++ [u; v]))
        with (match edge_weight g a b, path_cost g ((b :: p) ++ [u; v]) with
              | Some w, Some c => Some (w + c)%Z
              | _, _ => None
              end).
      change (path_cost g ((a :: b :: p) ++ [u]))
        with (match edge_weight g a b, path_cost g ((b :: p) ++ [u]) with
              | Some w, Some c => Some (w + c)%Z
              | _, _ => None
              end).
      rewrite IH.
      destruct (edge_weight g a b), (path_cost g ((b :: p) ++ [u])),
        (edge_weight g u v); auto.
      f_equal. lia.
Qed.

Lemma edge_weight_In (g : Graph) (u v : V) (w : Z) :
  edge_weight g u v = Some w -> In (v, Some w) (stored_neighbors g u).
Proof.
  unfold edge_weight, stored_neighbors.
  destruct (dict_get u (adjacentList g)); [apply least_weight_In | discriminate].
Qed.

Lemma path_cost_wpath (g : Graph) (start : V) :
  forall n p v c, length p = n -> is_path g start v p ->
                  path_cost g p = Some c -> wpath g start v c.
Proof.
  induction n as [|n IH]; intros p v c Hlen Hp Hc.
  - apply is_path_length in Hp. lia.
  - apply is_path_inv in Hp as Hcase.
    destruct Hcase as [[-> <-]|(q & u & -> & Hq & He)].
    + simpl in Hc. injection Hc as <-. constructor.
    + destruct Hq as (Hhd & Hlast & Hwalk).
      apply list_last_Return in Hlast as Hr. destruct Hr as (r & ->).
      rewrite <- app_assoc in Hc. simpl in Hc. rewrite path_cost_snoc in Hc.
      destruct (path_cost g (r ++ [u])) as [c1|] eqn:Hc1; [|discriminate].
      destruct (edge_weight g u v) as [w|] eqn:Hw; [|discriminate].
      injection Hc as <-. apply wpath_step with (u := u).
      * apply (IH (r ++ [u]) u c1); auto.
        -- rewrite !length_app in Hlen. simpl in Hlen. rewrite length_app.
           simpl. lia.
        -- repeat split; auto.
      * now apply edge_weight_In.
Qed.

Lemma reachable_wpath (g : Graph) (start : V) :
  wf g -> weighted g = true ->
  forall n p v, length p = n -> is_path g start v p ->
                exists c, wpath g start v c.
Proof.
  intros Hwf Hw. induction n as [|n IH]; intros p v Hlen Hp.
  - apply is_path_length in Hp. lia.
  - apply is_path_inv in Hp as Hcase.
    destruct Hcase as [[-> <-]|(q & u & -> & Hq & He)].
    + exists 0%Z. constructor.
    + rewrite length_app in Hlen. simpl in Hlen.
      destruct (IH q u) as (c & Hc); auto; [lia|].
      apply edgeb_stored in He. destruct He as (w & Hin).
      destruct (stored_neighbors_wf g u v w Hwf Hin) as (_ & _ & _ & Hsome).
      destruct w as [w|]; [|now destruct (Hsome Hw)].
      exists (c + w)%Z. now apply wpath_step with (u := u).
Qed.

Lemma edge_weight_le (g : Graph) (u v : V) (w : Z) :
  wf g -> weighted g = true -> In (v, Some w) (stored_neighbors g u) ->
  exists w', edge_weight g u v = Some w' /\ (w' <= w)%Z.
Proof.
  intros Hwf Hw Hin.
  assert (Hsome : forall n x, In (n, x) (stored_neighbors g u) -> x <> None).
  { intros n x Hx.
    destruct (stored_neighbors_wf g u n x Hwf Hx) as (_ & _ & _ & Hs). auto. }
  unfold edge_weight. unfold stored_neighbors in *.
  destruct (dict_get u (adjacentList g)) as [l|]; [|destruct Hin].
  now apply least_weight_le.
Qed.

Lemma dijkstra_full_weaken (g : Graph) (start : V) (done : list V)
  (R R' : V -> V -> Z -> Prop) (distances : dict Dist)
  (previous : dict (option V)) (queue : list entry) :
  (forall v n w, R' v n w -> R v n w) ->
  dijkstra_full g start done R distances previous queue ->
  dijkstra_full g start done R' distances previous queue.
Proof.
  intros Himp Hf. constructor; try apply Hf.
  - intros v n w dv Hr. apply (dj_relaxed Hf). auto.
  - intros v n w Hr. apply (dj_relaxed_done Hf v n w). auto.
Qed.

Lemma queue_vertex_entry (queue : list entry) (v : V) :
  In v (map snd queue) -> exists d, In (d, v) queue.
Proof.
  intros Hin. apply in_map_iff in Hin. destruct Hin as ([d u] & Heq & Hin).
  simpl in Heq. subst u. eauto.
Qed.

(** Along a path from [start], either the end point is popped and holds a
    distance no more than the cost of the path, or the queue holds an entry
    whose key is no more than that cost. *)
Lemma dj_frontier (g : Graph) (start : V) (done : list V)
  (distances : dict Dist) (previous : dict (option V)) (queue : list entry) :
  wf g -> nonneg_weights g -> In start (getVertices g) ->
  dijkstra_full g start done (relaxed_all g done) distances previous queue ->
  forall v c, wpath g start v c ->
    (In v done /\ exists d, dict_get v distances = Some (Fin d) /\ (d <= c)%Z) \/
    (exists d u, In (Fin d, u) queue /\ (d <= c)%Z).
Proof.
  intros Hwf Hnn Hs Hf v c Hw.
  assert (Hplace : forall x d, In x (getVertices g) ->
             dict_get x distances = Some (Fin d) ->
             In x done \/ In (Fin d, x) queue).
  { intros x d Hx Hd. destruct (dj_done Hf x Hx) as [?|Hq]; auto.
    apply queue_vertex_entry in Hq. destruct Hq as (d' & Hq).
    destruct (dj_queue Hf d' x Hq) as [_ Hd']. right. congruence. }
  induction Hw as [|u v c w Hw IH Hin].
  - destruct (dj_start Hf) as [Hd _].
    destruct (Hplace start 0%Z Hs Hd) as [?|?].
    + left. split; auto. exists 0%Z. split; auto. lia.
    + right. exists 0%Z, start. split; auto. lia.
  - pose proof (Hnn u v w Hin) as Hw0.
    destruct IH as [(Hu & du & Hdu & Hle)|(d & x & Hq & Hle)].
    + destruct (dj_relaxed Hf u v w (Fin du) (conj Hu Hin) Hdu)
        as (dn & Hdn & Hdle).
      destruct dn as [dv|]; [|discriminate].
      assert (Hdv : (dv <= c + w)%Z) by dist_solve.
      destruct (stored_neighbors_wf g u v (Some w) Hwf Hin) as (_ & Hv & _).
      destruct (Hplace v dv Hv Hdn) as [?|?].
      * left. split; auto. exists dv. auto.
      * right. exists dv, v. auto.
    + right. exists d, x. split; auto. lia.
Qed.

Arguments dj_frontier {g start done distances previous queue}.

(** *** The predecessor tree *)

Lemma ptree_stable (start : V) (previous previous' : dict (option V))
  (v : V) (r : list V) :
  ptree start previous v r ->
  (forall y, In y r -> dict_get y previous' = dict_get y previous) ->
  ptree start previous' v r.
Proof.
  intros Ht. induction Ht as [Hs|u v r Ht IH Hp]; intros Hsame.
  - constructor. rewrite Hsame; auto. now left.
  - apply ptree_step with (u := u).
    + apply IH. intros y Hy. apply Hsame. apply in_or_app. now left.
    + rewrite Hsame; auto. apply in_or_app. right. now left.
Qed.

Lemma ptree_ends (start : V) (previous : dict (option V)) (v : V) (r : list V) :
  ptree start previous v r ->
  hd_error r = Some start /\ exists r', r = r' ++ [v].
Proof.
  intros Ht. induction Ht as [Hs|u v r Ht IH Hp].
  - split; auto. now exists [].
  - destruct IH as [Hhd (r' & ->)]. split; [|now exists (r' ++ [u])].
    destruct r'; simpl in *; auto.
Qed.

Arguments ptree_ends {start previous v r}.

Lemma ptree_walk (start : V) (previous : dict (option V)) (v : V) (r : list V) :
  ptree start previous v r ->
  (forall y, In y r -> truthy y = true) ->
  forall fuel acc, length r <= fuel ->
    dijkstra_walk fuel previous v acc = Return (acc ++ rev (tl r)).
Proof.
  intros Ht. induction Ht as [Hs|u v r Ht IH Hp]; intros Htrue fuel acc Hlen.
  - destruct fuel as [|fuel]; simpl in Hlen; [lia|].
    simpl. unfold dict_index. rewrite Hs. simpl. now rewrite app_nil_r.
  - rewrite length_app in Hlen. simpl in Hlen.
    destruct fuel as [|fuel]; [lia|].
    simpl. unfold dict_index. rewrite Hp. cbn [bind].
    destruct (ptree_ends Ht) as [Hhd (r' & Hr)].
    assert (Hu : truthy u = true).
    { apply Htrue. apply in_or_app. left. rewrite Hr. apply in_or_app.
      right. now left. }
    rewrite Hu. rewrite IH.
    + f_equal. destruct r as [|a r0]; [now destruct r'|].
      simpl. rewrite rev_app_distr. simpl. now rewrite <- app_assoc.
    + intros y Hy. apply Htrue. apply in_or_app. now left.
    + lia.
Qed.

Arguments ptree_walk {start previous v r}.

Lemma ptree_is_path (g : Graph) (start : V) (done : list V)
  (R : V -> V -> Z -> Prop) (distances : dict Dist)
  (previous : dict (option V)) (queue : list entry) (v : V) (r : list V) :
  dijkstra_full g start done R distances previous queue ->
  ptree start previous v r -> is_path g start v r.
Proof.
  intros Hf Ht. induction Ht as [Hs|u v r Ht IH Hp].
  - apply is_path_one.
  - apply is_path_snoc with (u := u); auto.
    destruct (dj_pred Hf v u Hp) as (_ & du & w & _ & Hin & _).
    apply edgeb_stored. eauto.
Qed.

Arguments ptree_is_path {g start done R distances previous queue v r}.

Lemma ptree_cost (g : Graph) (start : V) (done : list V)
  (R : V -> V -> Z -> Prop) (distances : dict Dist)
  (previous : dict (option V)) (queue : list entry) (v : V) (r : list V) :
  wf g -> weighted g = true ->
  dijkstra_full g start done R distances previous queue ->
  ptree start previous v r ->
  exists c d, path_cost g r = Some c /\
              dict_get v distances = Some (Fin d) /\ (c <= d)%Z.
Proof.
  intros Hwf Hw Hf Ht. induction Ht as [Hs|u v r Ht IH Hp].
  - exists 0%Z, 0%Z. destruct (dj_start Hf) as [Hd _].
    repeat split; auto. lia.
  - destruct IH as (c & d & Hc & Hd & Hle).
    destruct (dj_pred Hf v u Hp) as (_ & du & w & Hdu & Hin & Hdv).
    assert (d = du) by congruence. subst du.
    destruct (edge_weight_le g u v w Hwf Hw Hin) as (w' & Hew & Hwle).
    destruct (ptree_ends Ht) as [_ (r' & ->)].
    exists (c + w')%Z, (d + w)%Z. rewrite <- app_assoc. simpl.
    rewrite path_cost_snoc, Hc, Hew. repeat split; auto. lia.
Qed.

Arguments ptree_cost {g start done R distances previous queue v r}.

(** *** One relaxation *)

Lemma dict_set_length {A} (k : V) (a : A) (d : dict A) :
  length d <= length (dict_set k a d).
Proof.
  induction d as [|[k' a'] d IH]; simpl; [lia|].
  destruct (key_eqb k' k); simpl; lia.
Qed.

Lemma queue_update_In (n : V) (a : Dist) (queue : list entry) (d : Dist) (v : V) :
  NoDup (map snd queue) -> In (d, v) (queue_update n a queue) ->
  (v = n /\ d = a) \/ (v <> n /\ In (d, v) queue).
Proof.
  induction queue as [|[d0 v0] q IH]; simpl; [tauto|].
  intros Hnd. inversion Hnd as [|? ? Hni Hnd']; subst.
  destruct (key_eqb_spec v0 n) as [->|Hne]; simpl.
  - intros [[= <- <-]|Hin]; auto.
    right. split; auto. intros ->. apply Hni.
    apply (in_map snd) in Hin. exact Hin.
  - intros [[= <- <-]|Hin]; auto.
    destruct (IH Hnd' Hin) as [?|[? ?]]; auto.
Qed.

Section Dijkstra_optimal.

Variables (g : @Graph V) (start : V).
Hypothesis Hwf : wf g.
Hypothesis Hweighted : weighted g = true.
Hypothesis Hnonneg : nonneg_weights g.

Lemma relax_keep (done : list V) (R : V -> V -> Z -> Prop)
  (distances : dict Dist) (previous : dict (option V)) (queue : list entry)
  (x n : V) (w : Z) (dx dn : Dist) :
  dijkstra_full g start done R distances previous queue ->
  In x done ->
  dict_get x distances = Some dx -> dict_get n distances = Some dn ->
  dist_ltb (dist_plus dx w) dn = false ->
  dijkstra_full g start done
    (fun v n' w' => R v n' w' \/ (v = x /\ n' = n /\ w' = w))
    distances previous queue.
Proof.
  intros Hf Hx Hdx Hdn Hlt. constructor; try apply Hf.
  - intros v n' w' dv [Hr|(-> & -> & ->)] Hdv.
    + now apply (dj_relaxed Hf v n' w' dv).
    + exists dn. split; auto. assert (dv = dx) by congruence. subst dv.
      unfold dist_le. now rewrite Hlt.
  - intros v n' w' [Hr|(-> & _)]; auto. now apply (dj_relaxed_done Hf v n' w').
Qed.

Lemma relax_update (done : list V) (R : V -> V -> Z -> Prop)
  (distances : dict Dist) (previous : dict (option V)) (queue : list entry)
  (x n : V) (w : Z) (dx dn : Dist) :
  dijkstra_full g start done R distances previous queue ->
  In x done -> In (n, Some w) (stored_neighbors g x) ->
  dict_get x distances = Some dx -> dict_get n distances = Some dn ->
  (forall v d, In v done -> dict_get v distances = Some d ->
               dist_le d dx = true) ->
  dist_ltb (dist_plus dx w) dn = true ->
  ~ In n done /\
  dijkstra_full g start done
    (fun v n' w' => R v n' w' \/ (v = x /\ n' = n /\ w' = w))
    (dict_set n (dist_plus dx w) distances)
    (dict_set n (Some x) previous)
    (heapify (queue_update n (dist_plus dx w) queue)).
Proof.
  intros Hf Hx Hin Hdx Hdn Hmax Hlt.
  pose proof (Hnonneg x n w Hin) as Hw0.
  destruct dx as [a|]; [|dist_solve].
  pose proof (wpath_nonneg g start x a Hnonneg (dj_sound Hf x a Hdx)) as Ha0.
  assert (Hn : ~ In n done).
  { intros Hd. pose proof (Hmax n dn Hd Hdn) as Hle. dist_solve. }
  assert (Hother : forall v, In v done -> v <> n) by (intros v Hv ->; auto).
  assert (Hns : n <> start).
  { intros ->. destruct (dj_start Hf) as [Hd0 _].
    assert (dn = Fin 0) by congruence. subst dn. dist_solve. }
  split; auto. unfold heapify. constructor.
  - intros v Hv. destruct (key_eq_dec n v) as [->|Hne].
    + rewrite dict_get_set_same. eauto.
    + rewrite dict_get_set_other by assumption. now apply (dj_dist_keys Hf).
  - intros v Hv. destruct (key_eq_dec n v) as [->|Hne].
    + rewrite dict_get_set_same. eauto.
    + rewrite dict_get_set_other by assumption. now apply (dj_prev_keys Hf).
  - pose proof (dj_prev_length Hf). pose proof (dict_set_length n (Some x) previous).
    lia.
  - intros d v Hq. apply queue_update_In in Hq; [|apply (dj_queue_nodup Hf)].
    destruct Hq as [[-> ->]|[Hne Hq]].
    + rewrite dict_get_set_same. split; auto.
      now destruct (stored_neighbors_wf g x n (Some w) Hwf Hin) as (_ & ? & _).
    + rewrite dict_get_set_other by auto. now apply (dj_queue Hf).
  - rewrite queue_update_vertices. apply (dj_queue_nodup Hf).
  - rewrite queue_update_vertices. apply (dj_done Hf).
  - rewrite queue_update_vertices. apply (dj_done_known Hf).
  - intros v d Hd. apply dict_get_set_cases in Hd.
    destruct Hd as [[-> Heq]|[_ Hd]].
    + simpl in Heq. injection Heq as ->.
      apply wpath_step with (u := x); auto. now apply (dj_sound Hf).
    + now apply (dj_sound Hf).
  - intros v d e Hv Hd He. rewrite dict_get_set_other in Hd by (apply not_eq_sym; auto).
    destruct e as [d' u]. apply queue_update_In in He; [|apply (dj_queue_nodup Hf)].
    destruct He as [[-> ->]|[Hne He]].
    + simpl. pose proof (Hmax v d Hv Hd) as Hle. dist_solve.
    + now apply (dj_done_le Hf v d (d', u)).
  - intros v n' w' dv [Hr|(-> & -> & ->)] Hdv.
    + pose proof (dj_relaxed_done Hf v n' w' Hr) as Hv.
      rewrite dict_get_set_other in Hdv by (apply not_eq_sym; auto).
      destruct (dj_relaxed Hf v n' w' dv Hr Hdv) as (dn' & Hdn' & Hle).
      destruct (key_eq_dec n n') as [<-|Hne].
      * rewrite dict_get_set_same. exists (Fin (a + w)). split; auto.
        assert (dn' = dn) by congruence. subst dn'. dist_solve.
      * rewrite dict_get_set_other by assumption. eauto.
    + rewrite dict_get_set_other in Hdv by (apply not_eq_sym; auto).
      assert (dv = Fin a) by congruence. subst dv.
      rewrite dict_get_set_same. exists (Fin (a + w)). split; auto.
      apply dist_le_refl.
  - intros v n' w' [Hr|(-> & _)]; auto. now apply (dj_relaxed_done Hf v n' w').
  - destruct (dj_start Hf) as [Hd0 Hp0].
    rewrite !dict_get_set_other by assumption. auto.
  - intros v u Hp. apply dict_get_set_cases in Hp.
    destruct Hp as [[-> [= <-]]|[Hne Hp]].
    + split; auto. exists a, w.
      rewrite dict_get_set_other by (apply not_eq_sym; auto).
      rewrite dict_get_set_same. auto.
    + destruct (dj_pred Hf v u Hp) as (Hu & du & w' & Hdu & Hin' & Hdv).
      split; auto. exists du, w'.
      rewrite !dict_get_set_other by (try apply not_eq_sym; auto). auto.
  - intros v d Hd Hp. apply dict_get_set_cases in Hp.
    destruct Hp as [[_ Hp]|[Hne Hp]]; [discriminate|].
    rewrite dict_get_set_other in Hd by (apply not_eq_sym; auto).
    now apply (dj_root Hf v d).
  - intros v d Hv Hd.
    rewrite dict_get_set_other in Hd by (apply not_eq_sym; auto).
    destruct (dj_tree Hf v d Hv Hd) as (r & Ht & Hincl & Hnd).
    exists r. repeat split; auto.
    apply ptree_stable with (previous := previous); auto.
    intros y Hy. apply dict_get_set_other. apply not_eq_sym. auto.
Qed.

Arguments relax_keep {done R distances previous queue x n w dx dn}.
Arguments relax_update {done R distances previous queue x n w dx dn}.

(** *** The relaxation loop *)

Lemma relax_all_neighbors (done : list V) (x : V) (a : Z) :
  In x done ->
  forall l R distances previous queue,
    (forall n w, In (n, w) l -> In (n, w) (stored_neighbors g x)) ->
    dijkstra_full g start done R distances previous queue ->
    dict_get x distances = Some (Fin a) ->
    (forall v d, In v done -> dict_get v distances = Some d ->
                 dist_le d (Fin a) = true) ->
    exists distances' previous' queue',
      dijkstra_relax x l distances previous queue
      = Return (distances', previous', queue') /\
      dijkstra_full g start done
        (fun v n w => R v n w \/ (v = x /\ In (n, Some w) l))
        distances' previous' queue' /\
      map snd queue' = map snd queue /\ length queue' = length queue.
Proof.
  intros Hx. induction l as [|[n wn] l IH];
    intros R distances previous queue Hl Hf Hdx Hmax.
  - exists distances, previous, queue.
    split; [reflexivity | split; [|split; reflexivity]].
    apply dijkstra_full_weaken with (R := R); auto.
    intros v n w [?|[_ []]]. auto.
  - assert (Hin : In (n, wn) (stored_neighbors g x)) by (apply Hl; now left).
    assert (Hl' : forall n w, In (n, w) l -> In (n, w) (stored_neighbors g x))
      by (intros n' w' Hi; apply Hl; now right).
    destruct (stored_neighbors_wf g x n wn Hwf Hin) as (_ & Hn & _ & Hsome).
    destruct wn as [w|]; [|now destruct (Hsome Hweighted)].
    destruct (dj_dist_keys Hf n Hn) as (dn & Hdn).
    cbn [dijkstra_relax]. unfold dict_index. rewrite Hdx, Hdn.
    cbn [bind dist_add].
    destruct (dist_ltb (Fin (a + w)) dn) eqn:Hlt.
    + destruct (relax_update Hf Hx Hin Hdx Hdn Hmax Hlt) as [Hnd Hf1].
      assert (Hxn : n <> x) by (intros ->; auto).
      destruct (IH _ _ _ _ Hl' Hf1) as (d' & p' & q' & Hrun & Hf2 & Hv & Hlen).
      * now rewrite dict_get_set_other.
      * intros v d Hv Hd. rewrite dict_get_set_other in Hd; eauto.
        intros ->. auto.
      * exists d', p', q'. split; [exact Hrun|]. split; [|split].
        -- apply dijkstra_full_weaken with (2 := Hf2).
           intros v n' w' [Hr|[-> [[= -> ->]|Hi]]]; auto.
        -- rewrite Hv. unfold heapify. apply queue_update_vertices.
        -- rewrite Hlen. unfold heapify. apply queue_update_length.
    + pose proof (relax_keep Hf Hx Hdx Hdn Hlt) as Hf1.
      destruct (IH _ _ _ _ Hl' Hf1 Hdx Hmax)
        as (d' & p' & q' & Hrun & Hf2 & Hv & Hlen).
      exists d', p', q'. split; [exact Hrun|]. split; [|split]; auto.
      apply dijkstra_full_weaken with (2 := Hf2).
      intros v n' w' [Hr|[-> [[= -> ->]|Hi]]]; auto.
Qed.

(** *** Popping the least entry *)

Lemma popped_tree (done : list V) (R : V -> V -> Z -> Prop)
  (distances : dict Dist) (previous : dict (option V)) (queue : list entry)
  (x : V) (a : Z) :
  dijkstra_full g start done R distances previous queue ->
  In x (getVertices g) -> ~ In x done ->
  dict_get x distances = Some (Fin a) ->
  exists r, ptree start previous x r /\ incl r (done ++ [x]) /\ NoDup r.
Proof.
  intros Hf Hk Hnd Hd. destruct (dj_prev_keys Hf x Hk) as ([u|] & Hp).
  - destruct (dj_pred Hf x u Hp) as (Hu & du & w & Hdu & _).
    destruct (dj_tree Hf u du Hu Hdu) as (r & Ht & Hincl & Hnodup).
    exists (r ++ [x]). repeat split.
    + now apply ptree_step with (u := u).
    + intros y Hy. apply in_app_or in Hy. apply in_or_app.
      destruct Hy as [Hy|Hy]; auto.
    + apply NoDup_rev in Hnodup. apply (NoDup_cons x) in Hnodup.
      * apply NoDup_rev in Hnodup. simpl in Hnodup.
        now rewrite rev_involutive in Hnodup.
      * rewrite <- in_rev. auto.
  - apply (dj_root Hf x a Hd) in Hp. subst x.
    exists [start]. repeat split.
    + constructor. apply (dj_start Hf).
    + intros y [<-|[]]. apply in_or_app. right. now left.
    + constructor; [intros [] | constructor].
Qed.

Lemma pop_full (done : list V) (distances : dict Dist)
  (previous : dict (option V)) (queue rest : list entry) (d : Dist) (x : V) :
  dijkstra_full g start done (relaxed_all g done) distances previous queue ->
  heappop queue = Some ((d, x), rest) ->
  dijkstra_full g start (done ++ [x]) (relaxed_all g done)
    distances previous rest /\
  (forall v d', In v (done ++ [x]) -> dict_get v distances = Some d' ->
                dist_le d' d = true) /\
  In x (getVertices g) /\ dict_get x distances = Some d /\
  (forall v, In v (map snd queue) -> v = x \/ In v (map snd rest)) /\
  length queue = S (length rest).
Proof.
  intros Hf Hpop.
  pose proof (heappop_min queue rest (d, x) Hpop) as Hmin.
  pose proof (heappop_Permutation queue rest (d, x) Hpop) as Hperm.
  apply heappop_Some in Hpop. destruct Hpop as (Hin & Hlen & Hsub & Hcov).
  destruct (dj_queue Hf d x Hin) as [Hk Hd].
  assert (Hnd : NoDup (x :: map snd rest)).
  { apply (Permutation_map snd) in Hperm. simpl in Hperm.
    apply (Permutation_NoDup Hperm). apply (dj_queue_nodup Hf). }
  inversion Hnd as [|? ? Hxr Hndr]; subst.
  assert (Hxd : ~ In x done).
  { intros Hx. destruct (dj_done_known Hf x Hx) as [_ Hn]. apply Hn.
    apply (in_map snd) in Hin. exact Hin. }
  assert (Hsplit : forall v, In v (map snd queue) -> v = x \/ In v (map snd rest)).
  { intros v Hv. apply in_map_iff in Hv. destruct Hv as (e & <- & He).
    destruct (Hcov e He) as [->|Hr]; auto. right. now apply in_map. }
  assert (Hmax : forall v d', In v (done ++ [x]) ->
             dict_get v distances = Some d' -> dist_le d' d = true).
  { intros v d' Hv Hd'. apply in_app_or in Hv. destruct Hv as [Hv|[<-|[]]].
    - apply (dj_done_le Hf v d' (d, x) Hv Hd' Hin).
    - assert (d' = d) by congruence. subst. apply dist_le_refl. }
  split; [|split; [exact Hmax | split; [exact Hk | split; [exact Hd |
           split; [exact Hsplit | exact Hlen]]]]].
  constructor; try apply Hf.
  - intros d' v Hq. apply (dj_queue Hf). auto.
  - exact Hndr.
  - intros v Hv. destruct (dj_done Hf v Hv) as [?|Hq].
    + left. apply in_or_app. now left.
    + destruct (Hsplit v Hq) as [->|?]; auto.
      left. apply in_or_app. right. now left.
  - intros v Hv. apply in_app_or in Hv. destruct Hv as [Hv|[<-|[]]].
    + destruct (dj_done_known Hf v Hv) as [Hkv Hn]. split; auto.
      intros Hr. apply Hn. apply in_map_iff in Hr.
      destruct Hr as (e & <- & He). apply in_map. auto.
    + split; auto.
  - intros v d' e Hv Hd' He. apply in_app_or in Hv.
    destruct Hv as [Hv|[<-|[]]].
    + apply (dj_done_le Hf v d' e Hv Hd'). auto.
    + assert (d' = d) by congruence. subst. apply Hmin. auto.
  - intros v n w Hr. apply in_or_app. left. apply Hr.
  - intros v u Hp. destruct (dj_pred Hf v u Hp) as (Hu & Hrest).
    split; auto. apply in_or_app. now left.
  - intros v a Hv Hd'. apply in_app_or in Hv. destruct Hv as [Hv|[<-|[]]].
    + destruct (dj_tree Hf v a Hv Hd') as (r & Ht & Hincl & Hnodup).
      exists r. repeat split; auto.
      intros y Hy. apply in_or_app. left. auto.
    + apply popped_tree with (R := relaxed_all g done) (distances := distances)
        (queue := queue) (a := a); auto.
Qed.

Arguments pop_full {done distances previous queue rest d x}.

(** *** The initialisation *)

Lemma dijkstra_init_lists (keys : list V) :
  forall distances previous queue,
    NoDup keys ->
    (forall v, In v keys -> ~ In v (dict_keys distances) /\
                            ~ In v (dict_keys previous)) ->
    dijkstra_init start keys distances previous queue =
    (distances ++ map (fun v => (v, if key_eqb v start then Fin 0 else Inf)) keys,
     previous ++ map (fun v => (v, None)) keys,
     queue ++ map (fun v => (if key_eqb v start then Fin 0 else Inf, v)) keys).
Proof.
  induction keys as [|k keys IH]; intros distances previous queue Hnd Hfresh.
  - simpl. now rewrite !app_nil_r.
  - inversion Hnd as [|? ? Hk Hnd']; subst.
    destruct (Hfresh k (or_introl eq_refl)) as [Hkd Hkp].
    apply dict_mem_false in Hkd, Hkp.
    assert (Hfresh' : forall a (d : dict a) x v, In v keys ->
               ~ In v (dict_keys d) -> ~ In v (dict_keys (d ++ [(k, x)]))).
    { intros a d x v Hv Hn Hin. unfold dict_keys in Hin.
      rewrite map_app in Hin. apply in_app_or in Hin.
      destruct Hin as [Hin|[<-|[]]]; auto. }
    simpl. destruct (key_eqb k start) eqn:Ek;
      rewrite !dict_set_absent by assumption;
      (rewrite IH; [unfold heappush; now rewrite <- !app_assoc | assumption |]);
      intros v Hv; destruct (Hfresh v (or_intror Hv)); split;
      apply Hfresh'; auto.
Qed.

Lemma dict_get_map {A} (f : V -> A) (keys : list V) (v : V) :
  dict_get v (map (fun k => (k, f k)) keys) =
  if list_mem v keys then Some (f v) else None.
Proof.
  induction keys as [|k keys IH]; simpl; auto.
  destruct (key_eqb_spec k v) as [->|Hne].
  - unfold list_mem. simpl. now rewrite key_eqb_refl.
  - rewrite IH. unfold list_mem. simpl.
    assert (Hvk : key_eqb v k = false) by (apply key_eqb_neq; auto).
    now rewrite Hvk.
Qed.

Lemma dijkstra_init_full (distances : dict Dist)
  (previous : dict (option V)) (queue : list entry) :
  In start (getVertices g) ->
  dijkstra_init start (dict_keys (adjacentList g)) [] [] []
  = (distances, previous, queue) ->
  dijkstra_full g start [] (relaxed_all g []) distances previous queue /\
  map snd queue = getVertices g.
Proof.
  intros Hs Hrun. destruct Hwf as (Hnd & _).
  rewrite dijkstra_init_lists in Hrun; auto. simpl in Hrun.
  injection Hrun as <- <- <-. fold (getVertices g).
  assert (Hd : forall v, dict_get v
                 (map (fun v => (v, if key_eqb v start then Fin 0 else Inf))
                    (getVertices g)) =
               if list_mem v (getVertices g)
               then Some (if key_eqb v start then Fin 0 else Inf) else None).
  { intros v. apply (dict_get_map (fun v => if key_eqb v start then Fin 0 else Inf)). }
  assert (Hp : forall v, dict_get v
                 (map (fun v => (v, @None V)) (getVertices g)) =
               if list_mem v (getVertices g) then Some None else None).
  { intros v. apply (dict_get_map (fun _ => @None V)). }
  assert (Hq : map snd (map (fun v => (if key_eqb v start then Fin 0 else Inf, v))
                          (getVertices g)) = getVertices g).
  { rewrite map_map. simpl. apply map_id. }
  split; auto. constructor.
  - intros v Hv. rewrite Hd. apply list_mem_In in Hv. rewrite Hv. eauto.
  - intros v Hv. rewrite Hp. apply list_mem_In in Hv. rewrite Hv. eauto.
  - rewrite length_map. lia.
  - intros d v Hin. apply in_map_iff in Hin. destruct Hin as (k & [= <- <-] & Hk).
    split; auto. rewrite Hd. apply list_mem_In in Hk. now rewrite Hk.
  - now rewrite Hq.
  - intros v Hv. right. now rewrite Hq.
  - intros v [].
  - intros v d. rewrite Hd. destruct (list_mem v (getVertices g)); [|discriminate].
    destruct (key_eqb_spec v start) as [->|Hne]; [|discriminate].
    intros [= <-]. constructor.
  - intros v d e [].
  - intros v n w dv [[] _].
  - intros v n w [[] _].
  - rewrite Hd, Hp. apply list_mem_In in Hs. rewrite Hs.
    now rewrite key_eqb_refl.
  - intros v u. rewrite Hp. destruct (list_mem v (getVertices g)); discriminate.
  - intros v d. rewrite Hd. destruct (list_mem v (getVertices g)); [|discriminate].
    destruct (key_eqb_spec v start) as [->|Hne]; [auto | discriminate].
  - intros v d [].
Qed.

(** *** The main loop

    While [end_] is queued and can be reached from [start], the vertex
    popped holds an int distance, so that the relaxations add ints only. *)

Lemma dijkstra_loop_optimal (end_ : V) (c0 : Z) :
  In start (getVertices g) ->
  (forall v, In v (getVertices g) -> truthy v = true) ->
  wpath g start end_ c0 ->
  forall fuel done distances previous queue,
    dijkstra_full g start done (relaxed_all g done) distances previous queue ->
    In end_ (map snd queue) ->
    length queue < fuel ->
    exists r c,
      dijkstra_loop fuel g end_ distances previous queue [] = Return (rev (tl r)) /\
      is_path g start end_ r /\ path_cost g r = Some c /\
      (forall c', wpath g start end_ c' -> (c <= c')%Z).
Proof.
  intros Hs Htrue Hreach.
  induction fuel as [|fuel IH]; intros done distances previous queue Hf Hend Hlen;
    [lia|].
  cbn [dijkstra_loop]. destruct (heappop queue) as [[[d x] rest]|] eqn:Hpop.
  2:{ apply heappop_None in Hpop. subst queue. destruct Hend. }
  destruct (pop_full Hf Hpop) as (Hf1 & Hmax & Hk & Hd & Hsplit & Hlen').
  destruct (key_eqb_spec x end_) as [->|Hne].
  - assert (Hopt : exists a, d = Fin a /\
               forall c', wpath g start end_ c' -> (a <= c')%Z).
    { assert (Hbound : forall c', wpath g start end_ c' ->
                 exists a, d = Fin a /\ (a <= c')%Z).
      { intros c' Hc'.
        destruct (dj_frontier Hwf Hnonneg Hs Hf end_ c' Hc')
          as [(Hdone & _)|(d' & u & Hq & Hle)].
        - destruct (dj_done_known Hf end_ Hdone) as [_ Hn]. now destruct Hn.
        - pose proof (heappop_min queue rest (d, end_) Hpop (Fin d', u) Hq) as Hm.
          simpl in Hm. destruct d as [a|]; [|discriminate].
          exists a. split; auto. dist_solve. }
      destruct (Hbound c0 Hreach) as (a & -> & _). exists a. split; auto.
      intros c' Hc'. destruct (Hbound c' Hc') as (a' & [= <-] & Hle). exact Hle. }
    destruct Hopt as (a & -> & Hopt).
    destruct (dj_tree Hf1 end_ a) as (r & Ht & Hincl & Hnodup); auto.
    { apply in_or_app. right. now left. }
    destruct (ptree_cost Hwf Hweighted Hf1 Ht) as (c & dd & Hc & Hdd & Hle).
    assert (dd = a) by congruence. subst dd.
    exists r, c. split; [|split; [|split]]; auto.
    + rewrite (ptree_walk Ht); auto.
      * intros y Hy. apply Htrue. apply Hincl in Hy.
        now apply (dj_done_known Hf1).
      * assert (Hsub : incl r (getVertices g)).
        { intros y Hy. apply Hincl in Hy. now apply (dj_done_known Hf1). }
        pose proof (NoDup_incl_length Hnodup Hsub).
        pose proof (dj_prev_length Hf1). lia.
    + apply (ptree_is_path Hf1 Ht).
    + intros c' Hc'. specialize (Hopt c' Hc'). lia.
  - assert (Hfin : exists a, d = Fin a).
    { destruct (dj_frontier Hwf Hnonneg Hs Hf end_ c0 Hreach)
        as [(Hdone & _)|(d' & u & Hq & Hle)].
      - destruct (dj_done_known Hf end_ Hdone) as [_ Hn]. now destruct Hn.
      - pose proof (heappop_min queue rest (d, x) Hpop (Fin d', u) Hq) as Hm.
        simpl in Hm. destruct d as [a|]; [eauto | discriminate]. }
    destruct Hfin as (a & ->).
    apply dict_mem_In in Hk as Hm. rewrite Hm.
    apply known_get in Hk as Hg. unfold dict_index. rewrite Hg. cbn [bind].
    assert (Hx : In x (done ++ [x])) by (apply in_or_app; right; now left).
    destruct (relax_all_neighbors (done ++ [x]) x a Hx (stored_neighbors g x)
                (relaxed_all g done) distances previous rest)
      as (d' & p' & q' & Hrun & Hf2 & Hv & Hlq); auto.
    rewrite Hrun. cbn [bind]. apply (IH (done ++ [x])).
    + apply dijkstra_full_weaken with (2 := Hf2).
      intros v n w [Hvd Hin]. apply in_app_or in Hvd.
      destruct Hvd as [Hvd|[<-|[]]]; [left; split; auto | right; auto].
    + rewrite Hv. destruct (Hsplit end_ Hend) as [->|?]; auto. congruence.
    + lia.
Qed.

End Dijkstra_optimal.

(** X13: on a built weighted graph with non-negative weights whose vertices
    are all true values (no [0], no empty string), [dijkstra(start, end_)]
    returns, for [end_] reachable from the vertex [start], a path from
    [start] to [end_] whose cost is no more than the cost of any path from
    [start] to [end_]. *)
Theorem dijkstra_optimal_on_true_vertices (g : Graph) (start end_ : V) :
  built g -> weighted g = true -> nonneg_weights g ->
  (forall v, In v (getVertices g) -> truthy v = true) ->
  In start (getVertices g) -> reachable g start end_ ->
  exists r c,
    dijkstra g start end_ = Return r /\
    is_path g start end_ r /\ path_cost g r = Some c /\
    (forall q cq, is_path g start end_ q -> path_cost g q = Some cq ->
                  (c <= cq)%Z).
Proof.
  intros Hb Hw Hnn Htrue Hs (p & Hp). apply built_wf in Hb.
  destruct (reachable_wpath g start Hb Hw (length p) p end_ eq_refl Hp)
    as (c0 & Hc0).
  assert (Hend : In end_ (getVertices g)).
  { apply is_path_inv in Hp.
    destruct Hp as [[_ <-]|(q & u & _ & _ & He)]; auto.
    apply edgeb_stored in He. destruct He as (w & Hin).
    now destruct (stored_neighbors_wf g u end_ w Hb Hin) as (_ & ? & _). }
  unfold dijkstra.
  destruct (dijkstra_init start (dict_keys (adjacentList g)) [] [] [])
    as [[distances previous] queue] eqn:Hinit.
  destruct (dijkstra_init_full g start Hb distances previous queue Hs Hinit)
    as [Hf Hq].
  destruct (dijkstra_loop_optimal g start Hb Hw Hnn end_ c0 Hs Htrue Hc0
              (S (length queue)) [] distances previous queue Hf)
    as (r & c & Hrun & Hr & Hc & Hopt).
  - now rewrite Hq.
  - lia.
  - rewrite Hrun. cbn [bind]. rewrite rev_involutive.
    exists r, c.
    assert (Hr' : start :: tl r = r).
    { destruct Hr as (Hhd & _). destruct r; simpl in *; congruence. }
    rewrite Hr'. repeat split; try apply Hr; auto.
    intros q cq Hq' Hcq. apply Hopt.
    apply (path_cost_wpath g start (length q) q end_ cq eq_refl Hq' Hcq).
Qed.

(** ** DFS: the call returns, and what it returns is a path *)

Lemma ptree_edges_path (g : Graph) (start : V) (path : dict (option V))
  (v : V) (r : list V) :
  (forall v u, dict_get v path = Some (Some u) -> edgeb g u v = true) ->
  ptree start path v r -> is_path g start v r.
Proof.
  intros He Ht. induction Ht as [Hs|u v r Ht IH Hp].
  - apply is_path_one.
  - apply is_path_snoc with (u := u); auto.
Qed.

Lemma dfs_route_ptree (start : V) (path : dict (option V)) (v : V)
  (r : list V) :
  ptree start path v r -> NoDup r ->
  forall fuel acc, length r <= fuel ->
    dfs_route fuel start path v acc = Return (acc ++ tl (rev r)).
Proof.
  intros Ht. induction Ht as [Hs|u v r Ht IH Hp]; intros Hnd fuel acc Hlen.
  - destruct fuel as [|fuel]; simpl in Hlen; [lia|].
    simpl. rewrite key_eqb_refl. simpl. now rewrite app_nil_r.
  - rewrite length_app in Hlen. simpl in Hlen.
    destruct fuel as [|fuel]; [lia|].
    destruct (ptree_ends Ht) as [Hhd (r' & Hr)].
    assert (Hndr : NoDup r /\ ~ In v r).
    { apply NoDup_rev in Hnd. rewrite rev_app_distr in Hnd. simpl in Hnd.
      inversion Hnd as [|? ? Hni Hnd']; subst. split.
      - apply NoDup_rev in Hnd'. now rewrite rev_involutive in Hnd'.
      - now rewrite in_rev. }
    destruct Hndr as [Hndr Hvr].
    assert (Hvs : key_eqb v start = false).
    { apply key_eqb_neq. intros ->. apply Hvr.
      destruct r as [|a r0]; [now destruct r'|].
      simpl in Hhd. injection Hhd as ->. now left. }
    simpl. rewrite Hvs. cbn [negb]. unfold dict_index. rewrite Hp. cbn [bind].
    rewrite IH; auto; [|lia].
    f_equal. rewrite rev_app_distr. simpl.
    rewrite Hr, rev_app_distr. simpl. now rewrite <- app_assoc.
Qed.

Lemma dfs_push_tree (g : Graph) (start avoid vertex : V)
  (l : list (V * Weight)) :
  (forall n w, In (n, w) l -> edgeb g vertex n = true) ->
  forall path stack path' stack',
    dfs_push avoid vertex path stack l = (path', stack') ->
    dict_mem vertex path = true ->
    dfs_tree g start avoid path ->
    (forall v, In v stack -> dict_mem v path = true) ->
    dfs_tree g start avoid path' /\
    (forall v, In v stack' -> dict_mem v path' = true).
Proof.
  intros Hl. induction l as [|[n w] l IH]; simpl;
    intros path stack path' stack' Hrun Hvx Htree Hst.
  - injection Hrun as <- <-. auto.
  - assert (Hl' : forall n w, In (n, w) l -> edgeb g vertex n = true)
      by (intros n' w' Hin; apply (Hl n' w'); now right).
    specialize (IH Hl').
    destruct (key_eqb_spec n avoid) as [->|Hne]; [eauto|].
    destruct (dict_mem n path) eqn:Hm; simpl in Hrun; [eauto|].
    destruct Htree as (Hs & He & Hk).
    assert (Hfresh : forall y, dict_mem y path = true -> n <> y)
      by (intros y Hy ->; congruence).
    assert (Hsame : forall y, dict_mem y path = true ->
               dict_get y (dict_set n (Some vertex) path) = dict_get y path)
      by (intros y Hy; apply dict_get_set_other; auto).
    apply IH in Hrun; auto.
    + apply dict_mem_set. auto.
    + split; [|split].
      * rewrite Hsame; auto. unfold dict_mem. now rewrite Hs.
      * intros v u Hg. apply dict_get_set_cases in Hg.
        destruct Hg as [[-> [= <-]]|[_ Hg]]; auto.
        apply (Hl n w). now left.
      * intros k Hkm. apply dict_mem_set in Hkm.
        destruct Hkm as [->|Hkm].
        -- split; auto.
           destruct (Hk vertex Hvx) as (_ & r & Ht & Hnd & Hin).
           exists (r ++ [n]). split; [|split].
           ++ apply ptree_step with (u := vertex).
              ** apply ptree_stable with (previous := path); auto.
              ** apply dict_get_set_same.
           ++ apply NoDup_rev in Hnd. apply (NoDup_cons n) in Hnd.
              ** apply NoDup_rev in Hnd. simpl in Hnd.
                 now rewrite rev_involutive in Hnd.
              ** rewrite <- in_rev. intros Hn. apply Hin in Hn. congruence.
           ++ intros y Hy. apply dict_mem_set. apply in_app_or in Hy.
              destruct Hy as [Hy|[<-|[]]]; auto.
        -- destruct (Hk k Hkm) as (Hka & r & Ht & Hnd & Hin). split; auto.
           exists r. split; [|split]; auto.
           ++ apply ptree_stable with (previous := path); auto.
           ++ intros y Hy. apply dict_mem_set. auto.
    + intros v Hin. apply dict_mem_set. apply in_app_or in Hin.
      destruct Hin as [Hin|[<-|[]]]; auto.
Qed.

Lemma dfs_loop_tree (g : Graph) (start end_ avoid : V) :
  forall fuel path stack path',
    dfs_loop fuel g end_ avoid path stack = Return path' ->
    dfs_tree g start avoid path ->
    (forall v, In v stack -> dict_mem v path = true) ->
    dfs_tree g start avoid path'.
Proof.
  induction fuel as [|fuel IH]; simpl; intros path stack path' Hrun Htree Hst;
    [discriminate|].
  destruct (list_pop stack) as [[rest vertex]|] eqn:Hpop.
  - apply list_pop_Some in Hpop. subst stack.
    destruct (key_eqb vertex end_); [now injection Hrun as <-|].
    unfold dict_index in Hrun.
    destruct (dict_get vertex (adjacentList g)) as [l|] eqn:Hg; [|discriminate].
    cbn [bind] in Hrun.
    destruct (dfs_push avoid vertex path rest l) as [path1 stack1] eqn:Hpush.
    apply (dfs_push_tree g start) in Hpush; auto.
    + destruct Hpush as [Ht1 Hs1]. eapply IH; eauto.
    + intros n w Hin. apply edgeb_true. eauto.
    + apply Hst. apply in_or_app. right. now left.
    + intros v Hin. apply Hst. apply in_or_app. now left.
  - now injection Hrun as <-.
Qed.

(** On a graph that satisfies the class invariant, [dfs] from a vertex
    returns: the empty list, or a path from [start] to [end_] that does not
    pass through [avoid]. *)
Lemma dfs_returns_path (g : Graph) (start end_ avoid : V) :
  wf g -> In start (getVertices g) -> avoid <> start ->
  exists r, dfs g start end_ avoid = Return r /\
            (r = [] \/ (is_path g start end_ r /\ ~ In avoid r)).
Proof.
  intros Hwf Hs Hne. unfold dfs.
  destruct (dfs_loop_total g start end_ avoid Hwf
              (S (S (length (adjacentList g) + edge_count g)))
              [(start, None)] [start]) as (path & Hrun & _).
  - split.
    + intros k Hk. unfold dict_mem in Hk. simpl in Hk.
      destruct (key_eqb_spec start k) as [Heq|Hneq]; [subst k|discriminate].
      exists [start]. split; [apply is_path_one|].
      intros [Heq|[]]. congruence.
    + intros v [<-|[]]. split; auto.
      unfold dict_mem. simpl. now rewrite key_eqb_refl.
  - apply dfs_measure_init.
  - assert (Hinit : forall k, dict_mem k [(start, @None V)] = true -> k = start).
    { intros k Hk. unfold dict_mem in Hk. simpl in Hk.
      destruct (key_eqb_spec start k); [auto | discriminate]. }
    assert (Htree : dfs_tree g start avoid path).
    { apply (dfs_loop_tree g start end_ avoid _ _ _ _ Hrun).
      - split; [|split].
        + simpl. now rewrite key_eqb_refl.
        + simpl. intros v u. destruct (key_eqb start v); discriminate.
        + intros k Hk. apply Hinit in Hk. subst k. split; auto.
          exists [start]. split; [|split].
          * constructor. simpl. now rewrite key_eqb_refl.
          * constructor; [intros [] | constructor].
          * intros y [<-|[]]. unfold dict_mem. simpl. now rewrite key_eqb_refl.
      - intros v [<-|[]]. unfold dict_mem. simpl. now rewrite key_eqb_refl. }
    rewrite Hrun. cbn [bind].
    destruct (dict_mem end_ path) eqn:Hm; cbn [negb]; [|eauto].
    destruct Htree as (Hstart & He & Hk).
    destruct (Hk end_ Hm) as (_ & r & Ht & Hnd & Hin).
    assert (Hlen : length r <= S (length path)).
    { assert (Hsub : incl r (dict_keys path)).
      { intros y Hy. apply dict_mem_In. auto. }
      pose proof (NoDup_incl_length Hnd Hsub) as Hle.
      unfold dict_keys in Hle. rewrite length_map in Hle. lia. }
    rewrite (dfs_route_ptree start path end_ r Ht Hnd _ _ Hlen). cbn [bind].
    destruct (ptree_ends Ht) as [_ (r' & Hr)].
    assert (Hrev : rev ([end_] ++ tl (rev r)) = r).
    { rewrite Hr, (rev_app_distr r' [end_]). simpl.
      now rewrite rev_involutive. }
    rewrite Hrev. exists r. split; auto. right. split.
    + now apply ptree_edges_path with (path := path).
    + intros Ha. apply Hin in Ha. now destruct (Hk avoid Ha).
Qed.

(** * Further properties of the class *)

(** ** Mutation and query *)

(** X1: [addVertex(v)] on a vertex changes nothing; on a new [v] it appends
    [v] to [getVertices()], gives it an empty neighbor list and leaves the
    neighbor list of every other vertex. *)
Theorem addVertex_new_or_known (g : Graph) (v : V) :
  (In v (getVertices g) -> addVertex g v = g) /\
  (~ In v (getVertices g) ->
   getVertices (addVertex g v) = getVertices g ++ [v] /\
   getNeighbors (addVertex g v) v = Return [] /\
   forall u, u <> v -> getNeighbors (addVertex g v) u = getNeighbors g u).
Proof.
  split.
  - intros Hin. apply dict_mem_In in Hin. unfold addVertex. now rewrite Hin.
  - intros Hn. apply dict_mem_false in Hn as Hm. split; [|split].
    + rewrite addVertex_keys. now rewrite Hm.
    + unfold getNeighbors, dict_index. rewrite addVertex_get, key_eqb_refl.
      unfold stored_neighbors. unfold dict_mem in Hm.
      now destruct (dict_get v (adjacentList g)).
    + intros u Hu. unfold getNeighbors, dict_index. rewrite addVertex_get.
      apply not_eq_sym in Hu. apply key_eqb_neq in Hu. now rewrite Hu.
Qed.

(** X2: [getVertices()] of a built graph never lists a vertex twice. *)
Theorem getVertices_NoDup (g : Graph) : built g -> NoDup (getVertices g).
Proof. intros Hb. apply built_wf in Hb. apply Hb. Qed.

Lemma addEdge_getVertices (g : Graph) (u v : V) (w : Weight) :
  getVertices (fst (addEdge g u v w))
  = getVertices (addVertex (addVertex g u) v).
Proof.
  rewrite addEdge_unfold.
  set (g2 := addVertex (addVertex g u) v).
  assert (H3 : forall k l g0, In k (getVertices g0) ->
             getVertices (set_adjacentList g0 (dict_set k l (adjacentList g0)))
             = getVertices g0).
  { intros k l g0 Hk. unfold getVertices; simpl. rewrite dict_keys_set.
    apply dict_mem_In in Hk. now rewrite Hk. }
  assert (Hu : In u (getVertices g2))
    by (unfold g2; apply addVertex_keeps, addVertex_known).
  assert (Hv : In v (getVertices g2)) by (unfold g2; apply addVertex_known).
  destruct (weighted g && _); simpl; auto.
  destruct (directed g); simpl.
  - now rewrite H3.
  - rewrite H3; rewrite H3; auto.
Qed.

Lemma addEdge_flags (g : Graph) (u v : V) (w : Weight) :
  directed (fst (addEdge g u v w)) = directed g /\
  weighted (fst (addEdge g u v w)) = weighted g.
Proof.
  rewrite addEdge_unfold.
  destruct (addVertex_flags (addVertex g u) v) as [Hd Hw].
  destruct (addVertex_flags g u) as [Hd' Hw'].
  destruct (weighted g && _); simpl; [split; congruence|].
  destruct (directed g) eqn:E; simpl; split; congruence.
Qed.

Lemma addEdge_stored_neighbors_any (g : Graph) (u v : V) (weight : Weight)
  (x : V) :
  exists more,
    stored_neighbors (fst (addEdge g u v weight)) x
    = stored_neighbors g x ++ more /\
    (snd (addEdge g u v weight) <> Return tt -> more = []).
Proof.
  destruct (snd (addEdge g u v weight)) as [[]| |] eqn:Hs.
  - rewrite addEdge_stored_neighbors by assumption.
    eexists. split; [reflexivity|]. congruence.
  - exists []. rewrite app_nil_r. split; auto.
    rewrite addEdge_unfold in *.
    destruct (weighted g && _); simpl in *.
    + now rewrite !addVertex_stored_neighbors.
    + destruct (directed g); discriminate.
  - exfalso. rewrite addEdge_unfold in Hs.
    destruct (weighted g && _); [|destruct (directed g)]; discriminate.
Qed.

(** X3: [addEdge] only adds: whether it returns or raises, the old
    [getVertices()] is a prefix of the new one, the old neighbor list of every
    vertex is a prefix of its new list, and both flags stay as they were. *)
Theorem addEdge_only_adds (g : Graph) (src dest : V) (weight : Weight) :
  (exists new, getVertices (fst (addEdge g src dest weight))
               = getVertices g ++ new) /\
  (forall x l, getNeighbors g x = Return l ->
     exists more, getNeighbors (fst (addEdge g src dest weight)) x
                  = Return (l ++ more)) /\
  directed (fst (addEdge g src dest weight)) = directed g /\
  weighted (fst (addEdge g src dest weight)) = weighted g.
Proof.
  split; [|split; [|apply addEdge_flags]].
  - rewrite addEdge_getVertices, (addVertex_keys (addVertex g src) dest),
      (addVertex_keys g src).
    destruct (dict_mem src (adjacentList g));
      destruct (dict_mem dest _); rewrite <- ?app_assoc; eauto.
    exists []. now rewrite app_nil_r.
  - intros x l Hl. unfold getNeighbors in *. apply dict_index_Return in Hl.
    destruct (addEdge_stored_neighbors_any g src dest weight x) as (more & Hm & _).
    exists more. unfold dict_index. rewrite known_get.
    + rewrite Hm. unfold stored_neighbors. now rewrite Hl.
    + apply addEdge_known. left. apply dict_mem_In. unfold dict_mem.
      now rewrite Hl.
Qed.

Lemma getWeight_scan_app (v : V) (l l' : list (V * Weight)) :
  getWeight_scan v (l ++ l') =
  if existsb (fun e => key_eqb (fst e) v) l
  then getWeight_scan v l else getWeight_scan v l'.
Proof.
  induction l as [|[n w] l IH]; simpl; auto.
  destruct (key_eqb n v); simpl; auto.
Qed.

Lemma getWeight_scan_In (v : V) (l : list (V * Weight)) :
  existsb (fun e => key_eqb (fst e) v) l = true ->
  In (v, getWeight_scan v l) l.
Proof.
  induction l as [|[n w] l IH]; simpl; [discriminate|].
  destruct (key_eqb_spec n v) as [->|Hne]; simpl; auto.
Qed.

(** X4: in a built weighted graph every stored edge carries a number:
    [getWeight(u, v)] returns the weight of a stored entry of [u], never
    [None], whenever an edge from [u] to [v] is stored. *)
Theorem weighted_edges_have_weights (g : Graph) (u v : V) :
  built g -> weighted g = true -> edgeb g u v = true ->
  exists w, getWeight g u v = Return (Some w) /\
            In (v, Some w) (stored_neighbors g u).
Proof.
  intros Hb Hw He. apply built_wf in Hb.
  unfold edgeb in He. unfold getWeight, dict_index, stored_neighbors.
  destruct (dict_get u (adjacentList g)) as [l|] eqn:Hg; [|discriminate].
  cbn [bind]. apply getWeight_scan_In in He.
  destruct (wf_neighbors g u l Hb Hg v _ He) as (_ & _ & Hsome).
  destruct (getWeight_scan v l) as [w|]; [eauto | now destruct (Hsome Hw)].
Qed.

(** X5: a built undirected graph is symmetric: [(v, w)] is in the neighbor
    list of [u] exactly when [(u, w)] is in the neighbor list of [v]. *)
Theorem undirected_symmetric (g : Graph) (u v : V) (w : Weight) :
  built g -> directed g = false ->
  (In (v, w) (stored_neighbors g u) <-> In (u, w) (stored_neighbors g v)).
Proof.
  intros Hb. revert u v w. induction Hb as [d wt|g x Hb IH|g s t wt Hb IH];
    intros u v w Hd.
  - unfold stored_neighbors. simpl. tauto.
  - destruct (addVertex_flags g x) as [Hd' _]. rewrite Hd' in Hd.
    rewrite !addVertex_stored_neighbors. auto.
  - destruct (addEdge_flags g s t wt) as [Hd' _]. rewrite Hd' in Hd.
    specialize (IH u v w Hd).
    destruct (snd (addEdge g s t wt)) as [[]| |] eqn:Hs.
    + rewrite !addEdge_stored_neighbors by assumption. rewrite Hd. simpl.
      rewrite !in_app_iff, IH.
      destruct (key_eqb_spec s u) as [Hsu|Hsu];
        destruct (key_eqb_spec t v) as [Htv|Htv];
        destruct (key_eqb_spec s v) as [Hsv|Hsv];
        destruct (key_eqb_spec t u) as [Htu|Htu]; simpl;
        intuition congruence.
    + destruct (addEdge_stored_neighbors_any g s t wt u) as (m1 & -> & H1).
      destruct (addEdge_stored_neighbors_any g s t wt v) as (m2 & -> & H2).
      rewrite H1, H2, !app_nil_r by (rewrite Hs; discriminate). auto.
    + destruct (addEdge_stored_neighbors_any g s t wt u) as (m1 & -> & H1).
      destruct (addEdge_stored_neighbors_any g s t wt v) as (m2 & -> & H2).
      rewrite H1, H2, !app_nil_r by (rewrite Hs; discriminate). auto.
Qed.

(** X6: insert then look up.  After a successful [addEdge(u, v, w)],
    [getWeight(u, v)] returns the weight of the first entry for [v] that [u]
    had before the call, if it had one (parallel edges: the first one wins),
    and otherwise the weight the call stored. *)
Theorem addEdge_then_getWeight (g : Graph) (u v : V) (w : Weight) :
  snd (addEdge g u v w) = Return tt ->
  getWeight (fst (addEdge g u v w)) u v =
  Return (if edgeb g u v then getWeight_scan v (stored_neighbors g u)
          else stored_weight g w).
Proof.
  intros Hok. unfold getWeight, dict_index.
  rewrite known_get by (apply addEdge_known; auto).
  cbn [bind]. rewrite addEdge_stored_neighbors by assumption.
  rewrite key_eqb_refl, getWeight_scan_app.
  assert (He : edgeb g u v
               = existsb (fun e => key_eqb (fst e) v) (stored_neighbors g u)).
  { unfold edgeb, stored_neighbors.
    now destruct (dict_get u (adjacentList g)). }
  rewrite He. destruct (existsb _ (stored_neighbors g u)); auto.
  simpl. now rewrite key_eqb_refl.
Qed.

Lemma edge_count_set (g : Graph) (k : V) (l l' : list (V * Weight)) :
  dict_get k (adjacentList g) = Some l ->
  edge_count (set_adjacentList g (dict_set k l' (adjacentList g))) + length l
  = edge_count g + length l'.
Proof.
  unfold edge_count. simpl.
  induction (adjacentList g) as [|[k0 l0] adj IH]; simpl; [discriminate|].
  destruct (key_eqb k0 k); simpl.
  - intros [= ->]. rewrite !length_app. lia.
  - intros Hg. specialize (IH Hg). rewrite !length_app. lia.
Qed.

(** X7: a successful [addEdge] stores one more entry on a directed graph
    and two more on an undirected graph (also for a self-loop). *)
Theorem addEdge_edge_count (g : Graph) (u v : V) (w : Weight) :
  snd (addEdge g u v w) = Return tt ->
  edge_count (fst (addEdge g u v w))
  = edge_count g + (if directed g then 1 else 2).
Proof.
  rewrite addEdge_unfold.
  set (g2 := addVertex (addVertex g u) v).
  set (g3 := set_adjacentList g2 _).
  assert (Hu : In u (getVertices g2))
    by (unfold g2; apply addVertex_keeps, addVertex_known).
  assert (Hv3 : In v (getVertices g3)).
  { unfold g3, getVertices; simpl. rewrite dict_keys_set.
    apply dict_mem_In in Hu. rewrite Hu. unfold g2. apply addVertex_known. }
  assert (H2 : edge_count g2 = edge_count g)
    by (unfold g2; now rewrite !addVertex_edge_count).
  assert (H3 : edge_count g3 = edge_count g + 1).
  { pose proof (edge_count_set g2 u _
                  (stored_neighbors g2 u ++ [(v, stored_weight g w)])
                  (known_get g2 u Hu)) as He.
    fold g3 in He. rewrite length_app in He. simpl in He. lia. }
  destruct (weighted g && _); simpl; [discriminate|].
  destruct (directed g); simpl; intros _; auto.
  pose proof (edge_count_set g3 v _
                (stored_neighbors g3 v ++ [(u, stored_weight g w)])
                (known_get g3 v Hv3)) as He.
  rewrite length_app in He. simpl in He. lia.
Qed.

(** ** [bfs] *)

Lemma bfs_enqueue_spec (l : list (V * Weight)) :
  forall queue, bfs_enqueue queue l = queue ++ map fst l.
Proof.
  induction l as [|[n w] l IH]; simpl; intros queue.
  - now rewrite app_nil_r.
  - rewrite IH. now rewrite <- app_assoc.
Qed.

Lemma closed_reachable (g : Graph) (start : V) (visited : list V) :
  In start visited ->
  (forall v n, In v visited -> edgeb g v n = true -> In n visited) ->
  forall v, reachable g start v -> In v visited.
Proof.
  intros Hs Hclosed v (q & Hq).
  remember (length q) as n eqn:Hn. revert q v Hn Hq.
  induction n as [|n IH]; intros q v Hn Hq.
  - apply is_path_length in Hq. lia.
  - apply is_path_inv in Hq as Hcase.
    destruct Hcase as [[-> <-]|(q' & u & -> & Hq' & He)]; auto.
    rewrite length_app in Hn. simpl in Hn.
    apply (Hclosed u v); auto. apply (IH q' u); auto. lia.
Qed.

Lemma bfs_loop_visits (g : Graph) (start : V) :
  wf g ->
  forall fuel visited queue,
    bfs_visit_inv g start visited queue ->
    length queue + unvisited_edges (adjacentList g) visited < fuel ->
    exists r,
      bfs_loop fuel g visited queue = Return r /\
      hd_error r = Some start /\ NoDup r /\
      (forall v, In v r <-> reachable g start v).
Proof.
  intros Hwf. induction fuel as [|fuel IH]; intros visited queue Hinv Hlt; [lia|].
  destruct queue as [|vertex rest]; cbn [bfs_loop].
  - exists visited. split; auto.
    pose proof (bv_head Hinv) as Hhd. rewrite app_nil_r in Hhd.
    split; auto. split; [apply (bv_nodup Hinv)|].
    intros v. split.
    + intros Hv. apply (bv_reach Hinv). now rewrite app_nil_r.
    + apply closed_reachable.
      * destruct visited; simpl in Hhd; [discriminate|].
        injection Hhd as ->. now left.
      * intros x n Hx He. destruct (bv_closed Hinv x n Hx He) as [?|[]]. auto.
  - simpl in Hlt.
    destruct (bv_reach Hinv vertex) as [Hr Hk];
      [apply in_or_app; right; now left|].
    destruct (list_mem vertex visited) eqn:Hm; cbn [negb].
    + apply list_mem_In in Hm. apply IH; [|lia]. constructor.
      * apply (bv_nodup Hinv).
      * intros v Hv. apply (bv_reach Hinv). apply in_app_or in Hv.
        apply in_or_app. destruct Hv; auto. right. now right.
      * pose proof (bv_head Hinv) as Hhd.
        destruct visited; [destruct Hm | exact Hhd].
      * intros v n Hv He.
        destruct (bv_closed Hinv v n Hv He) as [?|[<-|?]]; auto.
    + apply list_mem_false in Hm as Hnv.
      apply known_get in Hk as Hg. unfold dict_index. rewrite Hg. cbn [bind].
      rewrite bfs_enqueue_spec. apply IH.
      * constructor.
        -- pose proof (bv_nodup Hinv) as Hnd.
           apply NoDup_rev in Hnd. apply (NoDup_cons vertex) in Hnd.
           ++ apply NoDup_rev in Hnd. simpl in Hnd.
              now rewrite rev_involutive in Hnd.
           ++ now rewrite <- in_rev.
        -- intros v Hv. rewrite !in_app_iff in Hv.
           destruct Hv as [[Hv|[<-|[]]]|[Hv|Hv]]; auto.
           ++ apply (bv_reach Hinv). apply in_or_app. now left.
           ++ apply (bv_reach Hinv). apply in_or_app. right. now right.
           ++ apply in_map_iff in Hv. destruct Hv as ([n w] & <- & Hin).
              simpl.
              destruct (wf_neighbors g vertex _ Hwf Hg n w Hin) as (He & Hn & _).
              split; auto.
              apply reachable1_reachable.
              now apply reachable_step with (u := vertex).
        -- pose proof (bv_head Hinv) as Hhd.
           destruct visited; simpl in *; auto.
        -- intros v n Hv He. apply in_app_or in Hv. rewrite !in_app_iff.
           destruct Hv as [Hv|[<-|[]]].
           ++ destruct (bv_closed Hinv v n Hv He) as [?|[<-|?]]; auto.
              left. right. now left.
           ++ right. right. rewrite (edgeb_neighbors g vertex n _ Hg) in He.
              apply existsb_exists in He. destruct He as (e & Hin & Heq).
              apply key_eqb_eq in Heq. apply in_map_iff. eauto.
      * rewrite length_app, length_map.
        pose proof (unvisited_edges_visit (adjacentList g) visited vertex _ Hg Hm).
        lia.
Qed.

(** X8: on a built graph [bfs(start)] from a vertex returns; the list it
    returns begins with [start], holds no vertex twice, and holds exactly the
    vertices that can be reached from [start]. *)
Theorem bfs_visits_reachable (g : Graph) (start : V) :
  built g -> In start (getVertices g) ->
  exists visited,
    bfs g start = Return visited /\
    hd_error visited = Some start /\ NoDup visited /\
    (forall v, In v visited <-> reachable g start v).
Proof.
  intros Hb Hs. apply built_wf in Hb. unfold bfs.
  apply bfs_loop_visits; auto.
  - constructor; simpl.
    + constructor.
    + intros v [<-|[]]. split; auto. apply reachable_refl.
    + reflexivity.
    + intros v n [].
  - rewrite unvisited_edges_nil. simpl. lia.
Qed.

(** ** [dfs]: a path is found exactly when one avoids [avoid] *)

Lemma dfs_push_closed (avoid vertex : V) (l : list (V * Weight)) :
  forall path stack path' stack',
    dfs_push avoid vertex path stack l = (path', stack') ->
    (forall k, dict_mem k path = true -> dict_mem k path' = true) /\
    (forall n w, In (n, w) l -> n <> avoid -> dict_mem n path' = true) /\
    (forall k, dict_mem k path' = true ->
               dict_mem k path = true \/ In k stack') /\
    (forall k, In k stack -> In k stack') /\
    ((forall v, In v stack -> dict_mem v path = true) ->
     forall v, In v stack' -> dict_mem v path' = true).
Proof.
  induction l as [|[n w] l IH]; simpl; intros path stack path' stack' Hrun.
  - injection Hrun as <- <-. repeat split; auto.
  - assert (Hstep : forall path0 stack0,
               dfs_push avoid vertex path0 stack0 l = (path', stack') ->
               (forall k, dict_mem k path = true -> dict_mem k path0 = true) ->
               (n <> avoid -> dict_mem n path0 = true) ->
               (forall k, dict_mem k path0 = true ->
                          dict_mem k path = true \/ In k stack0) ->
               (forall k, In k stack -> In k stack0) ->
               ((forall v, In v stack -> dict_mem v path = true) ->
                forall v, In v stack0 -> dict_mem v path0 = true) ->
               (forall k, dict_mem k path = true -> dict_mem k path' = true) /\
               (forall n0 w0, In (n0, w0) ((n, w) :: l) -> n0 <> avoid ->
                              dict_mem n0 path' = true) /\
               (forall k, dict_mem k path' = true ->
                          dict_mem k path = true \/ In k stack') /\
               (forall k, In k stack -> In k stack') /\
               ((forall v, In v stack -> dict_mem v path = true) ->
                forall v, In v stack' -> dict_mem v path' = true)).
    { intros path0 stack0 Hrun0 H1 H2 H3 H4 H5.
      destruct (IH _ _ _ _ Hrun0) as (I1 & I2 & I3 & I4 & I5).
      split; [auto|]. split; [|split; [|split]].
      - intros n0 w0 [[= <- <-]|Hin] Hn0; eauto.
      - intros k Hk. destruct (I3 k Hk) as [Hk0|?]; auto.
        destruct (H3 k Hk0); auto.
      - auto.
      - intros Hst. apply I5. auto. }
    destruct (key_eqb_spec n avoid) as [->|Hne].
    + apply (Hstep path stack); auto; congruence.
    + destruct (dict_mem n path) eqn:Hm; simpl in Hrun.
      * apply (Hstep path stack); auto.
      * apply (Hstep _ _ Hrun).
        -- intros k Hk. apply dict_mem_set. auto.
        -- intros _. apply dict_mem_set. auto.
        -- intros k Hk. apply dict_mem_set in Hk. destruct Hk as [->|Hk]; auto.
           right. apply in_or_app. right. now left.
        -- intros k Hk. apply in_or_app. now left.
        -- intros Hst v Hv. apply dict_mem_set. apply in_app_or in Hv.
           destruct Hv as [Hv|[<-|[]]]; auto.
Qed.

Lemma dfs_loop_closed (g : Graph) (end_ avoid : V) :
  forall fuel path stack path',
    dfs_loop fuel g end_ avoid path stack = Return path' ->
    dfs_closed g avoid path stack ->
    (forall v, In v stack -> dict_mem v path = true) ->
    dict_mem end_ path' = true \/ dfs_closed g avoid path' [].
Proof.
  induction fuel as [|fuel IH]; simpl; intros path stack path' Hrun Hcl Hst;
    [discriminate|].
  destruct (list_pop stack) as [[rest vertex]|] eqn:Hpop.
  - apply list_pop_Some in Hpop. subst stack.
    assert (Hvx : dict_mem vertex path = true)
      by (apply Hst; apply in_or_app; right; now left).
    destruct (key_eqb_spec vertex end_) as [Heq|Hne].
    + injection Hrun as <-. left. now rewrite <- Heq.
    + unfold dict_index in Hrun.
      destruct (dict_get vertex (adjacentList g)) as [l|] eqn:Hg;
        [|discriminate].
      cbn [bind] in Hrun.
      destruct (dfs_push avoid vertex path rest l) as [path1 stack1] eqn:Hpush.
      destruct (dfs_push_closed _ _ _ _ _ _ _ Hpush) as (P1 & P2 & P3 & P4 & P5).
      apply (IH _ _ _ Hrun).
      * intros k Hk. destruct (P3 k Hk) as [Hk0|?]; auto.
        destruct (Hcl k Hk0) as [Hin|Hclosed].
        -- apply in_app_or in Hin. destruct Hin as [Hin|[<-|[]]]; auto.
           right. intros n He Hn.
           rewrite (edgeb_neighbors g vertex n l Hg) in He.
           apply existsb_exists in He. destruct He as ([n' w] & Hin & Heq).
           apply key_eqb_eq in Heq. simpl in Heq. subst n'. eauto.
        -- right. intros n He Hn. auto.
      * apply P5. intros v Hv. apply Hst. apply in_or_app. now left.
  - apply list_pop_None in Hpop. subst stack. injection Hrun as <-. now right.
Qed.

Lemma avoiding_discovered (g : Graph) (start avoid : V)
  (path : dict (option V)) :
  dict_mem start path = true -> dfs_closed g avoid path [] ->
  forall v, reachable_avoiding g start avoid v -> dict_mem v path = true.
Proof.
  intros Hs Hcl v (q & Hq & Hav).
  remember (length q) as n eqn:Hn. revert q v Hn Hq Hav.
  induction n as [|n IH]; intros q v Hn Hq Hav.
  - apply is_path_length in Hq. lia.
  - apply is_path_inv in Hq as Hcase.
    destruct Hcase as [[-> <-]|(q' & u & -> & Hq' & He)]; auto.
    rewrite length_app in Hn. simpl in Hn.
    assert (Hu : dict_mem u path = true).
    { apply (IH q' u); auto; [lia|].
      intros Hin. apply Hav. apply in_or_app. now left. }
    destruct (Hcl u Hu) as [[]|Hclosed]. apply Hclosed; auto.
    intros ->. apply Hav. apply in_or_app. right. now left.
Qed.

Lemma dfs_inv_init (g : Graph) (start avoid : V) :
  In start (getVertices g) -> avoid <> start ->
  dfs_inv g start avoid [(start, None)] [start] /\
  dfs_tree g start avoid [(start, None)] /\
  (forall v, In v [start] -> dict_mem v [(start, @None V)] = true).
Proof.
  intros Hs Hne.
  assert (Hinit : forall k, dict_mem k [(start, @None V)] = true -> k = start).
  { intros k Hk. unfold dict_mem in Hk. simpl in Hk.
    destruct (key_eqb_spec start k); [auto | discriminate]. }
  assert (Hmem : dict_mem start [(start, @None V)] = true)
    by (unfold dict_mem; simpl; now rewrite key_eqb_refl).
  split; [|split].
  - split.
    + intros k Hk. apply Hinit in Hk. subst k.
      exists [start]. split; [apply is_path_one|]. intros [Heq|[]]. congruence.
    + intros v [<-|[]]. auto.
  - split; [|split].
    + simpl. now rewrite key_eqb_refl.
    + simpl. intros v u. destruct (key_eqb start v); discriminate.
    + intros k Hk. apply Hinit in Hk. subst k. split; auto.
      exists [start]. split; [|split].
      * constructor. simpl. now rewrite key_eqb_refl.
      * constructor; [intros [] | constructor].
      * intros y [<-|[]]. exact Hmem.
  - intros v [<-|[]]. exact Hmem.
Qed.

Lemma dfs_finish (g : Graph) (start end_ avoid : V) (path : dict (option V)) :
  dfs_tree g start avoid path -> dict_mem end_ path = true ->
  exists r,
    (route <- dfs_route (S (length path)) start path end_ [end_] ;;
     Return (rev route)) = Return r /\
    is_path g start end_ r /\ ~ In avoid r /\ NoDup r.
Proof.
  intros (Hstart & He & Hk) Hm.
  destruct (Hk end_ Hm) as (_ & r & Ht & Hnd & Hin).
  assert (Hlen : length r <= S (length path)).
  { assert (Hsub : incl r (dict_keys path)).
    { intros y Hy. apply dict_mem_In. auto. }
    pose proof (NoDup_incl_length Hnd Hsub) as Hle.
    unfold dict_keys in Hle. rewrite length_map in Hle. lia. }
  rewrite (dfs_route_ptree start path end_ r Ht Hnd _ _ Hlen). cbn [bind].
  destruct (ptree_ends Ht) as [_ (r' & Hr)].
  assert (Hrev : rev ([end_] ++ tl (rev r)) = r).
  { rewrite Hr, (rev_app_distr r' [end_]). simpl.
    now rewrite rev_involutive. }
  rewrite Hrev. exists r. split; auto. split; [|split; auto].
  - now apply ptree_edges_path with (path := path).
  - intros Ha. apply Hin in Ha. now destruct (Hk avoid Ha).
Qed.

(** X9: on a built graph, with [start] a vertex other than [avoid],
    [dfs(start, end_, avoid)] returns a path from [start] to [end_] that does
    not pass through [avoid] and repeats no vertex when such a path exists,
    and the empty list when none exists. *)
Theorem dfs_finds_path (g : Graph) (start end_ avoid : V) :
  built g -> In start (getVertices g) -> avoid <> start ->
  (reachable_avoiding g start avoid end_ ->
   exists r, dfs g start end_ avoid = Return r /\
             is_path g start end_ r /\ ~ In avoid r /\ NoDup r) /\
  (~ reachable_avoiding g start avoid end_ ->
   dfs g start end_ avoid = Return []).
Proof.
  intros Hb Hs Hne. apply built_wf in Hb. split.
  - intros Hreach. unfold dfs.
    destruct (dfs_inv_init g start avoid Hs Hne) as (Hinv & Htree0 & Hst).
    destruct (dfs_loop_total g start end_ avoid Hb
                (S (S (length (adjacentList g) + edge_count g)))
                [(start, None)] [start] Hinv (dfs_measure_init g start))
      as (path & Hrun & _).
    pose proof (dfs_loop_tree g start end_ avoid _ _ _ _ Hrun Htree0 Hst)
      as Htree.
    assert (Hend : dict_mem end_ path = true).
    { destruct (dfs_loop_closed g end_ avoid _ _ _ _ Hrun) as [?|Hcl]; auto.
      - intros k Hk. left. unfold dict_mem in Hk. simpl in Hk.
        destruct (key_eqb_spec start k); [now left | discriminate].
      - apply (avoiding_discovered g start avoid path); auto.
        destruct Htree as (Hstart & _). unfold dict_mem. now rewrite Hstart. }
    rewrite Hrun. cbn [bind]. rewrite Hend. cbn [negb].
    now apply dfs_finish with (avoid := avoid).
  - now apply dfs_blocked.
Qed.

(** ** [dfs_shortest_path]: a path is found exactly when one exists *)

Lemma search_inv_init (g : Graph) (start end_ : V) :
  In start (getVertices g) -> search_inv g start end_ [] [[start]].
Proof.
  intros Hs. constructor.
  - intros p [<-|[]]. exists start. split; auto. apply is_path_one.
  - right. exists [start]. split; [now left | reflexivity].
  - intros v n [].
  - intros v [].
Qed.

Lemma search_inv_skip (g : Graph) (start end_ : V) (visited : list V)
  (p0 : list V) (rest : list (list V)) (u : V) :
  search_inv g start end_ visited (rest ++ [p0]) ->
  list_last p0 = Return u -> In u visited ->
  search_inv g start end_ visited rest.
Proof.
  intros Hinv Hlast Hu.
  assert (Hdrop : forall n,
             (exists p, In p (rest ++ [p0]) /\ list_last p = Return n) ->
             In n visited \/ exists p, In p rest /\ list_last p = Return n).
  { intros n (p & Hp & Hl). apply in_app_or in Hp.
    destruct Hp as [Hp|[<-|[]]]; [right; eauto | left; congruence]. }
  constructor.
  - intros p Hp. apply (si_paths Hinv). apply in_or_app. now left.
  - destruct (si_start Hinv) as [?|Hw]; auto.
  - intros v n Hv He. destruct (si_closed Hinv v n Hv He) as [?|Hw]; auto.
  - exact (si_not_found Hinv).
Qed.

Lemma search_inv_expand (g : Graph) (start end_ : V) (visited : list V)
  (p0 : list V) (rest : list (list V)) (u : V) (l : list (V * Weight)) :
  wf g ->
  search_inv g start end_ visited (rest ++ [p0]) ->
  list_last p0 = Return u ->
  dict_get u (adjacentList g) = Some l ->
  existsb (fun e => key_eqb (fst e) end_) l = false ->
  search_inv g start end_ (visited ++ [u])
    (rest ++ map (fun e => p0 ++ [fst e]) l).
Proof.
  intros Hwf Hinv Hlast Hg Hnone.
  assert (Hp0 : is_path g start u p0).
  { destruct (si_paths Hinv p0) as (v & Hv & _);
      [apply in_or_app; right; now left|].
    now rewrite <- (is_path_last Hv Hlast). }
  assert (Hdrop : forall n,
             (exists p, In p (rest ++ [p0]) /\ list_last p = Return n) ->
             In n (visited ++ [u]) \/
             exists p, In p (rest ++ map (fun e => p0 ++ [fst e]) l) /\
                       list_last p = Return n).
  { intros n (p & Hp & Hl). apply in_app_or in Hp.
    destruct Hp as [Hp|[<-|[]]].
    - right. exists p. split; auto. apply in_or_app. now left.
    - left. apply in_or_app. right. left. congruence. }
  constructor.
  - intros p Hp. apply in_app_or in Hp. destruct Hp as [Hp|Hp].
    + apply (si_paths Hinv). apply in_or_app. now left.
    + apply in_map_iff in Hp. destruct Hp as ([n w] & <- & Hin). simpl.
      destruct (wf_neighbors g u l Hwf Hg n w Hin) as (He & Hk & _).
      exists n. split; auto. now apply is_path_snoc with (u := u).
  - destruct (si_start Hinv) as [?|Hw]; auto.
    left. apply in_or_app. now left.
  - intros v n Hv He. apply in_app_or in Hv. destruct Hv as [Hv|[<-|[]]].
    + destruct (si_closed Hinv v n Hv He) as [?|Hw]; auto.
      left. apply in_or_app. now left.
    + right. rewrite (edgeb_neighbors g u n l Hg) in He.
      apply existsb_exists in He. destruct He as (e & Hin & Heq).
      apply key_eqb_eq in Heq. exists (p0 ++ [n]). split.
      * apply in_or_app. right. apply in_map_iff. exists e.
        split; auto. now rewrite Heq.
      * apply list_last_snoc.
  - intros v Hv. apply in_app_or in Hv. destruct Hv as [Hv|[<-|[]]].
    + exact (si_not_found Hinv v Hv).
    + now rewrite (edgeb_neighbors g u end_ l Hg).
Qed.

Lemma search_exhausted (g : Graph) (start end_ : V) (visited : list V) :
  search_inv g start end_ visited [] -> ~ reachable1 g start end_.
Proof.
  intros Hinv.
  assert (Hs : In start visited).
  { destruct (si_start Hinv) as [?|(p & [] & _)]; auto. }
  assert (Hall : forall v, reachable g start v -> In v visited).
  { apply closed_reachable; auto.
    intros v n Hv He.
    destruct (si_closed Hinv v n Hv He) as [?|(p & [] & _)]; auto. }
  intros (q & Hq & Hlen). apply is_path_inv in Hq as Hcase.
  destruct Hcase as [[-> _]|(q' & u & -> & Hq' & He)]; [simpl in Hlen; lia|].
  assert (Hu : In u visited) by (apply Hall; now exists q').
  rewrite (si_not_found Hinv u Hu) in He. discriminate.
Qed.

Lemma dfs_shortest_path_loop_complete (g : Graph) (start end_ : V) :
  wf g ->
  forall fuel visited stack,
    search_inv g start end_ visited stack ->
    length stack + unvisited_edges (adjacentList g) visited < fuel ->
    (exists q, dfs_shortest_path_loop fuel g end_ visited stack
               = Return (Some q)) \/
    (dfs_shortest_path_loop fuel g end_ visited stack = Return None /\
     ~ reachable1 g start end_).
Proof.
  intros Hwf. induction fuel as [|fuel IH]; intros visited stack Hinv Hlt; [lia|].
  cbn [dfs_shortest_path_loop].
  destruct (list_pop stack) as [[rest p0]|] eqn:Hpop.
  - apply list_pop_Some in Hpop. subst stack.
    rewrite length_app in Hlt. simpl in Hlt.
    destruct (si_paths Hinv p0) as (u & Hp0 & Hk);
      [apply in_or_app; right; now left|].
    destruct Hp0 as (Hhd & Hlast & Hwalk). rewrite Hlast. cbn [bind].
    destruct (list_mem u visited) eqn:Hm; cbn [negb].
    + apply list_mem_In in Hm. apply IH; [|lia].
      now apply search_inv_skip with (p0 := p0) (u := u).
    + apply known_get in Hk as Hg. unfold dict_index. rewrite Hg. cbn [bind].
      rewrite extend_paths_spec.
      destruct (existsb (fun e => key_eqb (fst e) end_) (stored_neighbors g u))
        eqn:Hex; [left; eauto|].
      apply IH.
      * now apply search_inv_expand.
      * rewrite length_app, length_map.
        pose proof (unvisited_edges_visit (adjacentList g) visited u _ Hg Hm).
        lia.
  - apply list_pop_None in Hpop. subst stack. right. split; auto.
    now apply search_exhausted with (visited := visited).
Qed.

(** X10: on a built graph [dfs_shortest_path(start, end_)] from a vertex
    returns: a path from [start] to [end_] with at least one edge when one
    exists, and [None] when no path from [start] to [end_] has an edge. *)
Theorem dfs_shortest_path_finds (g : Graph) (start end_ : V) :
  built g -> In start (getVertices g) ->
  ((exists q, is_path g start end_ q /\ 1 <= edges_of q) ->
   exists p, dfs_shortest_path g start end_ = Return (Some p) /\
             is_path g start end_ p /\ 1 <= edges_of p) /\
  ((forall q, is_path g start end_ q -> edges_of q = 0) ->
   dfs_shortest_path g start end_ = Return None).
Proof.
  intros Hb Hs. apply built_wf in Hb.
  destruct (dfs_shortest_path_loop_complete g start end_ Hb
              (S (S (edge_count g))) [] [[start]]) as [(p & Hrun)|[Hrun Hnone]].
  - now apply search_inv_init.
  - rewrite unvisited_edges_nil. simpl. lia.
  - fold (dfs_shortest_path g start end_) in Hrun.
    pose proof (dfs_shortest_path_sound g start end_ p Hrun) as [Hp Hlen].
    split.
    + intros _. exists p. split; auto. split; auto. now apply edges_of_ge1.
    + intros Hall. specialize (Hall p Hp). unfold edges_of in Hall. lia.
  - fold (dfs_shortest_path g start end_) in Hrun. split; auto.
    intros (q & Hq & Hq1). exfalso. apply Hnone. exists q. split; auto.
    now apply edges_of_ge1.
Qed.

(** A vertex without stored neighbors reaches no other vertex. *)
Lemma no_neighbors_unreachable (g : Graph) (s v : V) :
  stored_neighbors g s = [] -> reachable g s v -> v = s.
Proof.
  intros Hnil (p & Hp). remember (length p) as n eqn:Hn. revert p v Hn Hp.
  induction n as [|n IH]; intros p v Hn Hp.
  - apply is_path_length in Hp. lia.
  - apply is_path_inv in Hp as Hcase.
    destruct Hcase as [[-> <-]|(q & u & -> & Hq & He)]; auto.
    rewrite length_app in Hn. simpl in Hn.
    assert (u = s) by (apply (IH q u); [lia | exact Hq]). subst u.
    apply edgeb_stored in He. destruct He as (w & Hin).
    rewrite Hnil in Hin. destruct Hin.
Qed.

(** ** [dijkstra]: the first vertex popped *)

Lemma dijkstra_first_pop (g : Graph) (start : V)
  (distances : dict Dist) (previous : dict (option V)) (queue : list entry) :
  wf g -> In start (getVertices g) ->
  dijkstra_init start (dict_keys (adjacentList g)) [] [] []
  = (distances, previous, queue) ->
  (exists rest, heappop queue = Some ((Fin 0, start), rest)) /\
  dict_get start distances = Some (Fin 0) /\
  dict_get start previous = Some None.
Proof.
  intros (Hnd & _) Hs Hrun.
  rewrite dijkstra_init_lists in Hrun; auto. simpl in Hrun.
  injection Hrun as <- <- <-. fold (getVertices g).
  apply list_mem_In in Hs as Hm.
  split; [|split].
  - destruct (heappop (map (fun v => (if key_eqb v start then Fin 0 else Inf, v))
                         (getVertices g))) as [[[d x] rest]|] eqn:Hpop.
    + exists rest. f_equal. f_equal.
      pose proof (heappop_min _ _ _ Hpop (Fin 0, start)) as Hmin.
      apply heappop_Some in Hpop. destruct Hpop as (Hin & _).
      apply in_map_iff in Hin. destruct Hin as (k & [= <- <-] & Hk).
      destruct (key_eqb_spec k start) as [->|Hne]; auto.
      exfalso. simpl in Hmin.
      assert (Hq : In (Fin 0, start)
                     (map (fun v => (if key_eqb v start then Fin 0 else Inf, v))
                        (getVertices g))).
      { apply in_map_iff. exists start. rewrite key_eqb_refl. auto. }
      specialize (Hmin Hq). discriminate.
    + apply heappop_None in Hpop. apply map_eq_nil in Hpop.
      rewrite Hpop in Hs. destruct Hs.
  - rewrite (dict_get_map (fun v => if key_eqb v start then Fin 0 else Inf)).
    now rewrite Hm, key_eqb_refl.
  - rewrite (dict_get_map (fun _ => @None V)). now rewrite Hm.
Qed.

(** X11: on a built graph, weighted or not, [dijkstra(v, v)] for a vertex
    [v] returns the one-vertex path [[v]]. *)
Theorem dijkstra_same_vertex (g : Graph) (v : V) :
  built g -> In v (getVertices g) -> dijkstra g v v = Return [v].
Proof.
  intros Hb Hv. apply built_wf in Hb. unfold dijkstra.
  destruct (dijkstra_init v (dict_keys (adjacentList g)) [] [] [])
    as [[distances previous] queue] eqn:Hinit.
  destruct (dijkstra_first_pop g v distances previous queue Hb Hv Hinit)
    as ((rest & Hpop) & _ & Hp).
  cbn [dijkstra_loop]. rewrite Hpop, key_eqb_refl.
  cbn [dijkstra_walk]. unfold dict_index. rewrite Hp. reflexivity.
Qed.

(** X12: [dijkstra] needs weights.  On a built unweighted graph, when
    [start] is a vertex with at least one neighbor and [end_] is another
    vertex name, the first relaxation adds [None] to a number and the call
    raises [TypeError]. *)
Theorem dijkstra_unweighted_raises (g : Graph) (start end_ : V) :
  built g -> weighted g = false -> In start (getVertices g) ->
  start <> end_ -> stored_neighbors g start <> [] ->
  dijkstra g start end_ = Raise TypeError.
Proof.
  intros Hb Hw Hs Hne Hnb. apply built_wf in Hb. unfold dijkstra.
  destruct (dijkstra_init start (dict_keys (adjacentList g)) [] [] [])
    as [[distances previous] queue] eqn:Hinit.
  destruct (dijkstra_first_pop g start distances previous queue Hb Hs Hinit)
    as ((rest & Hpop) & Hd & _).
  cbn [dijkstra_loop]. rewrite Hpop.
  apply key_eqb_neq in Hne. rewrite Hne.
  apply dict_mem_In in Hs as Hm. rewrite Hm.
  apply known_get in Hs as Hg. unfold dict_index at 1. rewrite Hg. cbn [bind].
  destruct (stored_neighbors g start) as [|[n w] l] eqn:Hl; [congruence|].
  assert (Hnone : w = None).
  { destruct Hb as (_ & _ & Hwt). apply dict_get_In in Hg.
    apply (Hwt start _ n w Hg); auto. now left. }
  subst w. cbn [dijkstra_relax]. unfold dict_index. rewrite Hd. reflexivity.
Qed.

(** ** [bfs_shortest_path]: the path returned repeats no vertex *)

Lemma walkb_app (g : Graph) (l1 l2 : list V) (x : V) :
  walkb g (l1 ++ x :: l2) = walkb g (l1 ++ [x]) && walkb g (x :: l2).
Proof.
  induction l1 as [|a l1 IH]; [reflexivity|].
  destruct l1 as [|b l1].
  - simpl. now rewrite andb_true_r.
  - change (walkb g ((a :: b :: l1) ++ x :: l2))
      with (edgeb g a b && walkb g ((b :: l1) ++ x :: l2)).
    change (walkb g ((a :: b :: l1) ++ [x]))
      with (edgeb g a b && walkb g ((b :: l1) ++ [x])).
    rewrite IH. now rewrite andb_assoc.
Qed.

Lemma list_last_app {A} (l l' : list A) :
  l' <> [] -> list_last (l ++ l') = list_last l'.
Proof.
  intros Hne. destruct (list_pop l') as [[r e]|] eqn:Hpop.
  - apply list_pop_Some in Hpop. subst l'.
    now rewrite app_assoc, !list_last_snoc.
  - apply list_pop_None in Hpop. contradiction.
Qed.

Lemma dup_split (l : list V) :
  NoDup l \/ exists a x b c, l = a ++ x :: b ++ x :: c.
Proof.
  induction l as [|y l IH]; [left; constructor|].
  destruct IH as [Hnd|(a & x & b & c & ->)].
  - destruct (in_dec key_eq_dec y l) as [Hin|Hn].
    + right. apply in_split in Hin. destruct Hin as (b & c & ->).
      now exists [], y, b, c.
    + left. now constructor.
  - right. now exists (y :: a), x, b, c.
Qed.

(** Cutting the part of a path between two visits of [x]. *)
Lemma is_path_cut (g : Graph) (s e x : V) (a b c : list V) :
  is_path g s e (a ++ x :: b ++ x :: c) -> is_path g s e (a ++ x :: c).
Proof.
  intros (Hhd & Hlast & Hw). split; [|split].
  - destruct a; simpl in *; auto.
  - rewrite list_last_app in * by discriminate.
    change (x :: b ++ x :: c) with ((x :: b) ++ x :: c) in Hlast.
    now rewrite list_last_app in Hlast by discriminate.
  - rewrite walkb_app in *. apply andb_prop in Hw. destruct Hw as [H1 H2].
    change (x :: b ++ x :: c) with ((x :: b) ++ x :: c) in H2.
    rewrite walkb_app in H2. apply andb_prop in H2. destruct H2 as [_ H3].
    now rewrite H1, H3.
Qed.

(** X16: the path returned by [bfs_shortest_path] passes through no vertex
    twice after leaving [start], and not through [start] again either when
    [end_] differs from [start]. *)
Theorem bfs_shortest_path_simple (g : Graph) (start end_ : V) (p : list V) :
  built g -> In start (getVertices g) ->
  bfs_shortest_path g start end_ = Return (Some p) ->
  NoDup (tl p) /\ (start <> end_ -> NoDup p).
Proof.
  intros Hb Hs Hrun. apply built_wf in Hb.
  pose proof (bfs_shortest_path_correct g start end_ Hb Hs) as Hpost.
  rewrite Hrun in Hpost. destruct Hpost as (Hp & Hlen & Hmin).
  destruct p as [|s t]; [simpl in Hlen; lia|].
  assert (Hs' : s = start) by (destruct Hp as (Hhd & _); simpl in Hhd; congruence).
  subst s. simpl.
  assert (Hnd : NoDup t).
  { destruct (dup_split t) as [?|(a & x & b & c & ->)]; auto. exfalso.
    pose proof (is_path_cut g start end_ x (start :: a) b c Hp) as Hcut.
    apply Hmin in Hcut.
    - simpl in Hcut. rewrite !length_app in Hcut. simpl in Hcut.
      rewrite !length_app in Hcut. simpl in Hcut. lia.
    - simpl. rewrite length_app. simpl. lia. }
  split; auto. intros Hne. constructor; auto.
  intros Hin. apply in_split in Hin. destruct Hin as (a & c & ->).
  destruct Hp as (Hhd & Hlast & Hw).
  change (start :: a ++ start :: c) with ((start :: a) ++ start :: c) in Hlast, Hw.
  rewrite list_last_app in Hlast by discriminate.
  rewrite walkb_app in Hw. apply andb_prop in Hw. destruct Hw as [_ Hw].
  destruct c as [|y c].
  - unfold list_last in Hlast. simpl in Hlast. congruence.
  - assert (Hshort : is_path g start end_ (start :: y :: c))
      by (repeat split; auto).
    apply Hmin in Hshort; simpl in *; [|lia].
    rewrite length_app in Hshort. simpl in Hshort. lia.
Qed.

End Graph_ADT_facts.

(** * Facts on [Graph.__str__] *)

(** An interpreter without a limit renders every int. *)
Lemma int_str_unlimited (n : Z) : int_str 0 n = Return (int_repr n).
Proof. reflexivity. Qed.

Section Graph_str_facts.

Context {V : Type} `{PyKey V} `{PyStr V}.

Variable max_str_digits : nat.

Local Open Scope string_scope.

Lemma str_append_assoc (a b c : string) : (a ++ b) ++ c = a ++ (b ++ c).
Proof. induction a as [|x a IH]; simpl; congruence. Qed.

Lemma str_append_nil_r (a : string) : a ++ "" = a.
Proof. induction a as [|x a IH]; simpl; congruence. Qed.

Lemma Graph_str_loop_spec (g : Graph) (keys : list V) :
  (forall k, In k keys -> In k (getVertices g)) ->
  forall result_,
    Graph_str_loop max_str_digits g keys result_ =
    (s <- lines_of max_str_digits g keys ;; Return (result_ ++ s)).
Proof.
  induction keys as [|k keys IH]; intros Hk result_.
  - cbn [Graph_str_loop lines_of bind]. now rewrite str_append_nil_r.
  - cbn [Graph_str_loop lines_of]. unfold vertex_line, dict_index.
    rewrite known_get by (apply Hk; now left).
    destruct (py_str max_str_digits k) as [v| |]; cbn [bind]; try reflexivity.
    destruct (neighbors_loop max_str_digits (stored_neighbors g k) nil)
      as [ns| |]; cbn [bind]; try reflexivity.
    rewrite IH by (intros x Hx; apply Hk; now right).
    destruct (lines_of max_str_digits g keys) as [rest| |]; cbn [bind];
      try reflexivity.
    now rewrite !str_append_assoc.
Qed.

Lemma Graph_str_lines (g : Graph) :
  Graph_str max_str_digits g = lines_of max_str_digits g (getVertices g).
Proof.
  unfold Graph_str. fold (getVertices g).
  rewrite Graph_str_loop_spec by auto.
  now destruct (lines_of max_str_digits g (getVertices g)).
Qed.

Lemma lines_of_app (g : Graph) (l l' : list V) :
  lines_of max_str_digits g (l ++ l')%list =
  (a <- lines_of max_str_digits g l ;;
   b <- lines_of max_str_digits g l' ;; Return (a ++ b)).
Proof.
  induction l as [|v l IH].
  - cbn [app lines_of bind]. now destruct (lines_of max_str_digits g l').
  - change ((v :: l) ++ l')%list with (v :: (l ++ l')%list).
    cbn [lines_of]. rewrite IH.
    destruct (vertex_line max_str_digits v (stored_neighbors g v)) as [a| |];
      cbn [bind]; try reflexivity.
    destruct (lines_of max_str_digits g l) as [b| |]; cbn [bind];
      try reflexivity.
    destruct (lines_of max_str_digits g l') as [c| |]; cbn [bind];
      try reflexivity.
    now rewrite str_append_assoc.
Qed.

Lemma lines_of_ext (g g' : Graph) (keys : list V) :
  (forall v, In v keys -> stored_neighbors g' v = stored_neighbors g v) ->
  lines_of max_str_digits g' keys = lines_of max_str_digits g keys.
Proof.
  induction keys as [|k keys IH]; intros Hsame; [reflexivity|].
  cbn [lines_of]. rewrite Hsame by (now left). rewrite IH; auto.
  intros v Hv. apply Hsame. now right.
Qed.

(** When [str] of a graph returns, every vertex was rendered. *)
Lemma lines_of_Return (g : Graph) (keys : list V) (s : string) :
  lines_of max_str_digits g keys = Return s ->
  forall v, In v keys -> exists name, py_str max_str_digits v = Return name.
Proof.
  revert s. induction keys as [|k keys IH]; intros s Hrun v Hv; [destruct Hv|].
  cbn [lines_of] in Hrun. unfold vertex_line in Hrun.
  destruct (py_str max_str_digits k) as [name| |] eqn:Hk; try discriminate.
  cbn [bind] in Hrun.
  destruct (neighbors_loop max_str_digits (stored_neighbors g k) nil)
    as [ns| |]; try discriminate.
  cbn [bind] in Hrun.
  destruct (lines_of max_str_digits g keys) as [rest| |]; try discriminate.
  destruct Hv as [<-|Hv]; eauto.
Qed.

(** The inner loop on entries without weights. *)
Lemma neighbors_loop_unweighted (name : V -> string) (l : list (V * Weight)) :
  (forall e, In e l ->
     snd e = None /\ py_str max_str_digits (fst e) = Return (name (fst e))) ->
  forall neighbors,
    neighbors_loop max_str_digits l neighbors =
    Return (neighbors
            ++ map (fun e => ("[" ++ name (fst e) ++ "]")%string) l)%list.
Proof.
  induction l as [|[n w] l IH]; intros Hl neighbors.
  - cbn [neighbors_loop map]. now rewrite app_nil_r.
  - destruct (Hl (n, w) (or_introl eq_refl)) as [Hw Hn]. cbn [fst snd] in Hw, Hn.
    subst w. cbn [neighbors_loop]. unfold neighbor_str. cbn [fst snd].
    rewrite Hn. cbn [bind].
    rewrite IH by (intros e He; apply Hl; now right).
    cbn [map fst]. now rewrite <- app_assoc.
Qed.

(** X14: adding a new vertex [v] appends exactly one line to [str(g)], the
    line of a vertex without neighbors.  [str] of the new graph raises what
    [str(g)] raises; else it raises what formatting [v] raises (an int of
    more digits than the interpreter renders); else it returns the text of
    [str(g)] followed by that line. *)
Theorem Graph_str_addVertex (g : Graph) (v : V) :
  ~ In v (getVertices g) ->
  Graph_str max_str_digits (addVertex g v) =
  (s <- Graph_str max_str_digits g ;;
   name <- py_str max_str_digits v ;;
   Return (s ++ "[" ++ name ++ "] -----> " ++ newline)).
Proof.
  intros Hn. rewrite !Graph_str_lines, addVertex_keys.
  apply dict_mem_false in Hn as Hm. rewrite Hm. rewrite lines_of_app.
  rewrite (lines_of_ext g (addVertex g v))
    by (intros u _; apply addVertex_stored_neighbors).
  cbn [lines_of]. rewrite addVertex_stored_neighbors.
  assert (Hnil : stored_neighbors g v = []).
  { unfold stored_neighbors. unfold dict_mem in Hm.
    now destruct (dict_get v (adjacentList g)). }
  rewrite Hnil. unfold vertex_line. cbn [neighbors_loop].
  destruct (lines_of max_str_digits g (getVertices g)) as [s| |]; cbn [bind];
    try reflexivity.
  destruct (py_str max_str_digits v) as [name| |]; cbn [bind]; try reflexivity.
  now rewrite str_append_nil_r.
Qed.

(** X15: on a built unweighted graph [str(g)] prints no weight.  When every
    vertex [v] is rendered, as [name v], [str(g)] is one line per vertex, in
    the order of [getVertices()], which lists the neighbors of the vertex as
    [[name n]], joined by [", "]; and [str(g)] returns only when every vertex
    is rendered. *)
Theorem Graph_str_unweighted (g : Graph) :
  built g -> weighted g = false ->
  (forall name : V -> string,
     (forall v, In v (getVertices g) ->
                py_str max_str_digits v = Return (name v)) ->
     Graph_str max_str_digits g =
     Return (fold_right
               (fun v s =>
                  ("[" ++ name v ++ "] -----> "
                   ++ String.concat ", "
                        (map (fun e => "[" ++ name (fst e) ++ "]")
                           (stored_neighbors g v))
                   ++ newline) ++ s)
               "" (getVertices g))) /\
  (forall s, Graph_str max_str_digits g = Return s ->
     forall v, In v (getVertices g) ->
               exists name, py_str max_str_digits v = Return name).
Proof.
  intros Hb Hw. apply built_wf in Hb. split.
  - intros name Hname. rewrite Graph_str_lines.
    assert (Hkeys : forall k, In k (getVertices g) -> In k (getVertices g))
      by auto.
    revert Hkeys. generalize (getVertices g) at 1 3 4 as keys.
    induction keys as [|k keys IH]; intros Hkeys; [reflexivity|].
    cbn [lines_of fold_right]. rewrite IH by (intros x Hx; apply Hkeys; now right).
    unfold vertex_line. rewrite (Hname k) by (apply Hkeys; now left).
    cbn [bind]. rewrite (neighbors_loop_unweighted name).
    + reflexivity.
    + intros [n w] Hin. cbn [fst snd].
      destruct (wf_stored_neighbors g k n w Hb Hin) as [Hn Hnone].
      split; [now apply Hnone | now apply Hname].
  - intros s Hrun. rewrite Graph_str_lines in Hrun.
    exact (lines_of_Return g (getVertices g) s Hrun).
Qed.

End Graph_str_facts.

(** * The claims on the example graphs *)

Section Examples_facts.

Import Examples.
Open Scope string_scope.
Open Scope Z_scope.

Lemma built_run_edges {V} `{PyKey V} (es : list (V * V * Weight)) :
  forall g, built g -> built (run_edges g es).
Proof.
  unfold run_edges. induction es as [|e es IH]; simpl; intros g Hb; auto.
  apply IH. now apply built_addEdge.
Qed.

Lemma built_g_abc : built g_abc.
Proof. apply built_run_edges, built_init. Qed.

Lemma built_g_zero : built g_zero.
Proof. apply built_run_edges, built_init. Qed.

Lemma built_g_chain : built g_chain.
Proof. apply built_run_edges, built_init. Qed.

Lemma built_g_apart : built g_apart.
Proof. apply built_addVertex, built_run_edges, built_init. Qed.

Lemma built_g_one : built g_one.
Proof. apply built_addVertex, built_init. Qed.

Lemma g_chain_through_2 (p : list Z) : is_path g_chain 1 3 p -> In 2 p.
Proof.
  intros Hp. apply is_path_inv in Hp.
  destruct Hp as [[_ Heq]|(q & u & -> & Hq & He)]; [discriminate|].
  apply in_or_app. left.
  apply edgeb_true in He. destruct He as (l & w & Hg & Hin).
  apply dict_get_In in Hg. vm_compute in Hg.
  destruct Hq as (_ & Hlast & _). apply list_last_Return in Hlast.
  destruct Hlast as (r & ->).
  destruct Hg as [Hg|[Hg|[Hg|[]]]]; injection Hg as <- <-.
  - destruct Hin as [Hin|[]]. discriminate.
  - apply in_or_app. right. now left.
  - destruct Hin.
Qed.

Lemma g_apart_unreachable : ~ reachable g_apart 1 3.
Proof.
  intros (p & Hp). apply is_path_inv in Hp.
  destruct Hp as [[_ Heq]|(q & u & -> & Hq & He)]; [discriminate|].
  apply edgeb_true in He. destruct He as (l & w & Hg & Hin).
  apply dict_get_In in Hg. vm_compute in Hg.
  destruct Hg as [Hg|[Hg|[Hg|[]]]]; injection Hg as <- <-.
  - destruct Hin as [Hin|[]]. discriminate.
  - destruct Hin.
  - destruct Hin.
Qed.

(** C1 fails on the code: in the weighted digraph 1->0(1), 0->2(1), 2->3(1),
    1->3(100), [dijkstra(1, 3)] returns [[1, 3]], of cost 100, although
    [[1, 0, 2, 3]] is a path of cost 3: the walk back from [end] stops at the
    predecessor 0, which Python takes for false. *)
Theorem dijkstra_falsy_predecessor :
  dijkstra g_zero 1 3 = Return [1; 3] /\
  path_cost g_zero [1; 3] = Some 100 /\
  is_path g_zero 1 3 [1; 0; 2; 3] /\
  path_cost g_zero [1; 0; 2; 3] = Some 3.
Proof. repeat split. Qed.

(** The same slip with the start vertex 0: on the graph 0->1(5),
    [dijkstra(0, 1)] returns [[0]], which does not reach 1. *)
Example dijkstra_falsy_start :
  dijkstra g_from_zero 0 1 = Return [0] /\ is_path g_from_zero 0 1 [0; 1].
Proof. repeat split. Qed.

(** On the graph of the scenario every vertex is a non-empty string, and the
    result of [dijkstra] is a cheapest path. *)
Lemma dijkstra_optimal_on_true_vertices_witness :
  exists r c,
    dijkstra g_abc "A" "C" = Return r /\
    is_path g_abc "A" "C" r /\ path_cost g_abc r = Some c /\
    (forall q cq, is_path g_abc "A" "C" q -> path_cost g_abc q = Some cq ->
                  c <= cq).
Proof.
  apply (dijkstra_optimal_on_true_vertices g_abc "A" "C" built_g_abc eq_refl).
  - apply nonneg_weightsb_sound. reflexivity.
  - apply (proj1 (forallb_forall truthy (getVertices g_abc))). reflexivity.
  - now left.
  - exists ["A"; "C"]. repeat split.
Defined.

(** The scenario of C1 on strings: A->B(1), B->C(2), A->C(10). *)
Example dijkstra_abc : dijkstra g_abc "A" "C" = Return ["A"; "B"; "C"].
Proof. reflexivity. Qed.

(** C2 as stated fails at [start = end]: the one-vertex path is a path from
    1 to 1, and [bfs_shortest_path(1, 1)] returns [None] on the graph whose
    only vertex is 1. *)
Lemma bfs_shortest_path_same_end_none :
  In 1 (getVertices g_one) /\ is_path g_one 1 1 [1] /\
  bfs_shortest_path g_one 1 1 = Return None.
Proof. repeat split. now left. Qed.

Lemma bfs_shortest_path_fewest_edges_witness :
  exists p,
    bfs_shortest_path g_chain 1 3 = Return (Some p) /\
    is_path g_chain 1 3 p /\ (1 <= edges_of p)%nat /\
    (forall q, is_path g_chain 1 3 q -> (1 <= edges_of q)%nat ->
               (edges_of p <= edges_of q)%nat) /\
    (forall q, dfs_shortest_path g_chain 1 3 = Return (Some q) ->
               (edges_of p <= edges_of q)%nat).
Proof.
  apply (proj1 (bfs_shortest_path_fewest_edges g_chain 1 3 built_g_chain
                  (or_introl eq_refl))).
  exists [1; 2; 3]. split; [repeat split | vm_compute; lia].
Defined.

Lemma dfs_avoids_witness : dfs g_chain 1 3 2 = Return [].
Proof.
  apply (proj2 (dfs_avoids g_chain 1 3 2 ltac:(discriminate) ltac:(discriminate))).
  - exact built_g_chain.
  - now left.
  - exact g_chain_through_2.
Defined.

(** C4 as stated fails for a source that is not a vertex: on the empty
    graph [getWeight(1, 2)] raises [KeyError]. *)
Lemma getWeight_unknown_source_raises :
  ~ In 1 (getVertices g_empty) /\
  getWeight g_empty 1 2 = Raise KeyError /\
  getWeight g_empty 1 2 <> Return None.
Proof. repeat split; [intros [] | discriminate]. Qed.

Lemma getWeight_first_match_witness :
  getWeight g_abc "A" "C" = Return (Some 10).
Proof.
  apply (proj1 (getWeight_first_match g_abc "A" "C") [("B", Some 1)] []).
  - reflexivity.
  - intros e [<-|[]]. discriminate.
Defined.

(** C5 as stated fails: vertex 3 cannot be reached from 1 in the graph
    1->2(5) with the vertex 3 apart, and [dijkstra(1, 3)] returns the
    non-empty list [[1]]. *)
Lemma dijkstra_unreachable_returns_start :
  In 1 (getVertices g_apart) /\ In 3 (getVertices g_apart) /\
  ~ reachable g_apart 1 3 /\
  dijkstra g_apart 1 3 = Return [1] /\
  dijkstra g_apart 1 3 <> Return [].
Proof.
  split; [now left|]. split; [right; right; now left|].
  split; [exact g_apart_unreachable|]. split; [reflexivity | discriminate].
Qed.

Lemma dijkstra_unreachable_witness : dijkstra g_apart 1 3 = Return [1].
Proof.
  apply (dijkstra_unreachable g_apart 1 3 built_g_apart eq_refl).
  - now left.
  - right; right; now left.
  - exact g_apart_unreachable.
  - apply float_weightsb_sound. reflexivity.
Defined.

(** With a weight that fits no float the unreachable case raises: in the
    graph with the vertex 1 apart and the edge 2->3(2**1024), vertex 3
    cannot be reached from 1, [dijkstra(1, 3)] pops 2 at distance
    [float("inf")] and adding the weight raises [OverflowError]; so does
    [dijkstra(7, 3)] from the unknown vertex 7. *)
Example dijkstra_overflow :
  In 1 (getVertices g_huge) /\ In 3 (getVertices g_huge) /\
  ~ In 7 (getVertices g_huge) /\ ~ reachable g_huge 1 3 /\
  dijkstra g_huge 1 3 = Raise OverflowError /\
  dijkstra g_huge 7 3 = Raise OverflowError.
Proof.
  split; [now left|]. split; [right; right; now left|].
  split; [intros [Heq|[Heq|[Heq|[]]]]; discriminate|].
  split; [|split; vm_compute; reflexivity].
  intros Hr. apply no_neighbors_unreachable in Hr; [discriminate | reflexivity].
Qed.

Lemma g_apart_unknown_7 : ~ In 7 (getVertices g_apart).
Proof. intros [Heq|[Heq|[Heq|[]]]]; discriminate. Qed.

(** C6 as stated fails for [dijkstra] (and for [dfs] with [start = end]):
    7 is not a vertex of the graph 1->2(5), 3, and [dijkstra(7, 2)] returns
    [[7]] where the claim has a [NotFound] error; so does [dfs(7, 7, 9)]. *)
Lemma dijkstra_unknown_start_returns :
  ~ In 7 (getVertices g_apart) /\
  dijkstra g_apart 7 2 = Return [7] /\
  dijkstra g_apart 7 2 <> Raise KeyError /\
  dfs g_apart 7 7 9 = Return [7].
Proof.
  split; [exact g_apart_unknown_7|].
  split; [reflexivity|]. split; [discriminate | reflexivity].
Qed.

Lemma unknown_start_witness :
  getNeighbors g_apart 7 = Raise KeyError /\
  bfs g_apart 7 = Raise KeyError /\
  bfs_shortest_path g_apart 7 2 = Raise KeyError /\
  dfs_shortest_path g_apart 7 2 = Raise KeyError /\
  (7 <> 2 -> dfs g_apart 7 2 9 = Raise KeyError) /\
  (7 = 2 -> dfs g_apart 7 2 9 = Return [7]) /\
  (built g_apart -> weighted g_apart = true ->
   (float_weights g_apart -> dijkstra g_apart 7 2 = Return [7]) /\
   (dijkstra g_apart 7 2 = Return [7] \/
    dijkstra g_apart 7 2 = Raise OverflowError)).
Proof. exact (unknown_start g_apart 7 2 9 g_apart_unknown_7). Defined.

Lemma addEdge_weight_policy_witness :
  (forall u l v w, In (u, l) (adjacentList g_chain) -> In (v, w) l -> w = None) /\
  getWeight g_chain 1 2 = Return None.
Proof.
  destruct (addEdge_weight_policy g_chain 1 2 None) as (_ & _ & Hun).
  destruct (Hun built_g_chain eq_refl) as [Hnone Hget].
  split; [exact Hnone | apply Hget; now left].
Defined.

(** C8 as stated fails for a self-loop on a directed graph: [addEdge(1, 1)]
    on the directed graph whose only vertex is 1 does add an entry to the
    neighbor list of [v = 1]. *)
Lemma addEdge_directed_self_loop :
  directed g_one = true /\
  snd (addEdge g_one 1 1 None) = Return tt /\
  getNeighbors g_one 1 = Return [] /\
  getNeighbors (fst (addEdge g_one 1 1 None)) 1 = Return [(1, None)].
Proof. repeat split. Qed.

Lemma addEdge_neighbor_entries_witness :
  exists lu lv,
    getNeighbors (fst (addEdge g_apart 1 3 (Some 4))) 1 = Return lu /\
    getNeighbors (fst (addEdge g_apart 1 3 (Some 4))) 3 = Return lv /\
    In (3, stored_weight g_apart (Some 4)) lu /\
    (directed g_apart = false -> In (1, stored_weight g_apart (Some 4)) lv) /\
    (directed g_apart = true -> 1 <> 3 -> lv = stored_neighbors g_apart 3).
Proof. exact (addEdge_neighbor_entries g_apart 1 3 (Some 4) eq_refl). Defined.

Lemma edge_endpoints_are_vertices_witness :
  In "A" (getVertices g_abc) /\ In "C" (getVertices g_abc).
Proof.
  apply (edge_endpoints_are_vertices g_abc "A" "C"
           [("B", Some 1); ("C", Some 10)] (Some 10) built_g_abc).
  - now left.
  - right. now left.
Defined.

Lemma addEdge_missing_weight_not_atomic_witness :
  getVertices g_empty = [] /\
  addEdge g_empty 1 2 None
  = (addVertex (addVertex g_empty 1) 2, Raise ValueError) /\
  getVertices (fst (addEdge g_empty 1 2 None)) = [1; 2] /\
  edge_count (fst (addEdge g_empty 1 2 None)) = edge_count g_empty.
Proof.
  destruct (addEdge_missing_weight_not_atomic g_empty 1 2 eq_refl)
    as (Hcall & _ & Hcount & _).
  split; [reflexivity|]. split; [exact Hcall|]. split; [reflexivity | exact Hcount].
Defined.

(** ** The further properties on the example graphs *)

Lemma built_g_triangle : built g_triangle.
Proof. apply built_run_edges, built_init. Qed.

Lemma addVertex_new_or_known_witness :
  addVertex g_chain 2 = g_chain /\
  getVertices (addVertex g_chain 9) = [1; 2; 3; 9].
Proof.
  destruct (addVertex_new_or_known g_chain 2) as [Hknown _].
  destruct (addVertex_new_or_known g_chain 9) as [_ Hnew].
  split.
  - apply Hknown. right. now left.
  - apply Hnew. intros [Heq|[Heq|[Heq|[]]]]; discriminate.
Defined.

Lemma getVertices_NoDup_witness : NoDup (getVertices g_abc).
Proof. exact (getVertices_NoDup g_abc built_g_abc). Defined.

Lemma addEdge_only_adds_witness :
  exists more,
    getNeighbors (fst (addEdge g_abc "A" "D" (Some 4))) "A"
    = Return ([("B", Some 1); ("C", Some 10)] ++ more)%list.
Proof.
  destruct (addEdge_only_adds g_abc "A" "D" (Some 4)) as (_ & Hnb & _).
  apply Hnb. reflexivity.
Defined.

Lemma weighted_edges_have_weights_witness :
  exists w, getWeight g_abc "A" "C" = Return (Some w) /\
            In ("C", Some w) (stored_neighbors g_abc "A").
Proof.
  exact (weighted_edges_have_weights g_abc "A" "C" built_g_abc eq_refl eq_refl).
Defined.

Lemma undirected_symmetric_witness :
  In (3, None) (stored_neighbors g_triangle 1) <->
  In (1, None) (stored_neighbors g_triangle 3).
Proof.
  exact (undirected_symmetric g_triangle 1 3 None built_g_triangle eq_refl).
Defined.

Lemma addEdge_then_getWeight_witness :
  getWeight (fst (addEdge g_abc "A" "B" (Some 7))) "A" "B" = Return (Some 1) /\
  getWeight (fst (addEdge g_abc "C" "A" (Some 7))) "C" "A" = Return (Some 7).
Proof.
  split.
  - exact (addEdge_then_getWeight g_abc "A" "B" (Some 7) eq_refl).
  - exact (addEdge_then_getWeight g_abc "C" "A" (Some 7) eq_refl).
Defined.

Lemma addEdge_edge_count_witness :
  edge_count (fst (addEdge g_triangle 3 3 None)) = (edge_count g_triangle + 2)%nat.
Proof. exact (addEdge_edge_count g_triangle 3 3 None eq_refl). Defined.

Lemma bfs_visits_reachable_witness :
  exists visited,
    bfs g_triangle 1 = Return visited /\
    hd_error visited = Some 1 /\ NoDup visited /\
    (forall v, In v visited <-> reachable g_triangle 1 v).
Proof.
  apply (bfs_visits_reachable g_triangle 1 built_g_triangle). now left.
Defined.

Lemma dfs_finds_path_witness :
  exists r, dfs g_chain 1 3 9 = Return r /\
            is_path g_chain 1 3 r /\ ~ In 9 r /\ NoDup r.
Proof.
  apply (proj1 (dfs_finds_path g_chain 1 3 9 built_g_chain
                  (or_introl eq_refl) ltac:(discriminate))).
  exists [1; 2; 3]. split; [repeat split|].
  intros [Heq|[Heq|[Heq|[]]]]; discriminate.
Defined.

Lemma dfs_shortest_path_finds_witness :
  exists p, dfs_shortest_path g_chain 1 3 = Return (Some p) /\
            is_path g_chain 1 3 p /\ (1 <= edges_of p)%nat.
Proof.
  apply (proj1 (dfs_shortest_path_finds g_chain 1 3 built_g_chain
                  (or_introl eq_refl))).
  exists [1; 2; 3]. split; [repeat split | vm_compute; lia].
Defined.

Lemma dijkstra_same_vertex_witness : dijkstra g_chain 2 2 = Return [2].
Proof.
  apply (dijkstra_same_vertex g_chain 2 built_g_chain). right. now left.
Defined.

Lemma dijkstra_unweighted_raises_witness :
  dijkstra g_chain 1 3 = Raise TypeError.
Proof.
  apply (dijkstra_unweighted_raises g_chain 1 3 built_g_chain eq_refl).
  - now left.
  - discriminate.
  - discriminate.
Defined.

Lemma Graph_str_addVertex_witness :
  Graph_str 4300 (addVertex g_chain 9) =
  (s <- Graph_str 4300 g_chain ;;
   name <- py_str 4300 9 ;;
   Return (s ++ "[" ++ name ++ "] -----> " ++ newline)).
Proof.
  apply (Graph_str_addVertex 4300 g_chain 9).
  intros [Heq|[Heq|[Heq|[]]]]; discriminate.
Defined.

Lemma Graph_str_unweighted_witness :
  Graph_str 4300 g_chain =
  Return ("[1] -----> [2]" ++ newline
          ++ "[2] -----> [3]" ++ newline
          ++ "[3] -----> " ++ newline).
Proof.
  apply (proj1 (Graph_str_unweighted 4300 g_chain built_g_chain eq_refl)
           int_repr).
  intros v [<-|[<-|[<-|[]]]]; reflexivity.
Defined.

Lemma bfs_shortest_path_simple_witness :
  NoDup (tl [1; 2; 3]) /\ (1 <> 3 -> NoDup [1; 2; 3]).
Proof.
  exact (bfs_shortest_path_simple g_chain 1 3 [1; 2; 3] built_g_chain
           (or_introl eq_refl) eq_refl).
Defined.

(** [str(g)] on the graph A->B(1), B->C(2), A->C(10). *)
Example Graph_str_abc :
  Graph_str 4300 g_abc =
  Return ("[A] -----> [B] [1], [C] [10]" ++ newline
          ++ "[B] -----> [C] [2]" ++ newline
          ++ "[C] -----> " ++ newline).
Proof. reflexivity. Qed.

(** An int vertex of 641 digits: [str(g)] raises [ValueError] in an
    interpreter set to 640 digits, the least limit it accepts, and returns
    under the default limit of 4300 digits. *)
Example Graph_str_digit_limit :
  Graph_str 640 g_digits = Raise ValueError /\
  exists s, Graph_str 4300 g_digits = Return s.
Proof. split; [|eexists]; vm_compute; reflexivity. Qed.

End Examples_facts.
